(** * ObsiWiki: the wiki-to-obsidian reverse sync

    A shallow embedding of [wiki-to-obsidian.py]: the dialect converter
    (three [re.sub] passes with their callbacks) and the sync orchestrator
    ([sync_from_wiki]) running against a small model of a git working copy.

    Text is modelled as [string] (ASCII characters); the case operations
    [str.lower] and [str.title] are the ASCII restriction of Python's. *)

From Stdlib Require Import Bool Arith Lia List Ascii String DecimalString.
Import ListNotations.
Open Scope string_scope.
Open Scope bool_scope.
Open Scope nat_scope.

(* ================================================================= *)
(** ** Characters and strings *)

Module Str.

Definition is_upper (c : ascii) : bool :=
  (65 <=? nat_of_ascii c) && (nat_of_ascii c <=? 90).

Definition is_lower (c : ascii) : bool :=
  (97 <=? nat_of_ascii c) && (nat_of_ascii c <=? 122).

(** A cased character is a letter. *)
Definition is_cased (c : ascii) : bool := is_upper c || is_lower c.

(** [c.isascii()].  Texts are held as the bytes of their UTF-8 encoding;
    the functions on letters below are those of Python on ASCII text. *)
Definition is_ascii (c : ascii) : bool := nat_of_ascii c <? 128.

Definition to_lower (c : ascii) : ascii :=
  if is_upper c then ascii_of_nat (nat_of_ascii c + 32) else c.

Definition to_upper (c : ascii) : ascii :=
  if is_lower c then ascii_of_nat (nat_of_ascii c - 32) else c.

(** [s.lower()] *)
Fixpoint lower (s : string) : string :=
  match s with
  | EmptyString => EmptyString
  | String c s' => String (to_lower c) (lower s')
  end.

(** [s.title()]: a cased character that follows a cased character is
    lowercased, any other character is uppercased. *)
Fixpoint title_from (previous_is_cased : bool) (s : string) : string :=
  match s with
  | EmptyString => EmptyString
  | String c s' =>
      String (if previous_is_cased then to_lower c else to_upper c)
             (title_from (is_cased c) s')
  end.

Definition title (s : string) : string := title_from false s.

(** [s.replace(a, b)] for one-character [a] and [b]. *)
Fixpoint replace (a b : ascii) (s : string) : string :=
  match s with
  | EmptyString => EmptyString
  | String c s' => String (if Ascii.eqb c a then b else c) (replace a b s')
  end.

(** The first [n] characters of [s]. *)
Fixpoint take (n : nat) (s : string) : string :=
  match n, s with
  | S n', String c s' => String c (take n' s')
  | _, _ => EmptyString
  end.

Fixpoint drop (n : nat) (s : string) : string :=
  match n, s with
  | S n', String _ s' => drop n' s'
  | _, _ => s
  end.

(** [s.startswith(p)] *)
Fixpoint startswith (p s : string) : bool :=
  match p, s with
  | EmptyString, _ => true
  | String a p', String b s' => Ascii.eqb a b && startswith p' s'
  | String _ _, EmptyString => false
  end.

(** [s.endswith(p)] *)
Definition endswith (p s : string) : bool :=
  (length p <=? length s) && String.eqb (drop (length s - length p) s) p.

(** [p in s] (substring test). *)
Fixpoint contains (p s : string) : bool :=
  startswith p s ||
  match s with
  | EmptyString => false
  | String _ s' => contains p s'
  end.

(** Does the character occur in the string? *)
Fixpoint mem (c : ascii) (s : string) : bool :=
  match s with
  | EmptyString => false
  | String d s' => Ascii.eqb c d || mem c s'
  end.

(** Every character satisfies [p]. *)
Fixpoint all (p : ascii -> bool) (s : string) : bool :=
  match s with
  | EmptyString => true
  | String c s' => p c && all p s'
  end.

Definition is_space (c : ascii) : bool :=
  let n := nat_of_ascii c in
  (n =? 32) || ((9 <=? n) && (n <=? 13)) || ((28 <=? n) && (n <=? 31)).

Fixpoint lstrip (s : string) : string :=
  match s with
  | String c s' => if is_space c then lstrip s' else s
  | EmptyString => EmptyString
  end.

(** [rstrip] keeps a character when something non-blank follows it. *)
Fixpoint rstrip (s : string) : string :=
  match s with
  | EmptyString => EmptyString
  | String c s' =>
      match rstrip s' with
      | EmptyString => if is_space c then EmptyString else String c EmptyString
      | r => String c r
      end
  end.

(** [s.strip()] *)
Definition strip (s : string) : string := rstrip (lstrip s).

(** [s.split(sep)] for a one-character separator. *)
Fixpoint split (sep : ascii) (s : string) : list string :=
  match s with
  | EmptyString => [EmptyString]
  | String c s' =>
      if Ascii.eqb c sep then EmptyString :: split sep s'
      else match split sep s' with
           | w :: ws => String c w :: ws
           | [] => [String c EmptyString]
           end
  end.

Definition newline : ascii := ascii_of_nat 10.

Definition carriage_return : ascii := ascii_of_nat 13.

(** What reading in text mode makes of the line ends: [\r\n] and a lone
    [\r] become [\n]. *)
Fixpoint universal_newlines (s : string) : string :=
  match s with
  | EmptyString => EmptyString
  | String c s' =>
      if Ascii.eqb c carriage_return
      then String newline
             match s' with
             | String d s'' => if Ascii.eqb d newline then universal_newlines s''
                               else universal_newlines s'
             | EmptyString => EmptyString
             end
      else String c (universal_newlines s')
  end.

(** The bytes are UTF-8 as Python decodes it: [n] continuation bytes are
    still due, the next of them between [lo] and [hi]; no overlong form,
    no surrogate, nothing above U+10FFFF. *)
Fixpoint utf8_from (n lo hi : nat) (s : string) : bool :=
  match s with
  | EmptyString => n =? 0
  | String c s' =>
      let b := nat_of_ascii c in
      match n with
      | 0 =>
          if b <? 128 then utf8_from 0 128 191 s'
          else if (194 <=? b) && (b <=? 223) then utf8_from 1 128 191 s'
          else if b =? 224 then utf8_from 2 160 191 s'
          else if b =? 237 then utf8_from 2 128 159 s'
          else if (225 <=? b) && (b <=? 239) then utf8_from 2 128 191 s'
          else if b =? 240 then utf8_from 3 144 191 s'
          else if (241 <=? b) && (b <=? 243) then utf8_from 3 128 191 s'
          else if b =? 244 then utf8_from 3 128 143 s'
          else false
      | S n' => (lo <=? b) && (b <=? hi) && utf8_from n' 128 191 s'
      end
  end.

Definition utf8 (s : string) : bool := utf8_from 0 128 191 s.

End Str.

(* ================================================================= *)
(** ** Regular expressions: the fragment of [re] the script uses *)

Module Re.

(** One-character matchers. *)
Inductive atom : Type :=
| Lit (c : ascii)          (* an escaped or plain literal: \[  \|  \.  # *)
| NoneOf (cs : string).    (* a negated class: [^...] *)

(** Patterns.  Quantifiers are greedy and, as in every pattern of the
    script, apply to one-character matchers. *)
Inductive regex : Type :=
| Atom (a : atom)
| Opt (a : atom)                 (* a?  *)
| Star (a : atom)                (* a*  *)
| Plus (a : atom)                (* a+  *)
| Word (s : string)              (* consecutive literals *)
| Seq (r1 r2 : regex)
| Alt (r1 r2 : regex)            (* r1|r2, first alternative first *)
| Group (n : nat) (r : regex).   (* capturing group number n *)

Declare Scope re_scope.
Delimit Scope re_scope with re.
Infix ">>" := Seq (at level 61, right associativity) : re_scope.
Infix "<|>" := Alt (at level 62, right associativity) : re_scope.

(** Captured groups, most recent binding first. *)
Definition groups : Type := list (nat * string).

Fixpoint lookup (n : nat) (g : groups) : option string :=
  match g with
  | [] => None
  | (m, s) :: g' => if Nat.eqb n m then Some s else lookup n g'
  end.

(** The text consumed between input [s] and its suffix [rest]. *)
Definition taken (s rest : string) : string :=
  Str.take (length s - length rest) s.

Section Matching.

(** [re.IGNORECASE] *)
Variable ignorecase : bool.

Definition char_eq (a b : ascii) : bool :=
  if ignorecase then Ascii.eqb (Str.to_lower a) (Str.to_lower b)
  else Ascii.eqb a b.

Fixpoint in_class (c : ascii) (cs : string) : bool :=
  match cs with
  | EmptyString => false
  | String d cs' => char_eq c d || in_class c cs'
  end.

Definition accepts (a : atom) (c : ascii) : bool :=
  match a with
  | Lit d => char_eq c d
  | NoneOf cs => negb (in_class c cs)
  end.

Context {R : Type}.

(** Backtracking matcher in continuation-passing style: [k] receives
    the unconsumed input; the first success wins. *)

Fixpoint greedy (a : atom) (s : string) (k : string -> option R) : option R :=
  match s with
  | String c s' =>
      if accepts a c then
        match greedy a s' k with
        | Some r => Some r
        | None => k s
        end
      else k s
  | EmptyString => k s
  end.

Fixpoint literal (w : string) (s : string) (k : string -> option R) : option R :=
  match w with
  | EmptyString => k s
  | String d w' =>
      match s with
      | String c s' => if char_eq c d then literal w' s' k else None
      | EmptyString => None
      end
  end.

Fixpoint run (r : regex) (s : string) (g : groups)
         (k : string -> groups -> option R) : option R :=
  match r with
  | Atom a =>
      match s with
      | String c s' => if accepts a c then k s' g else None
      | EmptyString => None
      end
  | Opt a =>
      match s with
      | String c s' =>
          if accepts a c then
            match k s' g with
            | Some r => Some r
            | None => k s g
            end
          else k s g
      | EmptyString => k s g
      end
  | Star a => greedy a s (fun rest => k rest g)
  | Plus a =>
      match s with
      | String c s' =>
          if accepts a c then greedy a s' (fun rest => k rest g) else None
      | EmptyString => None
      end
  | Word w => literal w s (fun rest => k rest g)
  | Seq r1 r2 => run r1 s g (fun rest g' => run r2 rest g' k)
  | Alt r1 r2 =>
      match run r1 s g k with
      | Some r => Some r
      | None => run r2 s g k
      end
  | Group n r' => run r' s g (fun rest g' => k rest ((n, taken s rest) :: g'))
  end.

End Matching.

(** A match object: [group(0)] and the numbered groups. *)
Record Match : Type := mkMatch { whole : string; caps : groups }.

(** [m.group(n)]; [None] when the group took no part in the match. *)
Definition group (m : Match) (n : nat) : option string :=
  match n with
  | 0 => Some (whole m)
  | _ => lookup n (caps m)
  end.

(** A match anchored at the start of [s] ([re.match], and one attempt of
    the scan of [re.sub]). *)
Definition match_at (ignorecase : bool) (r : regex) (s : string) : option Match :=
  run ignorecase r s [] (fun rest g => Some (mkMatch (taken s rest) g)).

(** [re.sub(pattern, repl, s)] with a callable [repl]: leftmost matches,
    not overlapping, scanning left to right.  [skip] counts the characters
    still covered by the previous match. *)
Fixpoint sub_scan (ignorecase : bool) (r : regex) (repl : Match -> string)
         (s : string) (skip : nat) : string :=
  match skip with
  | S n =>
      match s with
      | EmptyString => EmptyString
      | String _ s' => sub_scan ignorecase r repl s' n
      end
  | 0 =>
      match match_at ignorecase r s with
      | Some m =>
          repl m ++
          match length (whole m), s with
          | _, EmptyString => EmptyString
          | 0, String c s' => String c (sub_scan ignorecase r repl s' 0)
          | S n, String _ s' => sub_scan ignorecase r repl s' n
          end
      | None =>
          match s with
          | EmptyString => EmptyString
          | String c s' => String c (sub_scan ignorecase r repl s' 0)
          end
      end
  end.

Definition sub (ignorecase : bool) (r : regex) (repl : Match -> string)
           (s : string) : string :=
  sub_scan ignorecase r repl s 0.

End Re.

(* ================================================================= *)
(** ** The dialect converter *)

Import Re.
Open Scope re_scope.

(** The value of a group that took part in the match. *)
Definition text (o : option string) : string :=
  match o with
  | Some s => s
  | None => EmptyString
  end.

(** [x if x else ""] *)
Definition or_empty (o : option string) : string :=
  match o with
  | Some (String c s) => String c s
  | _ => EmptyString
  end.

(** [reverse_page_links]: [[link text|filename]] -> [[filename|link text]] *)
Definition reverse_page_links (m : Match) : string :=
  let prefix := or_empty (group m 1) in
  let linktext := text (group m 2) in
  let filename := Str.replace "-" " " (text (group m 3)) in
  prefix ++ "[[" ++ filename ++ "|" ++ linktext ++ "]]".

(** [reverse_header_links]: [text](#some-header) -> [[#Some Header|text]] *)
Definition reverse_header_links (m : Match) : string :=
  let linktext := text (group m 1) in
  let header := Str.title (Str.replace "-" " " (text (group m 2))) in
  "[[#" ++ header ++ "|" ++ linktext ++ "]]".

Definition image_extensions : list string :=
  [".png"; ".jpg"; ".jpeg"; ".gif"; ".svg"; ".webp"; ".bmp"].

(** r'\[\[([^\]]+)\]\]' *)
Definition filename_re : regex :=
  Word "[[" >> Group 1 (Plus (NoneOf "]")) >> Word "]]".

(** [reverse_image_links]: [[image.png]] -> ![[image.png]] *)
Definition reverse_image_links (m : Match) : string :=
  let prefix := or_empty (group m 1) in
  let link_content := text (group m 2) in
  match match_at false filename_re link_content with
  | Some filename_match =>
      let filename := text (group filename_match 1) in
      if existsb (fun ext => Str.endswith ext (Str.lower filename)) image_extensions
      then prefix ++ "!" ++ link_content
      else text (group m 0)
  | None => text (group m 0)
  end.

(** r'([^!]?)\[\[([^|\]]+)\|([^|\]]+)\]\]' *)
Definition page_link_re : regex :=
  Group 1 (Opt (NoneOf "!")) >> Word "[[" >> Group 2 (Plus (NoneOf "|]")) >>
  Atom (Lit "|") >> Group 3 (Plus (NoneOf "|]")) >> Word "]]".

(** r'\[([^\]]+)\]\(#([^)]+)\)' *)
Definition header_link_re : regex :=
  Atom (Lit "[") >> Group 1 (Plus (NoneOf "]")) >> Word "](#" >>
  Group 2 (Plus (NoneOf ")")) >> Atom (Lit ")").

(** r'([^!]?)(\[\[[^\]]+\.(png|jpg|jpeg|gif|svg|webp|bmp)[^\]]*\]\])' *)
Definition image_link_re : regex :=
  Group 1 (Opt (NoneOf "!")) >>
  Group 2 (Word "[[" >> Plus (NoneOf "]") >> Atom (Lit ".") >>
           Group 3 (Word "png" <|> Word "jpg" <|> Word "jpeg" <|> Word "gif" <|>
                    Word "svg" <|> Word "webp" <|> Word "bmp") >>
           Star (NoneOf "]") >> Word "]]").

(** The three passes of [apply_reverse_conversions], in source order. *)
Definition page_link_pass (t : string) : string :=
  sub false page_link_re reverse_page_links t.

Definition header_link_pass (t : string) : string :=
  sub false header_link_re reverse_header_links t.

Definition image_link_pass (t : string) : string :=
  sub true image_link_re reverse_image_links t.

(** The text [apply_reverse_conversions] computes for a file's content. *)
Definition convert_text (original_text : string) : string :=
  image_link_pass (header_link_pass (page_link_pass original_text)).

Close Scope re_scope.

(* ================================================================= *)
(** ** A model of the git working copy the script runs in

    The script drives git through child processes.  The model keeps what
    the script observes of the repository: the local branches with their
    revisions, the remote-tracking ref [origin/master], master at the
    remote, the branch checked out, the files of the working tree and the
    state file.  On top of the failures the state forces (a branch that
    does not exist, nothing to commit), any command may exit with a
    non-zero status or run past its timeout, before or after it has done
    its work, as scheduled by [faults].  What a pull makes of diverged
    histories is left to the configuration of the repository
    ([reconcile]).  Ref names resolve to local branches and to
    [origin/master] only.

    The index is not modelled, nor are hooks.  A checkout is that of a
    clean working tree: it makes the working tree the tree of the branch,
    where git would carry uncommitted and untracked files along or refuse
    to overwrite them.  A path is handed to git as it is, where the shell
    would expand [$], a backquote or a backslash inside the double quotes
    the script puts around it.  The properties below that hold of every
    repository are about branches, the state file, the exit status and
    the commands run; the sample repositories have a clean working tree
    at every checkout. *)

Module Git.

(** A tree maps repository paths to file contents. *)
Definition Tree : Type := list (string * string).

Fixpoint read_file (p : string) (t : Tree) : option string :=
  match t with
  | [] => None
  | (q, content) :: t' => if String.eqb p q then Some content else read_file p t'
  end.

Fixpoint write_file (p content : string) (t : Tree) : Tree :=
  match t with
  | [] => [(p, content)]
  | (q, old) :: t' =>
      if String.eqb p q then (q, content) :: t'
      else (q, old) :: write_file p content t'
  end.

Fixpoint tree_eqb (a b : Tree) : bool :=
  match a, b with
  | [], [] => true
  | (p, x) :: a', (q, y) :: b' => String.eqb p q && String.eqb x y && tree_eqb a' b'
  | _, _ => false
  end.

(** A revision is a commit together with its history; two revisions are
    the same hash exactly when they are the same commit. *)
Inductive Commit : Type :=
| Root (tree : Tree)
| Next (parent : Commit) (tree : Tree) (message : string)
| Merge (ours theirs : Commit) (tree : Tree) (message : string).

Definition tree_of (c : Commit) : Tree :=
  match c with
  | Root t => t
  | Next _ t _ => t
  | Merge _ _ t _ => t
  end.

Fixpoint commit_eqb (a b : Commit) : bool :=
  match a, b with
  | Root s, Root t => tree_eqb s t
  | Next p s m, Next q t n => commit_eqb p q && tree_eqb s t && String.eqb m n
  | Merge p1 p2 s m, Merge q1 q2 t n =>
      commit_eqb p1 q1 && commit_eqb p2 q2 && tree_eqb s t && String.eqb m n
  | _, _ => false
  end.

Fixpoint is_ancestor (a b : Commit) : bool :=
  commit_eqb a b ||
  match b with
  | Root _ => false
  | Next p _ _ => is_ancestor a p
  | Merge p q _ _ => is_ancestor a p || is_ancestor a q
  end.

(** Paths that differ between two trees ([git diff --name-only]). *)
Definition diff_names (a b : Tree) : list string :=
  (map fst (filter (fun e => match read_file (fst e) b with
                             | Some y => negb (String.eqb (snd e) y)
                             | None => true
                             end) a)
   ++ map fst (filter (fun e => match read_file (fst e) a with
                                | Some _ => false
                                | None => true
                                end) b))%list.

(** What [git pull] makes of a branch and a remote branch that have
    diverged, as [pull.rebase] and [pull.ff] are configured: the new head
    of the branch, given its head and the remote one, or [None] when the
    pull is refused or stops on a conflict. *)
Definition Reconcile : Type := Commit -> Commit -> option Commit.

(** [pull.ff only], and git's answer when nothing is configured. *)
Definition fast_forward_only : Reconcile := fun _ _ => None.

(** [pull.rebase false], for histories that merge without conflict and
    leave the remote's files. *)
Definition merge_theirs : Reconcile :=
  fun ours theirs => Some (Merge ours theirs (tree_of theirs) "Merge branch 'master'").

(** [pull.rebase true], for a branch one commit ahead whose commit
    applies without conflict: the commit is made anew on the remote head. *)
Definition rebase_ours : Reconcile :=
  fun ours theirs => Some (Next theirs (tree_of ours) "local edit").

Definition Branches : Type := list (string * Commit).

Fixpoint branch_head (name : string) (bs : Branches) : option Commit :=
  match bs with
  | [] => None
  | (n, c) :: bs' => if String.eqb name n then Some c else branch_head name bs'
  end.

Fixpoint set_branch (name : string) (c : Commit) (bs : Branches) : Branches :=
  match bs with
  | [] => []
  | (n, old) :: bs' =>
      if String.eqb name n then (n, c) :: bs' else (n, old) :: set_branch name c bs'
  end.

End Git.
Import Git.

(** The persisted record [.obsidian_sync_state.json]. *)
Record SyncState : Type := mkSyncState {
  last_master_hash : option Commit;
  last_sync_time : option nat
}.

(** The commands the script hands to the shell. *)
Inductive Cmd : Type :=
| git_rev_parse_abbrev_ref_HEAD
| git_fetch_origin_master
| git_rev_parse (ref : string)
| git_branch_a
| git_checkout (branch : string)
| git_pull_origin_master
| git_diff_name_only (base : Commit)          (* git diff --name-only <base> HEAD *)
| find_md                                     (* find . -name '*.md' -not -path './.git/*' *)
| git_checkout_from (branch path : string)    (* git checkout <branch> -- "<path>" *)
| git_add_all
| git_commit (message : string).

(** What the pass did, oldest first.  [Ran c succeeded]: the child process
    was run; it exited with status 0 or, when [succeeded] is [false], with
    another status or was killed at the timeout. *)
Inductive Event : Type :=
| Ran (c : Cmd) (succeeded : bool)
| SavedState (s : SyncState)
| WroteFile (path : string).

(** How a child process may go wrong independently of the modelled state. *)
Inductive Fault : Type :=
| NoFault
| NonZeroExit
| Hang         (* runs past the timeout before it has done its work *)
| HangAfter.   (* does its work, then runs past the timeout (a hook, a pager) *)

Record World : Type := mkWorld {
  git_dir : bool;                     (* Path(".git").exists() *)
  branches : Branches;                (* local branches, in listing order *)
  origin_master : option Commit;      (* the remote-tracking ref origin/master *)
  upstream_master : option Commit;    (* master at the remote *)
  reconcile : Reconcile;              (* how a pull settles diverged histories *)
  HEAD : string;                      (* the branch checked out *)
  worktree : Tree;                    (* files of the working tree *)
  sync_state_file : option SyncState; (* None: the file does not exist *)
  clock : nat;                        (* datetime.now() *)
  faults : list Fault;                (* one entry per child process to come *)
  log : list Event
}.

Definition set_branches (x : Branches) (w : World) : World :=
  mkWorld (git_dir w) x (origin_master w) (upstream_master w) (reconcile w)
          (HEAD w) (worktree w) (sync_state_file w) (clock w) (faults w)
          (log w).

Definition set_origin_master (x : option Commit) (w : World) : World :=
  mkWorld (git_dir w) (branches w) x (upstream_master w) (reconcile w)
          (HEAD w) (worktree w) (sync_state_file w) (clock w) (faults w)
          (log w).

Definition set_HEAD (x : string) (w : World) : World :=
  mkWorld (git_dir w) (branches w) (origin_master w) (upstream_master w)
          (reconcile w) x (worktree w) (sync_state_file w) (clock w)
          (faults w) (log w).

Definition set_worktree (x : Tree) (w : World) : World :=
  mkWorld (git_dir w) (branches w) (origin_master w) (upstream_master w)
          (reconcile w) (HEAD w) x (sync_state_file w) (clock w) (faults w)
          (log w).

Definition set_sync_state_file (x : option SyncState) (w : World) : World :=
  mkWorld (git_dir w) (branches w) (origin_master w) (upstream_master w)
          (reconcile w) (HEAD w) (worktree w) x (clock w) (faults w) (log w).

Definition set_clock (x : nat) (w : World) : World :=
  mkWorld (git_dir w) (branches w) (origin_master w) (upstream_master w)
          (reconcile w) (HEAD w) (worktree w) (sync_state_file w) x (faults w)
          (log w).

Definition set_faults (x : list Fault) (w : World) : World :=
  mkWorld (git_dir w) (branches w) (origin_master w) (upstream_master w)
          (reconcile w) (HEAD w) (worktree w) (sync_state_file w) (clock w) x
          (log w).

Definition record (e : Event) (w : World) : World :=
  mkWorld (git_dir w) (branches w) (origin_master w) (upstream_master w)
          (reconcile w) (HEAD w) (worktree w) (sync_state_file w) (clock w)
          (faults w) (log w ++ [e])%list.

(* ----------------------------------------------------------------- *)
(** *** What each command does to the working copy when it succeeds

    [None] is a non-zero exit status that the modelled state forces. *)

Module Effect.

Definition unlines (ls : list string) : string :=
  String.concat "" (map (fun l => l ++ String Str.newline "") ls).

(** git rev-parse --abbrev-ref HEAD *)
Definition current_branch (w : World) : option (string * World) :=
  Some (HEAD w, w).

(** git fetch origin master *)
Definition fetch (w : World) : option (unit * World) :=
  match upstream_master w with
  | Some r => Some (tt, set_origin_master (Some r) w)
  | None => None
  end.

(** git rev-parse <ref> *)
Definition rev_parse (ref : string) (w : World) : option (Commit * World) :=
  match (if String.eqb ref "origin/master" then origin_master w
         else branch_head ref (branches w)) with
  | Some c => Some (c, w)
  | None => None
  end.

(** git branch -a *)
Definition branch_listing (w : World) : option (string * World) :=
  Some (unlines (app (map (fun b => (if String.eqb (fst b) (HEAD w) then "* " else "  ")
                                      ++ fst b) (branches w))
                     match origin_master w with
                     | Some _ => ["  remotes/origin/master"]
                     | None => []
                     end), w).

(** git checkout <branch>, from a clean working tree: the working tree
    becomes the branch's tree. *)
Definition checkout (b : string) (w : World) : option (unit * World) :=
  match branch_head b (branches w) with
  | Some c => Some (tt, set_worktree (tree_of c) (set_HEAD b w))
  | None => None
  end.

(** The current branch is moved to [c] and its files are checked out. *)
Definition move_to (c : Commit) (w : World) : World :=
  set_worktree (tree_of c) (set_branches (set_branch (HEAD w) c (branches w)) w).

(** git pull origin master: fetch, then bring the current branch up to the
    remote one.  Nothing is to be done when the branch contains the remote
    head; the branch is fast-forwarded when the remote history contains its
    head; histories that have diverged are settled as the repository is
    configured, or the pull is refused. *)
Definition pull (w : World) : option (unit * World) :=
  match upstream_master w, branch_head (HEAD w) (branches w) with
  | Some r, Some cur =>
      let w1 := set_origin_master (Some r) w in
      if is_ancestor r cur then Some (tt, w1)
      else if is_ancestor cur r then Some (tt, move_to r w1)
      else match reconcile w cur r with
           | Some c => Some (tt, move_to c w1)
           | None => None
           end
  | _, _ => None
  end.

(** git diff --name-only <base> HEAD *)
Definition diff (base : Commit) (w : World) : option (string * World) :=
  match branch_head (HEAD w) (branches w) with
  | Some cur => Some (unlines (diff_names (tree_of base) (tree_of cur)), w)
  | None => None
  end.

(** find . -name '*.md' -not -path './.git/*' *)
Definition find (w : World) : option (string * World) :=
  Some (unlines (map (fun p => "./" ++ p)
                   (filter (fun p => Str.endswith ".md" p
                                     && negb (Str.startswith ".git/" p))
                           (map fst (worktree w)))), w).

(** git checkout <branch> -- "<path>", for a path the shell leaves as it
    is: the file is copied from the branch. *)
Definition checkout_from (b p : string) (w : World) : option (unit * World) :=
  match branch_head b (branches w) with
  | Some c =>
      match read_file p (tree_of c) with
      | Some content => Some (tt, set_worktree (write_file p content (worktree w)) w)
      | None => None
      end
  | None => None
  end.

(** git add --all: everything in the working tree is staged, so that the
    commit that follows takes the working tree as it is. *)
Definition add_all (w : World) : option (unit * World) := Some (tt, w).

(** git commit -m <message>: refuses when there is nothing to commit. *)
Definition commit (message : string) (w : World) : option (unit * World) :=
  match branch_head (HEAD w) (branches w) with
  | Some cur =>
      if tree_eqb (tree_of cur) (worktree w) then None
      else Some (tt, set_branches
                       (set_branch (HEAD w) (Next cur (worktree w) message) (branches w)) w)
  | None => None
  end.

End Effect.

(* ----------------------------------------------------------------- *)
(** *** Computations: state passing with Python exceptions *)

Inductive Exn : Type :=
| CalledProcessError (c : Cmd)
| TimeoutExpired (c : Cmd)
| SystemExit (code : nat)
| FileNotFoundError (path : string)
| UnicodeDecodeError (path : string).

Inductive Res (A : Type) : Type :=
| Val (a : A)
| Exc (e : Exn).
Arguments Val {A} a.
Arguments Exc {A} e.

Definition M (A : Type) : Type := World -> Res A * World.

Definition ret {A} (a : A) : M A := fun w => (Val a, w).

Definition raise {A} (e : Exn) : M A := fun w => (Exc e, w).

Definition bind {A B} (m : M A) (f : A -> M B) : M B :=
  fun w =>
    match m w with
    | (Val a, w') => f a w'
    | (Exc e, w') => (Exc e, w')
    end.

Notation "x <- m ;; k" := (bind m (fun x => k))
  (at level 100, m at next level, right associativity).
Notation "m ;; k" := (bind m (fun _ => k))
  (at level 100, right associativity).

(** [sys.exit(code)] *)
Definition sys_exit {A} (code : nat) : M A := raise (SystemExit code).

(** [try: body / except <handled>: handler / finally: final] *)
Definition try_except_finally {A} (body : M A) (handler : Exn -> option (M A))
           (final : M unit) : M A :=
  fun w =>
    let (r, w1) := body w in
    let (r', w2) :=
      match r with
      | Val a => (Val a, w1)
      | Exc e =>
          match handler e with
          | Some h => h w1
          | None => (Exc e, w1)
          end
      end in
    match final w2 with
    | (Val _, w3) => (r', w3)
    | (Exc e, w3) => (Exc e, w3)
    end.

(** The status the interpreter exits with. *)
Definition exit_status {A} (r : Res A) : nat :=
  match r with
  | Val _ => 0
  | Exc (SystemExit code) => code
  | Exc _ => 1
  end.

(* ----------------------------------------------------------------- *)
(** *** [subprocess] *)

Inductive Completed (A : Type) : Type :=
| Done (out : A)
| Failed
| TimedOut.
Arguments Done {A} out.
Arguments Failed {A}.
Arguments TimedOut {A}.

Definition next_fault (w : World) : Fault * World :=
  match faults w with
  | [] => (NoFault, w)
  | f :: fs => (f, set_faults fs w)
  end.

(** One child process.  A process that exits with a non-zero status
    leaves the working copy as it was.  One that runs past the timeout is
    killed at the deadline only: it may have done all of its work by then. *)
Definition spawn {A} (c : Cmd) (timeout : bool)
           (effect : World -> option (A * World)) (w : World) : Completed A * World :=
  let (f, w1) := next_fault w in
  let attempt :=
    match effect w1 with
    | Some (out, w2) => (Done out, record (Ran c true) w2)
    | None => (Failed, record (Ran c false) w1)
    end in
  match f with
  | NoFault => attempt
  | NonZeroExit => (Failed, record (Ran c false) w1)
  | Hang => if timeout then (TimedOut, record (Ran c false) w1) else attempt
  | HangAfter =>
      if timeout
      then match effect w1 with
           | Some (_, w2) => (TimedOut, record (Ran c false) w2)
           | None => (Failed, record (Ran c false) w1)
           end
      else attempt
  end.

(** [subprocess.check_output(cmd, shell=True, timeout=300)] and
    [subprocess.run(cmd, shell=True, timeout=300, check=True)] *)
Definition checked {A} (c : Cmd) (timeout : bool)
           (effect : World -> option (A * World)) : M A :=
  fun w =>
    match spawn c timeout effect w with
    | (Done out, w') => (Val out, w')
    | (Failed, w') => (Exc (CalledProcessError c), w')
    | (TimedOut, w') => (Exc (TimeoutExpired c), w')
    end.

(** [subprocess.run(cmd, shell=True, timeout=300, check=False)] *)
Definition unchecked (c : Cmd) (effect : World -> option (unit * World)) : M unit :=
  fun w =>
    match spawn c true effect w with
    | (TimedOut, w') => (Exc (TimeoutExpired c), w')
    | (_, w') => (Val tt, w')
    end.

(* ================================================================= *)
(** ** The sync orchestrator *)

Definition get_current_branch : M string :=
  checked git_rev_parse_abbrev_ref_HEAD true Effect.current_branch.

Definition get_remote_master_hash : M Commit :=
  checked git_fetch_origin_master true Effect.fetch ;;
  checked (git_rev_parse "origin/master") true (Effect.rev_parse "origin/master").

Definition get_local_master_hash : M Commit :=
  checked (git_rev_parse "master") true (Effect.rev_parse "master").

Definition load_sync_state : M SyncState :=
  fun w =>
    match sync_state_file w with
    | Some s => (Val s, w)
    | None => (Val (mkSyncState None None), w)
    end.

Definition save_sync_state (master_hash : Commit) : M unit :=
  fun w =>
    let sync_state := mkSyncState (Some master_hash) (Some (clock w)) in
    (Val tt, record (SavedState sync_state)
               (set_clock (S (clock w)) (set_sync_state_file (Some sync_state) w))).

Definition has_external_changes : M bool :=
  sync_state <- load_sync_state ;;
  current_master_hash <- get_local_master_hash ;;
  remote_master_hash <- get_remote_master_hash ;;
  if negb (commit_eqb current_master_hash remote_master_hash) then ret true
  else
    match last_master_hash sync_state with
    | None => ret true
    | Some recorded =>
        if negb (commit_eqb current_master_hash recorded) then ret true
        else ret false
    end.

(** The parts of [pathlib.Path] the script relies on. *)
Module Path.

(** [Path(s)] for a repository-relative name: a leading "./" is dropped. *)
Definition of_string (s : string) : string :=
  if Str.startswith "./" s then Str.drop 2 s else s.

Fixpoint rfind (c : ascii) (s : string) : option nat :=
  match s with
  | EmptyString => None
  | String d s' =>
      match rfind c s' with
      | Some i => Some (S i)
      | None => if Ascii.eqb d c then Some 0 else None
      end
  end.

(** [p.name]: the final component. *)
Definition name (p : string) : string :=
  match rfind "/" p with
  | Some i => Str.drop (S i) p
  | None => p
  end.

(** [p.suffix] *)
Definition suffix (p : string) : string :=
  let n := name p in
  match rfind "." n with
  | Some i => if (0 <? i) && (i <? length n - 1) then Str.drop i n else ""
  | None => ""
  end.

(** [p.is_file()] *)
Definition is_file (p : string) (w : World) : bool :=
  match read_file p (worktree w) with
  | Some _ => true
  | None => false
  end.

End Path.

(** [apply_reverse_conversions(file_path)]: rewrites the file when the
    conversion changes its text and reports whether it did.  [read_text]
    decodes the bytes of the file as UTF-8 and unifies the line ends;
    [write_text] writes the text as it is, which is what it does where
    the line separator is [\n]. *)
Definition apply_reverse_conversions (file_path : string) : M bool :=
  fun w =>
    match read_file file_path (worktree w) with
    | None => (Exc (FileNotFoundError file_path), w)
    | Some content =>
        if negb (Str.utf8 content) then (Exc (UnicodeDecodeError file_path), w)
        else
          let original_text := Str.universal_newlines content in
          let newtext := convert_text original_text in
          if negb (String.eqb newtext original_text)
          then (Val true, record (WroteFile file_path)
                            (set_worktree (write_file file_path newtext (worktree w)) w))
          else (Val false, w)
    end.

Definition required_branches : list string := ["obsidian"; "ob_to_gh"; "master"].

(** for branch in required_branches: if branch not in branches: sys.exit(1) *)
Fixpoint require_listed (required : list string) (listing : string) : M unit :=
  match required with
  | [] => ret tt
  | branch :: rest =>
      if negb (Str.contains branch listing) then sys_exit 1
      else require_listed rest listing
  end.

(** Lines 145-156: the repository and its branches. *)
Definition check_repository : M unit :=
  fun w =>
    if negb (git_dir w) then sys_exit 1 w
    else (listing <- checked git_branch_a false Effect.branch_listing ;;
          require_listed required_branches listing) w.

(** Steps 1 and 2 up to the raw list of changed files. *)
Definition changed_files_output : M string :=
  checked (git_checkout "master") true (Effect.checkout "master") ;;
  checked git_pull_origin_master true Effect.pull ;;
  sync_state <- load_sync_state ;;
  out <- match last_master_hash sync_state with
         | Some recorded => checked (git_diff_name_only recorded) true (Effect.diff recorded)
         | None => checked find_md true Effect.find
         end ;;
  ret (Str.strip out).

(** [changed_files] and, of those, [md_files]. *)
Definition changed_files (output : string) : list string :=
  map Path.of_string
      (filter (fun f => negb (String.eqb (Str.strip f) "")) (Str.split Str.newline output)).

Definition md_files_in (output : string) (w : World) : list string :=
  filter (fun f => String.eqb (Path.suffix f) ".md" && Path.is_file f w)
         (changed_files output).

(** Step 4: the loop over [md_files]; yields [converted_files]. *)
Fixpoint convert_files (md_files : list string) : M (list string) :=
  match md_files with
  | [] => ret []
  | md_file :: rest =>
      checked (git_checkout_from "master" md_file) true
              (Effect.checkout_from "master" md_file) ;;
      changed <- apply_reverse_conversions md_file ;;
      converted <- convert_files rest ;;
      ret (if changed then md_file :: converted else converted)
  end.

Definition nat_to_string (n : nat) : string :=
  NilEmpty.string_of_uint (Nat.to_uint n).

Definition commit_msg (converted_files : list string) : string :=
  "Sync from GitHub Wiki: converted " ++ nat_to_string (List.length converted_files)
  ++ " files".

(** Steps 3 to 5: onto the vault branch, convert, commit. *)
Definition convert_and_commit (md_files : list string) : M unit :=
  checked (git_checkout "obsidian") true (Effect.checkout "obsidian") ;;
  converted_files <- convert_files md_files ;;
  match converted_files with
  | [] => ret tt
  | _ :: _ =>
      checked git_add_all true Effect.add_all ;;
      checked (git_commit (commit_msg converted_files)) true
              (Effect.commit (commit_msg converted_files))
  end.

(** Step 6 *)
Definition update_sync_state : M unit :=
  checked (git_checkout "master") true (Effect.checkout "master") ;;
  h <- get_local_master_hash ;;
  save_sync_state h.

(** The two early exits: save_sync_state(get_local_master_hash()); return *)
Definition nothing_to_process : M unit :=
  h <- get_local_master_hash ;;
  save_sync_state h.

(** The body of the [try] block, lines 169-232. *)
Definition reverse_sync : M unit :=
  output <- changed_files_output ;;
  if String.eqb output "" then nothing_to_process
  else
    md_files <- (fun w => (Val (md_files_in output w), w)) ;;
    match md_files with
    | [] => nothing_to_process
    | _ :: _ => convert_and_commit md_files ;; update_sync_state
    end.

(** The [finally] block: back to the branch the run started on. *)
Definition restore_branch (original_branch : string) : M unit :=
  current <- get_current_branch ;;
  if negb (String.eqb original_branch current)
  then unchecked (git_checkout original_branch) (Effect.checkout original_branch)
  else ret tt.

(** except subprocess.CalledProcessError: sys.exit(1) *)
Definition on_git_failure (e : Exn) : option (M unit) :=
  match e with
  | CalledProcessError _ => Some (sys_exit 1)
  | _ => None
  end.

Definition guarded_sync (original_branch : string) : M unit :=
  try_except_finally reverse_sync on_git_failure (restore_branch original_branch).

Definition sync_from_wiki : M unit :=
  check_repository ;;
  drift <- has_external_changes ;;
  if negb drift then ret tt
  else
    original_branch <- get_current_branch ;;
    guarded_sync original_branch.

(* ================================================================= *)
(** ** Vocabulary of the specification *)



(** The published-dialect anchor link [display](#header). *)
Definition anchor_link (display header : string) : string :=
  "[" ++ display ++ "](#" ++ header ++ ")".


(** The vault-dialect page link [[target|display]]. *)
Definition vault_page_link (target display : string) : string :=
  "[[" ++ target ++ "|" ++ display ++ "]]".

(** Modelled from the spec: the forward (vault to wiki) conversion of a page
    link, which is not among the sources.  The specification describes it as
    the mirror of the reverse page-link rule: the two arguments change
    places and the spaces of the target become hyphens. *)
Definition forward_page_link (target display : string) : string :=
  "[[" ++ display ++ "|" ++ Str.replace " " "-" target ++ "]]".

(** The name ends in a recognized image extension, whatever the case of
    its letters: the test of [reverse_image_links]. *)
Definition image_name (name : string) : bool :=
  existsb (fun ext => Str.endswith ext (Str.lower name)) image_extensions.

(** The vault-dialect image embed ![[name]]. *)
Definition vault_image_embed (name : string) : string := "![[" ++ name ++ "]]".

(** Modelled from the spec: the forward conversion of an image embed, the
    mirror of the image-embed reversal, which puts a [!] in front of the
    brackets: the [!] is dropped. *)
Definition forward_image_embed (name : string) : string := "[[" ++ name ++ "]]".

(** A link argument the patterns can capture: not empty, no [|], no []]. *)
Definition link_argument (s : string) : Prop :=
  s <> "" /\ Str.mem "|" s = false /\ Str.mem "]" s = false.

(** The published-dialect page link [[display|target]]. *)
Definition wiki_page_link (display target : string) : string :=
  "[[" ++ display ++ "|" ++ target ++ "]]".

(** The revision recorded at the last sync, if any. *)
Definition recorded_revision (w : World) : option Commit :=
  match sync_state_file w with
  | Some s => last_master_hash s
  | None => None
  end.

(** The run up to the [try] block: the checks, the drift test and, when
    drift is detected, the branch to return to. *)
Definition begin_pass : M (option string) :=
  check_repository ;;
  drift <- has_external_changes ;;
  if negb drift then ret None
  else
    original_branch <- get_current_branch ;;
    ret (Some original_branch).

(** Kinds of events. *)
Definition is_checkout (e : Event) : bool :=
  match e with
  | Ran (git_checkout _) _ => true
  | _ => false
  end.

Definition is_checkout_of (b : string) (e : Event) : bool :=
  match e with
  | Ran (git_checkout b') _ => String.eqb b' b
  | _ => false
  end.

Definition is_commit (e : Event) : bool :=
  match e with
  | Ran (git_commit _) _ => true
  | _ => false
  end.

Definition is_state_write (e : Event) : bool :=
  match e with
  | SavedState _ => true
  | _ => false
  end.

(** Events that leave branches, working tree and state file alone. *)
Definition is_read_only (e : Event) : bool :=
  match e with
  | Ran git_rev_parse_abbrev_ref_HEAD _
  | Ran git_fetch_origin_master _
  | Ran (git_rev_parse _) _
  | Ran git_branch_a _ => true
  | _ => false
  end.

(** A version-control operation fails or times out, raising [e], while
    the pass is Syncing or Committing: in steps 1 and 2, on the way out
    when nothing is to be processed, or in steps 3 to 5. *)
Definition fails_before_finalizing (e : Exn) (w : World) : Prop :=
  (exists w1, changed_files_output w = (Exc e, w1))
  \/ (exists output w1 w2,
         changed_files_output w = (Val output, w1)
         /\ md_files_in output w1 = []
         /\ nothing_to_process w1 = (Exc e, w2))
  \/ (exists output w1 w2,
         changed_files_output w = (Val output, w1)
         /\ md_files_in output w1 <> []
         /\ convert_and_commit (md_files_in output w1) w1 = (Exc e, w2)).

(* ----------------------------------------------------------------- *)
(** *** Footprints: what part of a run may change *)

(** [f] reads the same after as before. *)
Definition keeps {X} (f : World -> X) (w w' : World) : Prop := f w' = f w.

(** The log only grew, and by events that satisfy [ok]. *)
Definition logs (ok : Event -> bool) (w w' : World) : Prop :=
  exists evs, log w' = (log w ++ evs)%list /\ forallb ok evs = true.

(** A relation every stretch of a run can be checked against: it composes
    and is blind to the consumption of pending faults. *)
Record Footprint (R : World -> World -> Prop) : Prop := mkFootprint {
  fp_refl : forall w, R w w;
  fp_trans : forall a b c, R a b -> R b c -> R a c;
  fp_fault : forall w, R w (snd (next_fault w))
}.

(** Whatever [m] returns or raises, it stays within [R]. *)
Definition respects {A} (R : World -> World -> Prop) (m : M A) : Prop :=
  forall w, R w (snd (m w)).

(** Nothing but look-ups: branches, working tree, branch pointer and
    state file stay exactly as they were. *)
Definition read_only (w w' : World) : Prop :=
  keeps HEAD w w' /\ keeps branches w w' /\ keeps worktree w w'
  /\ keeps sync_state_file w w' /\ keeps upstream_master w w'
  /\ logs is_read_only w w'.

(** A [git commit] that exited with status 0. *)
Definition made_commit (e : Event) : bool :=
  match e with
  | Ran (git_commit _) true => true
  | _ => false
  end.

(** No attempt to commit, and no checkout except of the published branch
    and of [original_branch]. *)
Definition off_vault (original_branch : string) (e : Event) : bool :=
  negb (is_commit e)
  && (negb (is_checkout e) || is_checkout_of "master" e
      || is_checkout_of original_branch e).

(** What the [finally] block may do: look up the current branch and
    check out [original_branch]. *)
Definition restoring (original_branch : string) (w w' : World) : Prop :=
  keeps branches w w' /\ keeps sync_state_file w w' /\ keeps upstream_master w w'
  /\ logs (fun e => is_read_only e || is_checkout_of original_branch e) w w'.

(** An exception other than [SystemExit]. *)
Definition is_error (e : Exn) : Prop :=
  match e with
  | SystemExit _ => False
  | _ => True
  end.

(** [m] raises nothing but errors. *)
Definition raises_errors {A} (m : M A) : Prop :=
  forall w e w', m w = (Exc e, w') -> is_error e.

(* ----------------------------------------------------------------- *)
(** *** Sample repositories *)

Module Sample.

Definition wiki_v1 : Tree :=
  [("Home.md", "see [[Setup Guide|Setup-Guide]]"); ("pic.png", "PNG")].

Definition wiki_v2 : Tree :=
  [("Home.md", "see [[Setup|Setup-Guide]] and [[diagram.png]]"); ("pic.png", "PNG")].


Definition vault_v1 : Tree :=
  [("Home.md", "see [[Setup Guide|Setup Guide]]"); ("pic.png", "PNG")].

Definition m1 : Commit := Root wiki_v1.
Definition m2 : Commit := Next m1 wiki_v2 "wiki edit".
Definition v1 : Commit := Root vault_v1.

Definition synced_at (c : Commit) : option SyncState :=
  Some (mkSyncState (Some c) (Some 0)).

(** Everything in step: nothing to do. *)
Definition in_sync : World :=
  mkWorld true [("master", m1); ("ob_to_gh", m1); ("obsidian", v1)]
          (Some m1) (Some m1) fast_forward_only "obsidian" vault_v1 (synced_at m1) 1 [] [].

(** The wiki was edited on the remote since the last sync. *)
Definition wiki_edited : World :=
  mkWorld true [("master", m1); ("ob_to_gh", m1); ("obsidian", v1)]
          (Some m1) (Some m2) fast_forward_only "obsidian" vault_v1 (synced_at m1) 1 [] [].

(** As [wiki_edited], but [git commit], the twelfth child process of the
    run, exits with a non-zero status. *)
Definition commit_refused : World :=
  mkWorld true [("master", m1); ("ob_to_gh", m1); ("obsidian", v1)]
          (Some m1) (Some m2) fast_forward_only "obsidian" vault_v1 (synced_at m1) 1
          (repeat NoFault 11 ++ [NonZeroExit])%list [].

(** As [wiki_edited], but [git commit] writes the commit and then runs
    past its timeout. *)
Definition commit_hangs_late : World :=
  mkWorld true [("master", m1); ("ob_to_gh", m1); ("obsidian", v1)]
          (Some m1) (Some m2) fast_forward_only "obsidian" vault_v1 (synced_at m1) 1
          (repeat NoFault 11 ++ [HangAfter])%list [].


(** Never synced, and local master carries a commit the remote lacks. *)
Definition local_ahead : World :=
  mkWorld true [("master", m2); ("ob_to_gh", m1); ("obsidian", v1)]
          (Some m1) (Some m1) fast_forward_only "obsidian" vault_v1 None 1 [] [].

(** No branch [ob_to_gh], only [ob_to_gh_backup]. *)
Definition tracking_branch_missing : World :=
  mkWorld true [("master", m1); ("ob_to_gh_backup", m1); ("obsidian", v1)]
          (Some m1) (Some m2) fast_forward_only "obsidian" vault_v1 (synced_at m1) 1 [] [].

End Sample.

(* ----------------------------------------------------------------- *)
(** *** Further vocabulary *)

(** Every text the pattern matches contains the character [x]. *)
Fixpoint needs (x : ascii) (r : regex) : bool :=
  match r with
  | Atom (Lit c) => Ascii.eqb c x
  | Plus (Lit c) => Ascii.eqb c x
  | Word w => Str.mem x w
  | Seq r1 r2 => needs x r1 || needs x r2
  | Alt r1 r2 => needs x r1 && needs x r2
  | Group _ r' => needs x r'
  | _ => false
  end.

(** The literal text a pattern ends with, when it ends with one. *)
Fixpoint last_word (r : regex) : option string :=
  match r with
  | Word w => Some w
  | Seq _ r2 => last_word r2
  | Group _ r' => last_word r'
  | _ => None
  end.

(** [t] is what remains of [s] behind some of its characters. *)
Definition suffix_of (t s : string) : Prop := exists w, s = w ++ t.

(** [s] has no []] except at its very end, where it has at most two. *)
Fixpoint brackets_at_end (s : string) : bool :=
  match s with
  | EmptyString => true
  | String c s' =>
      if Ascii.eqb c "]" then String.eqb s' "]" || String.eqb s' ""
      else brackets_at_end s'
  end.

(** The published-dialect image link [[name.ext]]. *)
Definition image_link (name ext : string) : string := "[[" ++ name ++ ext ++ "]]".


(** The text [git branch -a] prints. *)
Definition branch_listing_text (w : World) : string :=
  match Effect.branch_listing w with
  | Some (listing, _) => listing
  | None => ""
  end.

(** Diverged histories are merged or left alone, never rebased: what a
    pull makes of them has the head of the branch among its ancestors. *)
Definition merges (r : Reconcile) : Prop :=
  forall ours theirs c, r ours theirs = Some c -> is_ancestor ours c = true.

(** Every branch is still there, and the head it had is an ancestor of the
    head it has. *)
Definition history_kept (w w' : World) : Prop :=
  merges (reconcile w) ->
  reconcile w' = reconcile w
  /\ forall b c, branch_head b (branches w) = Some c ->
     exists c', branch_head b (branches w') = Some c' /\ is_ancestor c c' = true.

(** The working copy is on the published or on the vault branch. *)
Definition on_sync_branch (w : World) : Prop :=
  HEAD w = "master" \/ HEAD w = "obsidian".

(** Once on one of the two branches the run stays on them, and the
    branches it does not work on stay as they are. *)
Definition within_sync_branches (w w' : World) : Prop :=
  on_sync_branch w ->
  on_sync_branch w'
  /\ forall b, b <> "master" -> b <> "obsidian" ->
      branch_head b (branches w') = branch_head b (branches w).

(** Starting on branch [n]: still on it, and no other branch has moved. *)
Definition only_on (n : string) (w w' : World) : Prop :=
  HEAD w = n ->
  HEAD w' = n
  /\ forall b, b <> n -> branch_head b (branches w') = branch_head b (branches w).

(** Where a pull may leave the published branch: where it was, where the
    remote's is, or where the two were reconciled. *)
Definition pulled (w w' : World) : Prop :=
  branch_head "master" (branches w') = branch_head "master" (branches w)
  \/ branch_head "master" (branches w') = upstream_master w
  \/ exists ours theirs c,
       branch_head "master" (branches w) = Some ours
       /\ upstream_master w = Some theirs
       /\ reconcile w ours theirs = Some c
       /\ branch_head "master" (branches w') = Some c.

(** A name as a listing prints it on a line of its own: not empty, no
    line break inside, no blank at either end. *)
Definition path_like (n : string) : Prop :=
  n <> "" /\ Str.mem Str.newline n = false /\ Str.lstrip n = n /\ Str.rstrip n = n.

(** The lines of a listing without the final line break. *)
Fixpoint join_lines (ls : list string) : string :=
  match ls with
  | [] => ""
  | [l] => l
  | l :: rest => l ++ String Str.newline (join_lines rest)
  end.

(** Further sample repositories. *)
Module Cases.

(** No branch whose name contains [ob_to_gh]. *)
Definition no_tracking_branch : World :=
  mkWorld true [("master", Sample.m1); ("obsidian", Sample.v1)]
          (Some Sample.m1) (Some Sample.m2) fast_forward_only "obsidian" Sample.vault_v1
          (Sample.synced_at Sample.m1) 1 [] [].

(** Local master and the remote's have each a commit of their own. *)
Definition wiki_local : Tree :=
  [("Home.md", "see [[Setup Guide|Setup-Guide]]"); ("pic.png", "PNG"); ("Notes.md", "todo")].

Definition m1_local : Commit := Next Sample.m1 wiki_local "local edit".

Definition diverged (how : Reconcile) : World :=
  mkWorld true [("master", m1_local); ("ob_to_gh", Sample.m1); ("obsidian", Sample.v1)]
          (Some Sample.m1) (Some Sample.m2) how "obsidian" Sample.vault_v1
          (Sample.synced_at Sample.m1) 1 [] [].

End Cases.

(* ================================================================= *)
(** ** The setup script: [create_gitignore]

    From [setup-bidirectional-sync.py].  The file [.gitignore] is its
    text, or [None] when it does not exist; [read_text] and [open] may
    raise, which the function catches and reports by returning [False]. *)

Module Setup.

Inductive IOFault : Type :=
| IONoFault
| ReadFails     (* gitignore_path.read_text() raises *)
| AppendFails.  (* open(gitignore_path, 'a') raises *)

Definition gitignore_entries : list string :=
  ["# Obsidian-GitHub Wiki Sync"; ".obsidian_sync_state.json"; "*.tmp"; ".DS_Store"].

(** for entry in gitignore_entries[1:]: if entry not in existing_content *)
Definition needs_update (existing_content : string) : bool :=
  existsb (fun entry => negb (Str.contains entry existing_content)) (tl gitignore_entries).

(** What the [with open(gitignore_path, 'a')] block writes. *)
Definition appended : string :=
  String Str.newline "" ++ Effect.unlines gitignore_entries.

(** The value returned and the file afterwards. *)
Definition create_gitignore (fault : IOFault) (gitignore : option string)
  : bool * option string :=
  match gitignore, fault with
  | Some _, ReadFails => (false, gitignore)
  | _, _ =>
      let existing_content := match gitignore with
                              | Some content => content
                              | None => ""
                              end in
      if needs_update existing_content
      then match fault with
           | AppendFails => (false, gitignore)
           | _ => (true, Some (existing_content ++ appended))
           end
      else (true, gitignore)
  end.

(** The text of the file, empty when there is none. *)
Definition content_of (gitignore : option string) : string :=
  match gitignore with
  | Some content => content
  | None => ""
  end.

End Setup.
(* ================================================================= *)
(** * Properties *)

(** ** Strings *)

Lemma length_app (u v : string) : length (u ++ v) = length u + length v.
Proof. induction u as [|c u IH]; simpl; [reflexivity | now rewrite IH]. Qed.

Lemma app_assoc (u v w : string) : (u ++ v) ++ w = u ++ (v ++ w).
Proof. induction u as [|c u IH]; simpl; [reflexivity | now rewrite IH]. Qed.

Lemma app_empty_r (u : string) : u ++ "" = u.
Proof. induction u as [|c u IH]; simpl; [reflexivity | now rewrite IH]. Qed.

Lemma take_app (u v : string) : Str.take (length u) (u ++ v) = u.
Proof. induction u as [|c u IH]; simpl; [now destruct v | now rewrite IH]. Qed.

Lemma taken_app (u v : string) : taken (u ++ v) v = u.
Proof.
  unfold taken. rewrite length_app.
  replace (length u + length v - length v) with (length u) by lia.
  apply take_app.
Qed.

Lemma taken_cons (c : ascii) (u v : string) : taken (String c (u ++ v)) v = String c u.
Proof. exact (taken_app (String c u) v). Qed.

(** ** The matcher *)

Section MatcherFacts.
Variable ic : bool.
Context {R : Type}.

(** A greedy repetition that can stop after [v] can stop there after
    consuming any accepted run in front of it. *)
Lemma greedy_app_some (a : atom) (u v : string) (k : string -> option R) (r : R) :
  Str.all (accepts ic a) u = true ->
  greedy ic a v k = Some r ->
  greedy ic a (u ++ v) k = Some r.
Proof.
  induction u as [|c u IH]; simpl; intros Hall Hv; [exact Hv|].
  apply andb_true_iff in Hall as [Hc Hu].
  rewrite Hc, (IH Hu Hv). reflexivity.
Qed.

Lemma greedy_rejected (a : atom) (c : ascii) (s : string) (k : string -> option R) :
  accepts ic a c = false ->
  greedy ic a (String c s) k = k (String c s).
Proof. intros H. simpl. now rewrite H. Qed.

Lemma literal_app (w s : string) (k : string -> option R) :
  ic = false -> literal ic w (w ++ s) k = k s.
Proof.
  intros ->. induction w as [|d w IH]; simpl; [reflexivity|].
  unfold char_eq. now rewrite Ascii.eqb_refl.
Qed.

End MatcherFacts.

Lemma all_none_of_1 (x : ascii) (s : string) :
  Str.mem x s = false ->
  Str.all (accepts false (NoneOf (String x ""))) s = true.
Proof.
  induction s as [|c s IH]; simpl; [reflexivity|].
  intros H. apply orb_false_iff in H as [Hc Hs].
  unfold char_eq. rewrite Ascii.eqb_sym, Hc. simpl. auto.
Qed.

Lemma all_none_of_2 (x y : ascii) (s : string) :
  Str.mem x s = false -> Str.mem y s = false ->
  Str.all (accepts false (NoneOf (String x (String y "")))) s = true.
Proof.
  induction s as [|c s IH]; simpl; [reflexivity|].
  intros H1 H2. apply orb_false_iff in H1 as [Hc1 Hs1].
  apply orb_false_iff in H2 as [Hc2 Hs2].
  unfold char_eq. rewrite (Ascii.eqb_sym c x), Hc1, (Ascii.eqb_sym c y), Hc2.
  simpl. auto.
Qed.

(** ** Substitution *)

Lemma sub_scan_skip ic r repl (u v : string) :
  sub_scan ic r repl (u ++ v) (length u) = sub_scan ic r repl v 0.
Proof. induction u as [|c u IH]; simpl; [reflexivity | exact IH]. Qed.

(** A non-empty match at the head is replaced and the scan resumes behind it. *)
Lemma sub_scan_match ic r repl (m : Match) (c : ascii) (u v : string) :
  match_at ic r (String c (u ++ v)) = Some m ->
  whole m = String c u ->
  sub_scan ic r repl (String c (u ++ v)) 0 = repl m ++ sub_scan ic r repl v 0.
Proof.
  intros Hm Hw. cbn [sub_scan]. rewrite Hm, Hw. cbn [length].
  now rewrite sub_scan_skip.
Qed.

Lemma sub_scan_no_match ic r repl (c : ascii) (s : string) :
  match_at ic r (String c s) = None ->
  sub_scan ic r repl (String c s) 0 = String c (sub_scan ic r repl s 0).
Proof. intros Hm. cbn [sub_scan]. now rewrite Hm. Qed.

(** ** Header links *)

Lemma anchor_link_text (D H post : string) :
  anchor_link D H ++ post = String "[" (D ++ "](#" ++ H ++ String ")" post).
Proof.
  unfold anchor_link. simpl. f_equal. rewrite app_assoc. simpl. 
  do 4 f_equal. rewrite app_assoc. reflexivity.
Qed.

Lemma header_match (d h : ascii) (D H post : string) :
  Str.mem "]" (String d D) = false ->
  Str.mem ")" (String h H) = false ->
  match_at false header_link_re (anchor_link (String d D) (String h H) ++ post)
  = Some (mkMatch (anchor_link (String d D) (String h H))
                  [(2, String h H); (1, String d D)]).
Proof.
  intros HD HH.
  pose proof (all_none_of_1 _ _ HD) as AD.
  pose proof (all_none_of_1 _ _ HH) as AH.
  cbn [Str.all] in AD, AH.
  apply andb_true_iff in AD as [Ad AD], AH as [Ah AH].
  rewrite anchor_link_text.
  unfold match_at, header_link_re.
  cbn [run append].
  replace (accepts false (Lit "[") "[") with true by reflexivity.
  rewrite Ad.
  erewrite greedy_app_some; [ | exact AD | ].
  2:{ rewrite greedy_rejected by reflexivity.
      cbn [literal append char_eq]. rewrite !Ascii.eqb_refl.
      rewrite Ah.
      erewrite greedy_app_some; [ reflexivity | exact AH | ].
      rewrite greedy_rejected by reflexivity.
      replace (accepts false (Lit ")") ")") with true by reflexivity.
      reflexivity. }
  f_equal. f_equal.
  - etransitivity; [ | apply (taken_app (anchor_link (String d D) (String h H)) post) ].
    f_equal. symmetry. apply anchor_link_text.
  - f_equal.
    + f_equal. exact (taken_app (String h H) (String ")" post)).
    + f_equal. f_equal.
      exact (taken_app (String d D) ("](#" ++ String h H ++ String ")" post)).
Qed.

(** The scan copies text in which no match can begin. *)
Lemma header_scan_plain (pre s : string) :
  Str.mem "[" pre = false ->
  header_link_pass (pre ++ s) = pre ++ header_link_pass s.
Proof.
  unfold header_link_pass, sub.
  induction pre as [|c pre IH]; intros Hpre; [reflexivity|].
  cbn [Str.mem] in Hpre. apply orb_false_iff in Hpre as [Hc Hpre].
  cbn [append]. rewrite sub_scan_no_match.
  - now rewrite IH.
  - unfold match_at, header_link_re. cbn [run accepts char_eq].
    rewrite Ascii.eqb_sym, Hc. reflexivity.
Qed.

Lemma header_link_pass_at (pre display header post : string) :
  Str.mem "[" pre = false ->
  display <> "" -> Str.mem "]" display = false ->
  header <> "" -> Str.mem ")" header = false ->
  header_link_pass (pre ++ anchor_link display header ++ post)
  = pre ++ "[[#" ++ Str.title (Str.replace "-" " " header) ++ "|" ++ display ++ "]]"
        ++ header_link_pass post.
Proof.
  intros Hpre Hd HD Hh HH.
  destruct display as [|d D]; [congruence|].
  destruct header as [|h H]; [congruence|].
  rewrite header_scan_plain by exact Hpre. f_equal.
  unfold header_link_pass, sub.
  pose proof (header_match d h D H post HD HH) as Hm.
  etransitivity.
  - exact (sub_scan_match false header_link_re reverse_header_links _ "["
             (String d D ++ "](#" ++ String h H ++ ")") post Hm eq_refl).
  - unfold reverse_header_links. cbn [group caps lookup Nat.eqb text].
    rewrite !app_assoc. reflexivity.
Qed.




(** ** Page links *)

Lemma wiki_page_link_text (D T post : string) :
  wiki_page_link D T ++ post = String "[" (String "[" (D ++ String "|" (T ++ String "]" (String "]" post)))).
Proof.
  unfold wiki_page_link. simpl. do 2 f_equal. rewrite app_assoc. simpl.
  do 2 f_equal. rewrite app_assoc. reflexivity.
Qed.

Lemma page_match (d t : ascii) (D T post : string) :
  d <> "["%char ->
  Str.mem "|" (String d D) = false -> Str.mem "]" (String d D) = false ->
  Str.mem "|" (String t T) = false -> Str.mem "]" (String t T) = false ->
  match_at false page_link_re (wiki_page_link (String d D) (String t T) ++ post)
  = Some (mkMatch (wiki_page_link (String d D) (String t T))
                  [(3, String t T); (2, String d D); (1, "")]).
Proof.
  intros Hd HD1 HD2 HT1 HT2.
  pose proof (all_none_of_2 _ _ _ HD1 HD2) as AD.
  pose proof (all_none_of_2 _ _ _ HT1 HT2) as AT.
  cbn [Str.all] in AD, AT.
  apply andb_true_iff in AD as [Ad AD], AT as [At AT].
  rewrite wiki_page_link_text.
  unfold match_at, page_link_re.
  cbn [run append].
  replace (accepts false (NoneOf "!") "[") with true by reflexivity.
  cbn [literal char_eq]. rewrite Ascii.eqb_refl.
  replace (Ascii.eqb d "[") with false by (symmetry; now apply Ascii.eqb_neq).
  rewrite Ad.
  erewrite greedy_app_some; [ | exact AD | ].
  2:{ rewrite greedy_rejected by reflexivity.
      replace (accepts false (Lit "|") "|") with true by reflexivity.
      rewrite At.
      erewrite greedy_app_some; [ reflexivity | exact AT | ].
      rewrite greedy_rejected by reflexivity.
      cbn [literal char_eq]. rewrite !Ascii.eqb_refl. reflexivity. }
  f_equal. f_equal.
  - etransitivity; [ | apply (taken_app (wiki_page_link (String d D) (String t T)) post) ].
    f_equal. symmetry. apply wiki_page_link_text.
  - f_equal; [ | f_equal ].
    + f_equal. exact (taken_app (String t T) (String "]" (String "]" post))).
    + f_equal.
      exact (taken_app (String d D) (String "|" (String t T ++ String "]" (String "]" post)))).
    + f_equal. f_equal. unfold taken. now rewrite Nat.sub_diag.
Qed.

Lemma page_link_rewritten (display target post : string) :
  link_argument display -> Str.startswith "[" display = false ->
  link_argument target ->
  page_link_pass (wiki_page_link display target ++ post)
  = "[[" ++ Str.replace "-" " " target ++ "|" ++ display ++ "]]" ++ page_link_pass post.
Proof.
  intros (Hd & HD1 & HD2) Hs (Ht & HT1 & HT2).
  destruct display as [|d D]; [congruence|].
  destruct target as [|t T]; [congruence|].
  assert (Hd' : d <> "["%char).
  { intros ->. discriminate Hs. }
  pose proof (page_match d t D T post Hd' HD1 HD2 HT1 HT2) as Hm.
  unfold page_link_pass, sub.
  etransitivity.
  - exact (sub_scan_match false page_link_re reverse_page_links _ "["
             ("[" ++ String d D ++ "|" ++ String t T ++ "]]") post Hm eq_refl).
  - unfold reverse_page_links. cbn [group caps lookup Nat.eqb text or_empty].
    unfold reverse_page_links in *.
    repeat (progress (cbn [append]; rewrite ?app_assoc)). reflexivity.
Qed.

Lemma replace_mem (a b x : ascii) (s : string) :
  x <> b -> Str.mem x s = false -> Str.mem x (Str.replace a b s) = false.
Proof.
  intros Hx. induction s as [|c s IH]; simpl; [reflexivity|].
  intros H. apply orb_false_iff in H as [Hc Hs]. rewrite (IH Hs).
  destruct (Ascii.eqb c a); [ | now rewrite Hc ].
  apply orb_false_iff; split; [ now apply Ascii.eqb_neq | reflexivity ].
Qed.

Lemma replace_back (a b : ascii) (s : string) :
  Str.mem b s = false -> Str.replace b a (Str.replace a b s) = s.
Proof.
  induction s as [|c s IH]; simpl; [reflexivity|].
  intros H. apply orb_false_iff in H as [Hc Hs]. rewrite (IH Hs). f_equal.
  destruct (Ascii.eqb c a) eqn:E.
  - rewrite Ascii.eqb_refl. symmetry. now apply Ascii.eqb_eq.
  - rewrite Ascii.eqb_sym, Hc. reflexivity.
Qed.

Lemma replace_link_argument (a b : ascii) (s : string) :
  b <> "|"%char -> b <> "]"%char ->
  link_argument s -> link_argument (Str.replace a b s).
Proof.
  intros H1 H2 (Hs & Hp & Hb). repeat split.
  - destruct s; [congruence | discriminate].
  - apply replace_mem; auto.
  - apply replace_mem; auto.
Qed.

Lemma page_link_pass_inverts_forward (target display : string) :
  link_argument target -> link_argument display ->
  Str.startswith "[" display = false ->
  Str.mem "-" target = false ->
  page_link_pass (forward_page_link target display) = vault_page_link target display.
Proof.
  intros Ht Hd Hs Hy.
  pose proof (page_link_rewritten display (Str.replace " " "-" target) ""
                Hd Hs (replace_link_argument " " "-" target ltac:(discriminate)
                         ltac:(discriminate) Ht)) as H.
  rewrite replace_back in H by exact Hy.
  unfold forward_page_link, vault_page_link.
  unfold wiki_page_link in H. rewrite app_empty_r in H. rewrite H.
  change (page_link_pass "") with "".
  repeat (progress (cbn [append]; rewrite ?app_assoc)). reflexivity.
Qed.

(* ================================================================= *)
(** * The orchestrator *)

(** ** Revisions *)

Lemma tree_eqb_eq (a b : Tree) : tree_eqb a b = true <-> a = b.
Proof.
  revert b. induction a as [|[p x] a IH]; intros [|[q y] b]; simpl;
    try (split; [discriminate | congruence]); [tauto|].
  rewrite !andb_true_iff, !String.eqb_eq, IH. split.
  - intros [[-> ->] ->]. reflexivity.
  - intros E. injection E as -> -> ->. auto.
Qed.

Lemma commit_eqb_eq (a b : Commit) : commit_eqb a b = true <-> a = b.
Proof.
  revert b.
  induction a as [s | p IH s m | p1 IH1 p2 IH2 s m]; intros [t | q t n | q1 q2 t n]; simpl;
    try (split; [discriminate | congruence]).
  - rewrite tree_eqb_eq. split; [now intros -> | congruence].
  - rewrite !andb_true_iff, IH, tree_eqb_eq, String.eqb_eq. split.
    + intros [[-> ->] ->]. reflexivity.
    + intros E. injection E as -> -> ->. auto.
  - rewrite !andb_true_iff, IH1, IH2, tree_eqb_eq, String.eqb_eq. split.
    + intros [[[-> ->] ->] ->]. reflexivity.
    + intros E. injection E as -> -> -> ->. auto.
Qed.

Lemma commit_eqb_refl (a : Commit) : commit_eqb a a = true.
Proof. now apply commit_eqb_eq. Qed.

(** ** Child processes *)

Lemma next_fault_same (w : World) :
  let w0 := snd (next_fault w) in
  git_dir w0 = git_dir w /\ branches w0 = branches w
  /\ origin_master w0 = origin_master w /\ upstream_master w0 = upstream_master w
  /\ HEAD w0 = HEAD w /\ worktree w0 = worktree w
  /\ sync_state_file w0 = sync_state_file w /\ clock w0 = clock w /\ log w0 = log w
  /\ reconcile w0 = reconcile w.
Proof. unfold next_fault. destruct (faults w); simpl; repeat split. Qed.

Lemma nf_branches w : branches (snd (next_fault w)) = branches w.
Proof. apply next_fault_same. Qed.
Lemma nf_origin_master w : origin_master (snd (next_fault w)) = origin_master w.
Proof. apply next_fault_same. Qed.
Lemma nf_upstream_master w : upstream_master (snd (next_fault w)) = upstream_master w.
Proof. apply next_fault_same. Qed.
Lemma nf_HEAD w : HEAD (snd (next_fault w)) = HEAD w.
Proof. apply next_fault_same. Qed.
Lemma nf_worktree w : worktree (snd (next_fault w)) = worktree w.
Proof. apply next_fault_same. Qed.
Lemma nf_sync_state_file w : sync_state_file (snd (next_fault w)) = sync_state_file w.
Proof. apply next_fault_same. Qed.
Lemma nf_clock w : clock (snd (next_fault w)) = clock w.
Proof. apply next_fault_same. Qed.
Lemma nf_log w : log (snd (next_fault w)) = log w.
Proof. apply next_fault_same. Qed.
Lemma nf_reconcile w : reconcile (snd (next_fault w)) = reconcile w.
Proof. apply next_fault_same. Qed.

Create Rewrite HintDb world.
#[local] Hint Rewrite nf_branches nf_origin_master nf_upstream_master nf_HEAD
  nf_worktree nf_sync_state_file nf_clock nf_log nf_reconcile : world.

(** A checked command that returns ran its effect and logged a success. *)
Lemma checked_val {A} (c : Cmd) (t : bool) (eff : World -> option (A * World))
      (w w' : World) (a : A) :
  checked c t eff w = (Val a, w') ->
  exists w1, eff (snd (next_fault w)) = Some (a, w1) /\ w' = record (Ran c true) w1.
Proof.
  unfold checked, spawn. destruct (next_fault w) as [f w0]. simpl.
  destruct (eff w0) as [[out w1]|] eqn:E;
    destruct f, t; intros H; inversion H; subst; eauto.
Qed.

(** One that raises logged a failure; the working copy is as it was,
    unless the command did its work and then ran past the timeout. *)
Lemma checked_exc {A} (c : Cmd) (t : bool) (eff : World -> option (A * World))
      (w w' : World) (e : Exn) :
  checked c t eff w = (Exc e, w') ->
  (w' = record (Ran c false) (snd (next_fault w))
   /\ (e = CalledProcessError c \/ e = TimeoutExpired c))
  \/ (exists a w1, eff (snd (next_fault w)) = Some (a, w1)
                   /\ w' = record (Ran c false) w1 /\ e = TimeoutExpired c).
Proof.
  unfold checked, spawn. destruct (next_fault w) as [f w0]. simpl.
  destruct (eff w0) as [[out w1]|] eqn:E;
    destruct f, t; intros H; inversion H; subst; eauto 6.
Qed.

Lemma checked_exc_kind {A} (c : Cmd) (t : bool) (eff : World -> option (A * World))
      (w w' : World) (e : Exn) :
  checked c t eff w = (Exc e, w') -> e = CalledProcessError c \/ e = TimeoutExpired c.
Proof.
  intros H. apply checked_exc in H as [(_ & H) | (a & w1 & _ & _ & H)]; auto.
Qed.

Lemma unchecked_inv (c : Cmd) (eff : World -> option (unit * World))
      (w w' : World) (r : Res unit) :
  unchecked c eff w = (r, w') ->
  (r = Val tt \/ r = Exc (TimeoutExpired c))
  /\ ((exists w1 ok, eff (snd (next_fault w)) = Some (tt, w1) /\ w' = record (Ran c ok) w1)
      \/ w' = record (Ran c false) (snd (next_fault w))).
Proof.
  unfold unchecked, spawn. destruct (next_fault w) as [f w0]. simpl.
  destruct (eff w0) as [[[] w1]|] eqn:E;
    destruct f; intros H; inversion H; subst;
      (split; [ auto | first [ left; eexists; eexists; split; reflexivity
                             | right; reflexivity ] ]).
Qed.


(** ** Footprints *)

Lemma footprint_keeps {X} (f : World -> X) :
  (forall w, f (snd (next_fault w)) = f w) -> Footprint (keeps f).
Proof.
  intros Hf. split; unfold keeps.
  - reflexivity.
  - intros a b c H1 H2. now rewrite H2.
  - exact Hf.
Qed.

Lemma footprint_logs (ok : Event -> bool) : Footprint (logs ok).
Proof.
  split; unfold logs.
  - intros w. exists []. now rewrite app_nil_r.
  - intros a b c (e1 & H1 & O1) (e2 & H2 & O2). exists (e1 ++ e2)%list.
    rewrite H2, H1, <- List.app_assoc, forallb_app, O1, O2. auto.
  - intros w. exists []. rewrite app_nil_r. split; [ apply next_fault_same | reflexivity ].
Qed.

Lemma footprint_and (R S : World -> World -> Prop) :
  Footprint R -> Footprint S -> Footprint (fun w w' => R w w' /\ S w w').
Proof.
  intros [r1 t1 f1] [r2 t2 f2]. split.
  - split; auto.
  - intros a b c [] []. split; eauto.
  - split; auto.
Qed.

Section Respects.
Variable R : World -> World -> Prop.
Hypothesis FR : Footprint R.

Lemma respects_ret {A} (a : A) : respects R (ret a).
Proof. intros w. apply FR. Qed.

Lemma respects_raise {A} (e : Exn) : respects R (@raise A e).
Proof. intros w. apply FR. Qed.

Lemma respects_bind {A B} (m : M A) (f : A -> M B) :
  respects R m -> (forall a, respects R (f a)) -> respects R (bind m f).
Proof.
  intros Hm Hf w. unfold bind. specialize (Hm w).
  destruct (m w) as [[a|e] w1]; simpl in *; [ | exact Hm ].
  eapply (fp_trans R FR); [ exact Hm | apply Hf ].
Qed.

Lemma respects_checked {A} (c : Cmd) (t : bool) (eff : World -> option (A * World)) :
  (forall w a w1 ok, eff w = Some (a, w1) -> R w (record (Ran c ok) w1)) ->
  (forall w, R w (record (Ran c false) w)) ->
  respects R (checked c t eff).
Proof.
  intros Hok Hko w. eapply (fp_trans R FR); [ apply (fp_fault R FR) | ].
  unfold checked, spawn. destruct (next_fault w) as [f w0]. simpl.
  destruct (eff w0) as [[out w1]|] eqn:E; destruct f, t; simpl; eauto.
Qed.

Lemma respects_unchecked (c : Cmd) (eff : World -> option (unit * World)) :
  (forall w a w1 ok, eff w = Some (a, w1) -> R w (record (Ran c ok) w1)) ->
  (forall w, R w (record (Ran c false) w)) ->
  respects R (unchecked c eff).
Proof.
  intros Hok Hko w. eapply (fp_trans R FR); [ apply (fp_fault R FR) | ].
  unfold unchecked, spawn. destruct (next_fault w) as [f w0]. simpl.
  destruct (eff w0) as [[out w1]|] eqn:E; destruct f; simpl; eauto.
Qed.

Lemma respects_load : respects R load_sync_state.
Proof. intros w. unfold load_sync_state. destruct (sync_state_file w); apply FR. Qed.

Lemma respects_try {A} (body : M A) (handler : Exn -> option (M A)) (final : M unit) :
  respects R body ->
  (forall e h, handler e = Some h -> respects R h) ->
  respects R final ->
  respects R (try_except_finally body handler final).
Proof.
  intros Hb Hh Hf w. unfold try_except_finally.
  specialize (Hb w). destruct (body w) as [r w1]. simpl in Hb.
  assert (H2 : R w (snd (match r with
                        | Val a => (Val a, w1)
                        | Exc e => match handler e with
                                   | Some h => h w1
                                   | None => (Exc e, w1)
                                   end
                        end))).
  { destruct r as [a|e]; [ exact Hb | ].
    destruct (handler e) as [h|] eqn:E; [ | exact Hb ].
    eapply (fp_trans R FR); [ exact Hb | apply (Hh e h E) ]. }
  destruct (match r with Val a => _ | Exc e => _ end) as [r' w2]. simpl in H2.
  specialize (Hf w2). destruct (final w2) as [[u|e] w3]; simpl in *;
    eapply (fp_trans R FR); eauto.
Qed.

End Respects.

Tactic Notation "world_simpl" "in" hyp(H) :=
  repeat (progress (autorewrite with world in H; simpl in H)).

Ltac footprint :=
  repeat apply footprint_and;
  first [ apply footprint_logs
        | apply footprint_keeps; intros; apply next_fault_same ].

(** Opens an effect that succeeded. *)
Ltac open_effect :=
  intros;
  repeat match goal with
         | H : Effect.current_branch _ = Some _ |- _ => unfold Effect.current_branch in H
         | H : Effect.fetch _ = Some _ |- _ => unfold Effect.fetch in H
         | H : Effect.rev_parse _ _ = Some _ |- _ => unfold Effect.rev_parse in H
         | H : Effect.branch_listing _ = Some _ |- _ => unfold Effect.branch_listing in H
         | H : Effect.checkout _ _ = Some _ |- _ => unfold Effect.checkout in H
         | H : Effect.pull _ = Some _ |- _ => unfold Effect.pull in H
         | H : Effect.diff _ _ = Some _ |- _ => unfold Effect.diff in H
         | H : Effect.find _ = Some _ |- _ => unfold Effect.find in H
         | H : Effect.checkout_from _ _ _ = Some _ |- _ => unfold Effect.checkout_from in H
         | H : Effect.add_all _ = Some _ |- _ => unfold Effect.add_all in H
         | H : Effect.commit _ _ = Some _ |- _ => unfold Effect.commit in H
         end;
  repeat match goal with
         | H : match ?x with _ => _ end = Some _ |- _ => destruct x eqn:?; try discriminate H
         end;
  repeat match goal with
         | H : Some _ = Some _ |- _ => inversion H; subst; clear H
         end.

Ltac in_footprint :=
  unfold read_only, restoring, keeps, logs; simpl;
  repeat split; try reflexivity;
  try (eexists [_]; split;
       [ reflexivity
       | unfold off_vault; simpl; rewrite ?String.eqb_refl, ?orb_true_r;
         reflexivity ]);
  try (exists []; split; [ symmetry; apply app_nil_r | reflexivity ]).

Ltac respects_step :=
  lazymatch goal with
  | |- respects _ (bind _ _) => apply respects_bind; [ footprint | | intros ]
  | |- respects _ (ret _) => apply respects_ret; footprint
  | |- respects _ (raise _) => apply respects_raise; footprint
  | |- respects _ (sys_exit _) => apply respects_raise; footprint
  | |- respects _ load_sync_state => apply respects_load; footprint
  | |- respects _ (save_sync_state _) => intros ?; in_footprint
  | |- respects _ (apply_reverse_conversions _) =>
      let w := fresh "w" in
      intros w; unfold apply_reverse_conversions;
      destruct (read_file _ (worktree w));
      [ repeat match goal with |- context [if ?b then _ else _] => destruct b end | ];
      simpl; in_footprint
  | |- respects _ (checked _ _ _) =>
      apply respects_checked; [ footprint | open_effect; in_footprint | intros; in_footprint ]
  | |- respects _ (unchecked _ _) =>
      apply respects_unchecked; [ footprint | open_effect; in_footprint | intros; in_footprint ]
  | |- respects _ (if ?b then _ else _) => destruct b
  | |- respects _ (match ?x with _ => _ end) => destruct x
  end.

Ltac respects_tac := repeat respects_step.

Lemma read_only_footprint : Footprint read_only.
Proof. unfold read_only. footprint. Qed.

Lemma require_listed_read_only required listing :
  respects read_only (require_listed required listing).
Proof.
  induction required as [|b rest IH]; simpl; [ respects_tac | ].
  destruct (negb (Str.contains b listing)); [ respects_tac | exact IH ].
Qed.

Lemma check_repository_read_only : respects read_only check_repository.
Proof.
  intros w. unfold check_repository. destruct (negb (git_dir w)).
  - apply read_only_footprint.
  - revert w. change (respects read_only
      (listing <- checked git_branch_a false Effect.branch_listing ;;
       require_listed required_branches listing)).
    respects_step; [ respects_tac | apply require_listed_read_only ].
Qed.

Lemma has_external_changes_read_only : respects read_only has_external_changes.
Proof. unfold has_external_changes, get_local_master_hash, get_remote_master_hash. respects_tac. Qed.

(** ** The drift check *)

Ltac bind_inv H :=
  unfold bind in H at 1;
  lazymatch type of H with
  | match ?m ?w with _ => _ end = _ =>
      let a := fresh "a" in let e := fresh "e" in
      let w1 := fresh "w" in let E := fresh "E" in
      destruct (m w) as [[a|e] w1] eqn:E; [ | try discriminate H ]
  end.

Lemma get_local_master_hash_val (w w' : World) (h : Commit) :
  get_local_master_hash w = (Val h, w') ->
  branch_head "master" (branches w) = Some h
  /\ w' = record (Ran (git_rev_parse "master") true) (snd (next_fault w)).
Proof.
  intros H. apply checked_val in H as (w1 & He & ->).
  unfold Effect.rev_parse in He. simpl in He. autorewrite with world in He.
  destruct (branch_head "master" (branches w)); inversion He; auto.
Qed.

Lemma get_remote_master_hash_val (w w' : World) (h : Commit) :
  get_remote_master_hash w = (Val h, w') -> upstream_master w = Some h.
Proof.
  unfold get_remote_master_hash. intros H. bind_inv H.
  apply checked_val in E as (w1 & He & ->).
  apply checked_val in H as (w2 & He2 & ->).
  unfold Effect.fetch in He. autorewrite with world in He.
  destruct (upstream_master w) as [r|]; inversion He; subst.
  unfold Effect.rev_parse in He2. simpl in He2. autorewrite with world in He2.
  simpl in He2. inversion He2. reflexivity.
Qed.

Lemma drift_check (w w' : World) (b : bool) :
  has_external_changes w = (Val b, w') ->
  exists local remote,
    branch_head "master" (branches w) = Some local
    /\ upstream_master w = Some remote
    /\ (b = true <->
        local <> remote \/ recorded_revision w = None
        \/ recorded_revision w <> Some local).
Proof.
  unfold has_external_changes. intros H.
  bind_inv H. bind_inv H. bind_inv H.
  assert (w0 = w /\ last_master_hash a = recorded_revision w) as [-> Hrec].
  { unfold load_sync_state, recorded_revision in *.
    destruct (sync_state_file w); inversion E; auto. }
  apply get_local_master_hash_val in E0 as [Hl ->].
  apply get_remote_master_hash_val in E1. simpl in E1.
  autorewrite with world in E1.
  exists a0, a1. repeat split; auto.
  - intros ->. destruct (commit_eqb a0 a1) eqn:Q; simpl in H.
    + apply commit_eqb_eq in Q. subst a1. rewrite Hrec in H.
      destruct (recorded_revision w) as [r|]; [ | auto ].
      destruct (commit_eqb a0 r) eqn:Q; simpl in H; [ discriminate H | ].
      right. right. intros E'. injection E' as ->. now rewrite commit_eqb_refl in Q.
    + left. intros ->. now rewrite commit_eqb_refl in Q.
  - intros D. destruct (commit_eqb a0 a1) eqn:Q; simpl in H; [ | now inversion H ].
    apply commit_eqb_eq in Q. subst a1. rewrite Hrec in H.
    destruct (recorded_revision w) as [r|]; [ | now inversion H ].
    destruct (commit_eqb a0 r) eqn:Q; simpl in H; [ | now inversion H ].
    apply commit_eqb_eq in Q. subst r. exfalso.
    destruct D as [D | [D | D]]; congruence.
Qed.

(** ** The pass as a whole *)

Lemma sync_from_wiki_no_drift (w w1 w2 : World) :
  check_repository w = (Val tt, w1) ->
  has_external_changes w1 = (Val false, w2) ->
  sync_from_wiki w = (Val tt, w2).
Proof. intros H1 H2. unfold sync_from_wiki, bind. now rewrite H1, H2. Qed.

Lemma sync_from_wiki_drift (w w1 w2 : World) :
  check_repository w = (Val tt, w1) ->
  has_external_changes w1 = (Val true, w2) ->
  sync_from_wiki w
  = (original_branch <- get_current_branch ;; guarded_sync original_branch) w2.
Proof. intros H1 H2. unfold sync_from_wiki, bind. now rewrite H1, H2. Qed.

Lemma sync_from_wiki_begin (w : World) :
  sync_from_wiki w
  = (started <- begin_pass ;;
     match started with
     | None => ret tt
     | Some original_branch => guarded_sync original_branch
     end) w.
Proof.
  unfold sync_from_wiki, begin_pass, bind.
  destruct (check_repository w) as [[[]|e] w1]; [ | reflexivity ].
  destruct (has_external_changes w1) as [[[]|e] w2]; simpl; try reflexivity.
  destruct (get_current_branch w2) as [[ob|e] w3]; reflexivity.
Qed.

Lemma begin_pass_read_only : respects read_only begin_pass.
Proof.
  unfold begin_pass.
  apply respects_bind; [ apply read_only_footprint | apply check_repository_read_only | intros _ ].
  apply respects_bind; [ apply read_only_footprint | apply has_external_changes_read_only | intros b ].
  unfold get_current_branch. respects_tac.
Qed.

Lemma read_only_events (evs : list Event) :
  forallb is_read_only evs = true ->
  forallb (fun e => negb (is_checkout e) && negb (is_commit e)
                    && negb (is_state_write e)) evs = true.
Proof.
  induction evs as [|e evs IH]; simpl; [ reflexivity | ].
  intros H. apply andb_true_iff in H as [He Hs]. rewrite (IH Hs), andb_true_r.
  destruct e as [[] ?| |]; simpl in *; congruence.
Qed.

(** C8.  A pass whose drift check detects no drift returns at once: it
    checks out no branch, creates no commit and does not write the state
    file; branch pointer, branches, working tree and persisted state are
    exactly as they were found. *)
Theorem no_drift_no_action (w w1 w2 : World) :
  check_repository w = (Val tt, w1) ->
  has_external_changes w1 = (Val false, w2) ->
  sync_from_wiki w = (Val tt, w2)
  /\ HEAD w2 = HEAD w
  /\ sync_state_file w2 = sync_state_file w
  /\ branches w2 = branches w
  /\ worktree w2 = worktree w
  /\ exists evs,
       log w2 = (log w ++ evs)%list
       /\ forallb (fun e => negb (is_checkout e) && negb (is_commit e)
                           && negb (is_state_write e)) evs = true.
Proof.
  intros H1 H2. split; [ now apply (sync_from_wiki_no_drift w w1 w2) | ].
  pose proof (check_repository_read_only w) as R1. rewrite H1 in R1.
  pose proof (has_external_changes_read_only w1) as R2. rewrite H2 in R2.
  pose proof (fp_trans _ read_only_footprint _ _ _ R1 R2) as R. simpl in R.
  destruct R as (Rh & Rb & Rw & Rs & _ & (evs & Hl & He)).
  unfold keeps in *. repeat split; auto.
  exists evs. split; [ exact Hl | now apply read_only_events ].
Qed.

Lemma no_drift_no_action_witness :
  HEAD (snd (has_external_changes (snd (check_repository Sample.in_sync))))
  = HEAD Sample.in_sync
  /\ sync_state_file (snd (has_external_changes (snd (check_repository Sample.in_sync))))
     = sync_state_file Sample.in_sync.
Proof.
  assert (Hc : check_repository Sample.in_sync
               = (Val tt, snd (check_repository Sample.in_sync)))
    by (vm_compute; reflexivity).
  assert (Hd : has_external_changes (snd (check_repository Sample.in_sync))
               = (Val false,
                  snd (has_external_changes (snd (check_repository Sample.in_sync)))))
    by (vm_compute; reflexivity).
  destruct (no_drift_no_action Sample.in_sync _ _ Hc Hd) as (_ & Hh & Hs & _).
  split; assumption.
Defined.


(** ** Inside the [try] block *)


Lemma restoring_footprint ob : Footprint (restoring ob).
Proof. unfold restoring. footprint. Qed.

Lemma restore_branch_restoring ob : respects (restoring ob) (restore_branch ob).
Proof. unfold restore_branch, get_current_branch. respects_tac. Qed.

(** ** What can be raised *)

Lemma raises_errors_bind {A B} (m : M A) (f : A -> M B) :
  raises_errors m -> (forall a, raises_errors (f a)) -> raises_errors (bind m f).
Proof.
  intros Hm Hf w e w' H. unfold bind in H.
  destruct (m w) as [[a|e1] w1] eqn:E.
  - exact (Hf a w1 e w' H).
  - inversion H; subst. exact (Hm w e w' E).
Qed.

Lemma raises_errors_ret {A} (a : A) : raises_errors (ret a).
Proof. intros w e w' H. discriminate H. Qed.

Lemma raises_errors_checked {A} c t (eff : World -> option (A * World)) :
  raises_errors (checked c t eff).
Proof. intros w e w' H. apply checked_exc_kind in H as [-> | ->]; exact I. Qed.

Lemma raises_errors_unchecked c eff : raises_errors (unchecked c eff).
Proof.
  intros w e w' H. apply unchecked_inv in H as ([H | H] & _); inversion H. exact I.
Qed.

Lemma raises_errors_load : raises_errors load_sync_state.
Proof. intros w e w' H. unfold load_sync_state in H. destruct (sync_state_file w); discriminate H. Qed.

Lemma raises_errors_save h : raises_errors (save_sync_state h).
Proof. intros w e w' H. discriminate H. Qed.

Lemma raises_errors_convert f : raises_errors (apply_reverse_conversions f).
Proof.
  intros w e w' H. unfold apply_reverse_conversions in H.
  destruct (read_file f (worktree w)); [ | inversion H; exact I ].
  destruct (negb (Str.utf8 _)); [ inversion H; exact I | ].
  cbv zeta in H. destruct (negb _); discriminate H.
Qed.

Ltac errors_step :=
  lazymatch goal with
  | |- raises_errors (bind _ _) => apply raises_errors_bind; [ | intros ]
  | |- raises_errors (ret _) => apply raises_errors_ret
  | |- raises_errors (checked _ _ _) => apply raises_errors_checked
  | |- raises_errors (unchecked _ _) => apply raises_errors_unchecked
  | |- raises_errors load_sync_state => apply raises_errors_load
  | |- raises_errors (save_sync_state _) => apply raises_errors_save
  | |- raises_errors (apply_reverse_conversions _) => apply raises_errors_convert
  | |- raises_errors (fun w => (Val _, w)) => intros ? ? ? ?; discriminate
  | |- raises_errors (if ?b then _ else _) => destruct b
  | |- raises_errors (match ?x with _ => _ end) => destruct x
  end.

Ltac errors_tac := repeat errors_step.

Lemma convert_files_raises_errors md_files : raises_errors (convert_files md_files).
Proof.
  induction md_files as [|f rest IH]; cbn [convert_files]; [ errors_tac | ].
  errors_step; [ errors_tac | ].
  errors_step; [ errors_tac | ].
  errors_step; [ exact IH | errors_tac ].
Qed.

Lemma reverse_sync_raises_errors : raises_errors reverse_sync.
Proof.
  unfold reverse_sync, changed_files_output, nothing_to_process, convert_and_commit,
    update_sync_state, get_local_master_hash.
  errors_step; [ errors_tac | ].
  errors_step; [ errors_tac | ].
  errors_step; [ errors_tac | ].
  errors_step; [ errors_tac | ].
  errors_step; [ | errors_tac ].
  errors_step; [ errors_tac | ].
  errors_step; [ apply convert_files_raises_errors | errors_tac ].
Qed.

Lemma restore_branch_raises_errors ob : raises_errors (restore_branch ob).
Proof. unfold restore_branch, get_current_branch. errors_tac. Qed.

Lemma error_status {A} (e : Exn) : is_error e -> exit_status (@Exc A e) = 1.
Proof. destruct e; simpl; tauto. Qed.

(** Once the [try] block raises, the run ends with a non-zero status and
    the [finally] block is all that still happens. *)
Lemma guarded_sync_abort (ob : string) (w w1 : World) (e : Exn) :
  reverse_sync w = (Exc e, w1) ->
  exit_status (fst (guarded_sync ob w)) <> 0
  /\ restoring ob w1 (snd (guarded_sync ob w)).
Proof.
  intros Hb. pose proof (reverse_sync_raises_errors w e w1 Hb) as He.
  unfold guarded_sync, try_except_finally. rewrite Hb.
  pose proof (restore_branch_restoring ob w1) as Hr.
  pose proof (restore_branch_raises_errors ob w1) as Hx.
  assert (Hh : exists e', (match on_git_failure e with
                           | Some h => h w1
                           | None => (Exc e, w1)
                           end) = (Exc e', w1) /\ exit_status (@Exc unit e') <> 0).
  { destruct e; simpl in *; try contradiction; eexists; split; try reflexivity;
      simpl; discriminate. }
  destruct Hh as (e' & -> & Hs).
  destruct (restore_branch ob w1) as [[u|e2] w3]; simpl in *.
  - split; [ exact Hs | exact Hr ].
  - split; [ | exact Hr ]. pose proof (@error_status unit e2 (Hx e2 w3 eq_refl)) as Q.
    simpl in Q. rewrite Q. discriminate.
Qed.

Lemma reverse_sync_nothing (w w1 : World) (output : string) :
  changed_files_output w = (Val output, w1) ->
  md_files_in output w1 = [] ->
  reverse_sync w = nothing_to_process w1.
Proof.
  intros H Hmd. unfold reverse_sync, bind. rewrite H.
  destruct (String.eqb output ""); [ reflexivity | now rewrite Hmd ].
Qed.

Lemma md_files_in_empty (w : World) : md_files_in "" w = [].
Proof. reflexivity. Qed.

(** ** Leaving early: nothing to process *)

Lemma branch_head_set_branch (name : string) (c old : Commit) (bs : Branches) :
  branch_head name bs = Some old -> branch_head name (set_branch name c bs) = Some c.
Proof.
  induction bs as [|[n x] bs IH]; simpl; [ discriminate | ].
  destruct (String.eqb name n) eqn:E; simpl; rewrite E; auto.
Qed.


Lemma nothing_to_process_val (w w' : World) :
  nothing_to_process w = (Val tt, w') ->
  exists h,
    branch_head "master" (branches w) = Some h
    /\ branches w' = branches w
    /\ sync_state_file w' = Some (mkSyncState (Some h) (Some (clock w)))
    /\ log w' = (log w ++ [Ran (git_rev_parse "master") true;
                           SavedState (mkSyncState (Some h) (Some (clock w)))])%list.
Proof.
  unfold nothing_to_process. intros H. bind_inv H.
  apply get_local_master_hash_val in E as (Hm & ->).
  exists a. unfold save_sync_state in H. inversion H; subst. simpl.
  autorewrite with world. rewrite <- List.app_assoc. auto.
Qed.



(** A run that returns went through the whole [try] block and then
    through the [finally] block. *)
Lemma guarded_sync_val (ob : string) (w : World) :
  fst (guarded_sync ob w) = Val tt ->
  exists w2, reverse_sync w = (Val tt, w2)
             /\ restoring ob w2 (snd (guarded_sync ob w)).
Proof.
  unfold guarded_sync, try_except_finally.
  destruct (reverse_sync w) as [[[]|e] w2] eqn:Hb.
  - intros H. exists w2. split; [ reflexivity | ].
    pose proof (restore_branch_restoring ob w2) as R.
    destruct (restore_branch ob w2) as [[u|e] w3]; simpl in *; exact R.
  - intros H. exfalso.
    assert (Hh : exists e' wh, (match on_git_failure e with
                             | Some h => h w2
                             | None => (Exc e, w2)
                             end) = (@Exc unit e', wh)).
    { destruct e; simpl; unfold sys_exit, raise; eauto. }
    destruct Hh as (e' & wh & Hh). rewrite Hh in H.
    destruct (restore_branch ob wh) as [[u|e2] w3]; discriminate H.
Qed.




(** ** After a pass that completes *)

Lemma reverse_sync_val (w w' : World) :
  reverse_sync w = (Val tt, w') ->
  exists h, recorded_revision w' = Some h
            /\ branch_head "master" (branches w') = Some h.
Proof.
  assert (N : forall v v', nothing_to_process v = (Val tt, v') ->
              exists h, recorded_revision v' = Some h
                        /\ branch_head "master" (branches v') = Some h).
  { intros v v' H. apply nothing_to_process_val in H as (h & Hm & Hb & Hs & _).
    exists h. unfold recorded_revision. rewrite Hs, Hb. auto. }
  unfold reverse_sync. intros H. bind_inv H.
  destruct (String.eqb a ""); [ eauto | ].
  unfold bind in H at 1. cbv beta iota in H.
  destruct (md_files_in a w0) as [|f rest]; [ eauto | ].
  bind_inv H. unfold update_sync_state in H. bind_inv H. eauto.
Qed.

Lemma no_drift_recorded (w w' : World) :
  has_external_changes w = (Val false, w') ->
  exists h, recorded_revision w = Some h
            /\ branch_head "master" (branches w) = Some h.
Proof.
  intros H. apply drift_check in H as (local & remote & Hl & Hr & Hiff).
  exists local. split; [ | exact Hl ].
  destruct (recorded_revision w) as [r|] eqn:Q.
  - destruct (commit_eqb local r) eqn:Eq.
    + apply commit_eqb_eq in Eq. now subst.
    + assert (false = true); [ | discriminate ].
      apply Hiff. right. right. intros E. injection E as ->.
      now rewrite commit_eqb_refl in Eq.
  - assert (false = true); [ | discriminate ]. apply Hiff. auto.
Qed.

(** After a pass that completes, the revision recorded in the state file
    is the local revision of the published branch; the drift check of an
    immediately following run reports drift exactly when that revision
    differs from the remote one, and when it reports none the run does
    nothing further. *)
Lemma completed_pass_records_master (w w' : World) :
  sync_from_wiki w = (Val tt, w') ->
  exists h,
    recorded_revision w' = Some h
    /\ branch_head "master" (branches w') = Some h
    /\ forall wa b wb,
         check_repository w' = (Val tt, wa) ->
         has_external_changes wa = (Val b, wb) ->
         (b = true <-> upstream_master w' <> Some h)
         /\ (b = false -> sync_from_wiki w' = (Val tt, wb)).
Proof.
  intros H.
  assert (S : exists h, recorded_revision w' = Some h
                        /\ branch_head "master" (branches w') = Some h).
  { unfold sync_from_wiki in H. bind_inv H. bind_inv H.
    pose proof (has_external_changes_read_only w0) as R. rewrite E0 in R.
    destruct R as (_ & Rb & _ & Rs & _). unfold keeps in *. simpl in *.
    destruct a0; simpl in H.
    - bind_inv H.
      assert (Hv : fst (guarded_sync a0 w2) = Val tt) by now rewrite H.
      destruct (guarded_sync_val a0 w2 Hv) as (w3 & Hr & (Kb & Ks & _)).
      rewrite H in Kb, Ks. unfold keeps in *. simpl in *.
      apply reverse_sync_val in Hr as (h & H1 & H2). exists h.
      unfold recorded_revision in *. now rewrite Ks, Kb.
    - inversion H; subst. apply no_drift_recorded in E0 as (h & H1 & H2).
      exists h. unfold recorded_revision in *. now rewrite Rs, Rb. }
  destruct S as (h & Hrec & Hm). exists h. split; [ exact Hrec | ]. split; [ exact Hm | ].
  intros wa b wb Hc Hd.
  pose proof (check_repository_read_only w') as R. rewrite Hc in R.
  destruct R as (_ & Rb & _ & Rs & Ru & _). unfold keeps in *. simpl in *.
  split; [ | intros ->; now apply (sync_from_wiki_no_drift w' wa wb) ].
  apply drift_check in Hd as (local & remote & Hl & Hr & Hiff).
  unfold recorded_revision in *. rewrite Rs, Hrec in Hiff. rewrite Rb, Hm in Hl.
  injection Hl as <-. rewrite Ru in Hr. rewrite Hr, Hiff. split.
  - intros [D | [D | D]]; congruence.
  - intros D. left. congruence.
Qed.

(** C1.  On [Sample.local_ahead] local master carries a commit that the
    remote lacks.  A pass completes there, commits a converted file and
    records local master in the state file.  The drift check of the run
    that follows answers yes all the same, though the remote is behind and
    has nothing new and the local revision is the recorded one; and that
    run goes through the pass again, checkouts and state write included. *)
Theorem loop_avoidance_fails_local_ahead :
  let w1 := snd (sync_from_wiki Sample.local_ahead) in
  let w2 := snd (sync_from_wiki w1) in
  fst (sync_from_wiki Sample.local_ahead) = Val tt
  /\ existsb made_commit (log w1) = true
  /\ recorded_revision w1 = Some Sample.m2
  /\ branch_head "master" (branches w1) = Some Sample.m2
  /\ upstream_master w1 = Some Sample.m1
  /\ is_ancestor Sample.m1 Sample.m2 = true
  /\ fst (has_external_changes (snd (check_repository w1))) = Val true
  /\ fst (sync_from_wiki w1) = Val tt
  /\ existsb (is_checkout_of "master") (skipn (List.length (log w1)) (log w2)) = true
  /\ existsb is_state_write (skipn (List.length (log w1)) (log w2)) = true.
Proof. vm_compute. repeat split. Qed.

(** C2.  The drift check answers yes exactly when the local revision of the
    published branch differs from the freshly fetched remote one, or no sync
    was recorded, or the local revision differs from the recorded one; the
    orchestrator goes on to sync on yes and returns at once on no. *)
Theorem drift_decision (w0 w w' : World) (b : bool) :
  check_repository w0 = (Val tt, w) ->
  has_external_changes w = (Val b, w') ->
  exists local remote,
    branch_head "master" (branches w) = Some local
    /\ upstream_master w = Some remote
    /\ (b = true <->
        local <> remote \/ recorded_revision w = None
        \/ recorded_revision w <> Some local)
    /\ sync_from_wiki w0
       = if b
         then (original_branch <- get_current_branch ;;
               guarded_sync original_branch) w'
         else (Val tt, w').
Proof.
  intros Hc Hd.
  destruct (drift_check w w' b Hd) as (local & remote & Hl & Hr & Hiff).
  exists local, remote. repeat split; auto; try apply Hiff.
  destruct b.
  - now apply (sync_from_wiki_drift w0 w w').
  - now apply (sync_from_wiki_no_drift w0 w w').
Qed.

Lemma drift_decision_witness :
  exists local remote,
    branch_head "master" (branches Sample.wiki_edited) = Some local
    /\ upstream_master Sample.wiki_edited = Some remote
    /\ local <> remote.
Proof.
  assert (Hc : check_repository Sample.wiki_edited
               = (Val tt, snd (check_repository Sample.wiki_edited)))
    by (vm_compute; reflexivity).
  assert (Hd : has_external_changes (snd (check_repository Sample.wiki_edited))
               = (Val true,
                  snd (has_external_changes (snd (check_repository Sample.wiki_edited)))))
    by (vm_compute; reflexivity).
  destruct (drift_decision Sample.wiki_edited _ _ true Hc Hd)
    as (local & remote & Hl & Hr & Hiff & _).
  exists local, remote. repeat split; try assumption.
  vm_compute in Hl, Hr. injection Hl as <-. injection Hr as <-. discriminate.
Defined.



(* ================================================================= *)
(** * The converter *)

(** C3.  The page-link pass does rewrite an image embed that contains a
    [|]: the optional prefix group matches the empty string behind the [!]. *)
Theorem page_link_pass_rewrites_image_embed :
  page_link_pass "![[photo.png|200]]" = "![[200|photo.png]]".
Proof. reflexivity. Qed.

(** C4.  The image-embed pass puts a second [!] in front of an embed that
    already has one; an embed without it and names outside the recognized
    extensions behave as described. *)
Theorem image_link_pass_marks_embed_twice :
  image_link_pass "![[diagram.png]]" = "!![[diagram.png]]"
  /\ image_link_pass "[[diagram.png]]" = "![[diagram.png]]"
  /\ image_link_pass "[[Photo.JPG]]" = "![[Photo.JPG]]"
  /\ image_link_pass "[[Other Page]]" = "[[Other Page]]"
  /\ image_link_pass "[[notes.txt]]" = "[[notes.txt]]".
Proof. repeat split; reflexivity. Qed.

(** C7.  With branches master, obsidian and ob_to_gh_backup the required
    branch ob_to_gh is absent, yet the check lets the run through: it
    switches branches, commits and writes the state file, and ends with
    status 0. *)
Theorem missing_branch_not_detected :
  branch_head "ob_to_gh" (branches Sample.tracking_branch_missing) = None
  /\ exit_status (fst (sync_from_wiki Sample.tracking_branch_missing)) = 0
  /\ existsb is_checkout (log (snd (sync_from_wiki Sample.tracking_branch_missing))) = true
  /\ existsb made_commit (log (snd (sync_from_wiki Sample.tracking_branch_missing))) = true
  /\ existsb is_state_write (log (snd (sync_from_wiki Sample.tracking_branch_missing))) = true.
Proof. vm_compute. repeat split. Qed.

(* ================================================================= *)
(** * Further properties of the converter *)

Lemma to_lower_uncased (x : ascii) : Str.is_cased x = false -> Str.to_lower x = x.
Proof.
  unfold Str.is_cased, Str.to_lower. intros H.
  apply orb_false_iff in H as [-> _]. reflexivity.
Qed.

Lemma to_lower_upper_is_lower (c : ascii) :
  Str.is_upper c = true -> Str.is_lower (Str.to_lower c) = true.
Proof. destruct c as [[] [] [] [] [] [] [] []]; cbv; congruence. Qed.

(** Case folding never confuses a character that is not a letter. *)
Lemma char_eq_uncased (ic : bool) (c x : ascii) :
  Str.is_cased x = false -> char_eq ic c x = true -> c = x.
Proof.
  intros Hx. unfold char_eq. destruct ic; [ | apply Ascii.eqb_eq ].
  rewrite (to_lower_uncased x Hx). intros H. apply Ascii.eqb_eq in H.
  destruct (Str.is_upper c) eqn:U.
  - apply to_lower_upper_is_lower in U. rewrite H in U.
    unfold Str.is_cased in Hx. rewrite U, orb_true_r in Hx. discriminate.
  - unfold Str.to_lower in H. now rewrite U in H.
Qed.

Section Failure.
Variable ic : bool.
Context {R : Type}.

(** [P] holds of the input and of all its suffixes. *)
Variable P : string -> Prop.
Hypothesis P_tail : forall c s, P (String c s) -> P s.

Lemma greedy_fails (a : atom) (s : string) (k : string -> option R) :
  (forall rest, P rest -> k rest = None) -> P s -> greedy ic a s k = None.
Proof.
  intros Hk. induction s as [|c s IH]; intros Hs; simpl; [ now apply Hk | ].
  destruct (accepts ic a c); [ | now apply Hk ].
  rewrite (IH (P_tail _ _ Hs)). now apply Hk.
Qed.

Lemma literal_fails (w s : string) (k : string -> option R) :
  (forall rest, P rest -> k rest = None) -> P s -> literal ic w s k = None.
Proof.
  intros Hk. revert s. induction w as [|d w IH]; intros s Hs; simpl; [ now apply Hk | ].
  destruct s as [|c s]; [ reflexivity | ].
  destruct (char_eq ic c d); [ | reflexivity ]. apply IH. eapply P_tail; eauto.
Qed.

(** A pattern whose continuation fails on every suffix fails. *)
Lemma run_fails (r : regex) :
  forall (s : string) (g : groups) (k : string -> groups -> option R),
  (forall rest g', P rest -> k rest g' = None) -> P s -> run ic r s g k = None.
Proof.
  induction r as [a | a | a | a | w | r1 IH1 r2 IH2 | r1 IH1 r2 IH2 | n r IH];
    intros s g k Hk Hs; cbn [run].
  - destruct s as [|c s]; [ reflexivity | ].
    destruct (accepts ic a c); [ | reflexivity ]. apply Hk. eapply P_tail; eauto.
  - destruct s as [|c s]; [ now apply Hk | ].
    destruct (accepts ic a c); [ | now apply Hk ].
    rewrite (Hk s g (P_tail _ _ Hs)). now apply Hk.
  - apply greedy_fails; auto.
  - destruct s as [|c s]; [ reflexivity | ].
    destruct (accepts ic a c); [ | reflexivity ].
    apply greedy_fails; auto. eapply P_tail; eauto.
  - apply literal_fails; auto.
  - apply IH1; auto.
  - rewrite IH1 by auto. apply IH2; auto.
  - apply IH; auto.
Qed.

End Failure.

Lemma mem_tail (x c : ascii) (s : string) :
  Str.mem x (String c s) = false -> Str.mem x s = false.
Proof. simpl. intros H. now apply orb_false_iff in H. Qed.

Lemma literal_needs (ic : bool) {R} (x : ascii) (w s : string) (k : string -> option R) :
  Str.is_cased x = false -> Str.mem x w = true -> Str.mem x s = false ->
  literal ic w s k = None.
Proof.
  intros Hx. revert s. induction w as [|d w IH]; intros s Hw Hs; [ discriminate | ].
  simpl. destruct s as [|c s]; [ reflexivity | ].
  destruct (char_eq ic c d) eqn:E; [ | reflexivity ].
  simpl in Hw, Hs. apply orb_false_iff in Hs as [Hc Hs].
  destruct (Ascii.eqb x d) eqn:Q.
  - apply Ascii.eqb_eq in Q. subst d. apply (char_eq_uncased ic c x Hx) in E.
    subst c. now rewrite Ascii.eqb_refl in Hc.
  - simpl in Hw. now apply IH.
Qed.

(** A pattern that needs [x] matches nowhere in a text without [x]. *)
Lemma run_needs (ic : bool) {R} (x : ascii) (r : regex) :
  Str.is_cased x = false -> needs x r = true ->
  forall (s : string) (g : groups) (k : string -> groups -> option R),
  Str.mem x s = false -> run ic r s g k = None.
Proof.
  intros Hx.
  assert (Hlit : forall c d, Ascii.eqb c x = true -> accepts ic (Lit c) d = true -> d = x).
  { intros c d Hc Hd. apply Ascii.eqb_eq in Hc. subst c. simpl in Hd.
    now apply (char_eq_uncased ic d x Hx). }
  induction r as [a | a | a | a | w | r1 IH1 r2 IH2 | r1 IH1 r2 IH2 | n r IH];
    cbn [needs]; intros Hn s g k Hs; try discriminate; cbn [run].
  - destruct a as [c|cs]; [ | discriminate ]. destruct s as [|d s]; [ reflexivity | ].
    destruct (accepts ic (Lit c) d) eqn:E; [ | reflexivity ].
    apply (Hlit c d Hn) in E. subst d. simpl in Hs. now rewrite Ascii.eqb_refl in Hs.
  - destruct a as [c|cs]; [ | discriminate ]. destruct s as [|d s]; [ reflexivity | ].
    destruct (accepts ic (Lit c) d) eqn:E; [ | reflexivity ].
    apply (Hlit c d Hn) in E. subst d. simpl in Hs. now rewrite Ascii.eqb_refl in Hs.
  - now apply (literal_needs ic x).
  - apply orb_true_iff in Hn as [Hn | Hn]; [ now apply IH1 | ].
    apply (run_fails ic (fun t => Str.mem x t = false) (mem_tail x)); auto.
  - apply andb_true_iff in Hn as [H1 H2]. rewrite IH1 by auto. now apply IH2.
  - now apply IH.
Qed.

Lemma sub_needs (ic : bool) (x : ascii) (r : regex) (repl : Match -> string) (t : string) :
  Str.is_cased x = false -> needs x r = true -> Str.mem x t = false ->
  sub ic r repl t = t.
Proof.
  intros Hx Hn. unfold sub. induction t as [|c t IH]; intros Ht.
  - cbn [sub_scan]. unfold match_at. now rewrite (run_needs ic x r Hx Hn).
  - rewrite sub_scan_no_match.
    + now rewrite (IH (mem_tail _ _ _ Ht)).
    + unfold match_at. now apply (run_needs ic x r Hx Hn).
Qed.

(** The optional prefix takes one character in front of the brackets,
    unless that character is [!]. *)
Lemma page_match_prefixed (p d t : ascii) (D T post : string) :
  p <> "!"%char ->
  Str.mem "|" (String d D) = false -> Str.mem "]" (String d D) = false ->
  Str.mem "|" (String t T) = false -> Str.mem "]" (String t T) = false ->
  match_at false page_link_re (String p (wiki_page_link (String d D) (String t T) ++ post))
  = Some (mkMatch (String p (wiki_page_link (String d D) (String t T)))
                  [(3, String t T); (2, String d D); (1, String p "")]).
Proof.
  intros Hp HD1 HD2 HT1 HT2.
  pose proof (all_none_of_2 _ _ _ HD1 HD2) as AD.
  pose proof (all_none_of_2 _ _ _ HT1 HT2) as AT.
  cbn [Str.all] in AD, AT.
  apply andb_true_iff in AD as [Ad AD], AT as [At AT].
  rewrite wiki_page_link_text.
  unfold match_at, page_link_re.
  cbn [run append].
  replace (accepts false (NoneOf "!") p) with true.
  2:{ simpl. unfold char_eq. symmetry. apply negb_true_iff.
      rewrite orb_false_r. now apply Ascii.eqb_neq. }
  cbn [literal char_eq]. rewrite Ascii.eqb_refl, Ad.
  erewrite greedy_app_some; [ | exact AD | ].
  2:{ rewrite greedy_rejected by reflexivity.
      replace (accepts false (Lit "|") "|") with true by reflexivity.
      rewrite At.
      erewrite greedy_app_some; [ reflexivity | exact AT | ].
      rewrite greedy_rejected by reflexivity.
      cbn [literal char_eq]. rewrite !Ascii.eqb_refl. reflexivity. }
  f_equal. f_equal.
  - etransitivity;
      [ | apply (taken_app (String p (wiki_page_link (String d D) (String t T))) post) ].
    f_equal. cbn [append]. f_equal. symmetry. apply wiki_page_link_text.
  - f_equal; [ | f_equal ].
    + f_equal. exact (taken_app (String t T) (String "]" (String "]" post))).
    + f_equal.
      exact (taken_app (String d D) (String "|" (String t T ++ String "]" (String "]" post)))).
    + f_equal. f_equal.
      exact (taken_app (String p "")
               (String "[" (String "[" (String d D ++ String "|"
                  (String t T ++ String "]" (String "]" post)))))).
Qed.

(** No match begins where neither this nor the next character is [[]. *)
Lemma page_no_match (c : ascii) (s : string) :
  c <> "["%char -> Str.startswith "[" s = false ->
  match_at false page_link_re (String c s) = None.
Proof.
  intros Hc Hs. unfold match_at, page_link_re. cbn [run].
  assert (L1 : forall k : string -> option Match, literal false "[[" s k = None).
  { intros k. destruct s as [|e s]; [ reflexivity | ]. cbn [literal char_eq].
    cbn [Str.startswith] in Hs. rewrite andb_true_r in Hs.
    rewrite Ascii.eqb_sym. now rewrite Hs. }
  assert (L2 : forall k : string -> option Match, literal false "[[" (String c s) k = None).
  { intros k. cbn [literal char_eq].
    replace (Ascii.eqb c "[") with false; [ reflexivity | ].
    symmetry. now apply Ascii.eqb_neq. }
  destruct (accepts false (NoneOf "!") c); now rewrite ?L1, ?L2.
Qed.

Lemma page_link_pass_at (pre display target post : string) :
  Str.mem "[" pre = false ->
  link_argument display -> Str.startswith "[" display = false ->
  link_argument target ->
  page_link_pass (pre ++ wiki_page_link display target ++ post)
  = pre ++ "[[" ++ Str.replace "-" " " target ++ "|" ++ display ++ "]]"
        ++ page_link_pass post.
Proof.
  intros Hpre Hd Hs Ht.
  induction pre as [|p pre IH]; [ now apply page_link_rewritten | ].
  cbn [Str.mem] in Hpre. apply orb_false_iff in Hpre as [Hp Hpre].
  assert (Hp' : p <> "["%char).
  { intros ->. discriminate Hp. }
  destruct pre as [|q pre].
  - (* [p] stands right in front of the link *)
    destruct (Ascii.eqb p "!") eqn:B.
    + cbn [append]. unfold page_link_pass, sub.
      rewrite sub_scan_no_match; [ f_equal; exact (IH eq_refl) | ].
      apply Ascii.eqb_eq in B. subst p.
      destruct display as [|d D]; [ destruct Hd; congruence | ]. reflexivity.
    + destruct Hd as (Hd & HD1 & HD2). destruct Ht as (Ht & HT1 & HT2).
      destruct display as [|d D]; [congruence|].
      destruct target as [|t T]; [congruence|].
      apply Ascii.eqb_neq in B.
      pose proof (page_match_prefixed p d t D T post B HD1 HD2 HT1 HT2) as Hm.
      unfold page_link_pass, sub. cbn [append].
      etransitivity.
      * exact (sub_scan_match false page_link_re reverse_page_links _ p
                 ("[[" ++ String d D ++ "|" ++ String t T ++ "]]") post Hm eq_refl).
      * unfold reverse_page_links.
        cbn [group caps lookup Nat.eqb text or_empty].
        repeat (progress (cbn [append]; rewrite ?app_assoc)). reflexivity.
  - cbn [append]. unfold page_link_pass, sub.
    rewrite sub_scan_no_match.
    + f_equal. exact (IH Hpre).
    + apply page_no_match; [ exact Hp' | ].
      cbn [Str.mem] in Hpre. apply orb_false_iff in Hpre as [Hq _].
      cbn [append Str.startswith]. now rewrite Hq.
Qed.

Lemma all_none_of_ic (x : ascii) (s : string) :
  Str.is_cased x = false -> Str.mem x s = false ->
  Str.all (accepts true (NoneOf (String x ""))) s = true.
Proof.
  intros Hx. induction s as [|c s IH]; [reflexivity|].
  cbn [Str.mem Str.all accepts in_class].
  intros H. apply orb_false_iff in H as [Hc Hs]. rewrite (IH Hs), andb_true_r.
  apply negb_true_iff. rewrite orb_false_r.
  destruct (char_eq true c x) eqn:E; [ | reflexivity ].
  apply (char_eq_uncased true c x Hx) in E. subst c. now rewrite Ascii.eqb_refl in Hc.
Qed.


Lemma image_link_text (name ext post : string) :
  image_link name ext ++ post = String "[" (String "[" (name ++ ext ++ String "]" (String "]" post))).
Proof.
  unfold image_link. simpl. do 2 f_equal. rewrite app_assoc. f_equal.
  rewrite app_assoc. reflexivity.
Qed.

Lemma taken_refl (s : string) : taken s s = "".
Proof. unfold taken. now rewrite Nat.sub_diag. Qed.

Lemma image_match (n : ascii) (N ext post : string) :
  n <> "["%char -> Str.mem "]" (String n N) = false ->
  In ext image_extensions ->
  exists g3,
    match_at true image_link_re (image_link (String n N) ext ++ post)
    = Some (mkMatch (image_link (String n N) ext)
                    [(2, image_link (String n N) ext); (3, g3); (1, "")]).
Proof.
  intros Hn HN Hin.
  pose proof (all_none_of_ic "]" _ eq_refl HN) as AN.
  cbn [Str.all] in AN. apply andb_true_iff in AN as [An AN].
  pose proof (image_link_text (String n N) ext post) as Htext.
  rewrite Htext.
  unfold match_at, image_link_re.
  cbn [run append].
  replace (accepts true (NoneOf "!") "[") with true by reflexivity.
  cbn [literal].
  replace (char_eq true "[" "[") with true by reflexivity.
  assert (Hc : char_eq true n "[" = false).
  { destruct (char_eq true n "[") eqn:E; [ | reflexivity ].
    apply (char_eq_uncased true n "[" eq_refl) in E. contradiction. }
  rewrite Hc, An, taken_refl.
  match goal with
  | |- exists g3, greedy _ _ _ ?k = _ => set (K := k)
  end.
  assert (HK : exists g3, greedy true (NoneOf "]") (ext ++ String "]" (String "]" post)) K
                          = Some (mkMatch (image_link (String n N) ext)
                                    [(2, image_link (String n N) ext); (3, g3); (1, "")])).
  { assert (W : taken (String "[" (String "[" (String n N ++ ext ++ String "]" (String "]" post)))) post
                = image_link (String n N) ext).
    { rewrite <- Htext. apply taken_app. }
    cbn [append] in W.
    simpl in Hin.
    destruct Hin as [<- | [<- | [<- | [<- | [<- | [<- | [<- | []]]]]]]];
      cbn [append] in W; subst K; cbn -[taken]; rewrite W; eexists; reflexivity. }
  destruct HK as (g3 & HK). exists g3.
  now apply greedy_app_some.
Qed.

Lemma image_match_prefixed (p n : ascii) (N ext post : string) :
  p <> "!"%char -> Str.mem "]" (String n N) = false ->
  In ext image_extensions ->
  exists g3,
    match_at true image_link_re (String p (image_link (String n N) ext ++ post))
    = Some (mkMatch (String p (image_link (String n N) ext))
                    [(2, image_link (String n N) ext); (3, g3); (1, String p "")]).
Proof.
  intros Hp HN Hin.
  pose proof (all_none_of_ic "]" _ eq_refl HN) as AN.
  cbn [Str.all] in AN. apply andb_true_iff in AN as [An AN].
  pose proof (image_link_text (String n N) ext post) as Htext.
  rewrite Htext.
  unfold match_at, image_link_re.
  cbn [run append].
  assert (Hc : accepts true (NoneOf "!") p = true).
  { cbn [accepts in_class]. rewrite orb_false_r. apply negb_true_iff.
    destruct (char_eq true p "!") eqn:E; [ | reflexivity ].
    apply (char_eq_uncased true p "!" eq_refl) in E. contradiction. }
  rewrite Hc. cbn [literal].
  replace (char_eq true "[" "[") with true by reflexivity.
  rewrite An.
  match goal with
  | |- exists g3, match greedy _ _ _ ?k with _ => _ end = _ => set (K := k)
  end.
  assert (HK : exists g3, greedy true (NoneOf "]") (ext ++ String "]" (String "]" post)) K
                          = Some (mkMatch (String p (image_link (String n N) ext))
                                    [(2, image_link (String n N) ext); (3, g3);
                                     (1, String p "")])).
  { assert (W : taken (String p (String "[" (String "[" (String n N ++ ext ++ String "]" (String "]" post))))) post
                = String p (image_link (String n N) ext)).
    { rewrite <- Htext. apply (taken_app (String p (image_link (String n N) ext))). }
    assert (W2 : taken (String "[" (String "[" (String n N ++ ext ++ String "]" (String "]" post)))) post
                = image_link (String n N) ext).
    { rewrite <- Htext. apply taken_app. }
    assert (W1 : taken (String p (String "[" (String "[" (String n N ++ ext ++ String "]" (String "]" post)))))
                   (String "[" (String "[" (String n N ++ ext ++ String "]" (String "]" post))))
                 = String p "").
    { apply (taken_app (String p "")). }
    simpl in Hin.
    destruct Hin as [<- | [<- | [<- | [<- | [<- | [<- | [<- | []]]]]]]];
      cbn [append] in W, W1, W2; subst K; cbn -[taken]; rewrite W, W1, W2;
        eexists; reflexivity. }
  destruct HK as (g3 & HK). exists g3.
  erewrite greedy_app_some; [ reflexivity | exact AN | exact HK ].
Qed.

Lemma image_no_match (c : ascii) (s : string) :
  c <> "["%char -> Str.startswith "[" s = false ->
  match_at true image_link_re (String c s) = None.
Proof.
  intros Hc Hs. unfold match_at, image_link_re. cbn [run].
  assert (E : forall e, e <> "["%char -> char_eq true e "[" = false).
  { intros e He. destruct (char_eq true e "[") eqn:Q; [ | reflexivity ].
    apply (char_eq_uncased true e "[" eq_refl) in Q. contradiction. }
  assert (L1 : forall k : string -> option Match, literal true "[[" s k = None).
  { intros k. destruct s as [|e s]; [ reflexivity | ]. cbn [literal].
    cbn [Str.startswith] in Hs. rewrite andb_true_r in Hs.
    rewrite E; [ reflexivity | ]. intros ->. discriminate Hs. }
  assert (L2 : forall k : string -> option Match, literal true "[[" (String c s) k = None).
  { intros k. cbn [literal]. now rewrite (E c Hc). }
  destruct (accepts true (NoneOf "!") c); now rewrite ?L1, ?L2.
Qed.

Lemma mem_app (x : ascii) (u v : string) :
  Str.mem x (u ++ v) = Str.mem x u || Str.mem x v.
Proof. induction u as [|c u IH]; simpl; [ reflexivity | now rewrite IH, orb_assoc ]. Qed.

Lemma lower_app (u v : string) : Str.lower (u ++ v) = Str.lower u ++ Str.lower v.
Proof. induction u as [|c u IH]; simpl; [ reflexivity | now rewrite IH ]. Qed.

Lemma drop_app (u v : string) : Str.drop (length u) (u ++ v) = v.
Proof. induction u as [|c u IH]; simpl; [ now destruct v | exact IH ]. Qed.

Lemma endswith_app (u p : string) : Str.endswith p (u ++ p) = true.
Proof.
  unfold Str.endswith. rewrite length_app.
  replace (length u + length p - length p) with (length u) by lia.
  rewrite drop_app, String.eqb_refl, andb_true_r. apply Nat.leb_le. lia.
Qed.

Lemma taken_all (s : string) : taken s "" = s.
Proof. rewrite <- (app_empty_r s) at 1. apply taken_app. Qed.

Lemma filename_match (c : ascii) (s : string) :
  Str.mem "]" (String c s) = false ->
  match_at false filename_re ("[[" ++ String c s ++ "]]")
  = Some (mkMatch ("[[" ++ String c s ++ "]]") [(1, String c s)]).
Proof.
  intros H. pose proof (all_none_of_1 _ _ H) as A. cbn [Str.all] in A.
  apply andb_true_iff in A as [Ac As].
  unfold match_at, filename_re. cbn [run append literal char_eq].
  rewrite !Ascii.eqb_refl, Ac.
  erewrite greedy_app_some; [ | exact As | ].
  2:{ rewrite greedy_rejected by reflexivity. cbn [literal char_eq].
      rewrite !Ascii.eqb_refl. reflexivity. }
  f_equal. f_equal.
  - apply taken_all.
  - f_equal. f_equal. exact (taken_app (String c s) "]]").
Qed.

(** The callback marks a link whose name ends in a recognized extension. *)
Lemma reverse_image_links_marks (m : Match) (p name ext : string) :
  name <> "" -> Str.mem "]" name = false -> In ext image_extensions ->
  group m 1 = Some p -> group m 2 = Some (image_link name ext) ->
  reverse_image_links m = or_empty (Some p) ++ "!" ++ image_link name ext.
Proof.
  intros Hn Hm Hin H1 H2. unfold reverse_image_links. rewrite H1, H2. cbn [text].
  assert (Hext : Str.mem "]" ext = false /\ Str.lower ext = ext).
  { simpl in Hin.
    destruct Hin as [<- | [<- | [<- | [<- | [<- | [<- | [<- | []]]]]]]]; split; reflexivity. }
  destruct Hext as (He & Hl).
  destruct name as [|c s]; [ congruence | ].
  unfold image_link. rewrite <- (app_assoc (String c s) ext "]]").
  change (String c s ++ ext) with (String c (s ++ ext)).
  rewrite filename_match.
  - cbn [group caps lookup Nat.eqb text].
    replace (existsb _ image_extensions) with true; [ reflexivity | ].
    symmetry. apply existsb_exists. exists ext. split; [ exact Hin | ].
    change (String c (s ++ ext)) with (String c s ++ ext).
    rewrite lower_app, Hl. apply endswith_app.
  - change (String c (s ++ ext)) with (String c s ++ ext).
    rewrite mem_app, Hm, He. reflexivity.
Qed.

Lemma image_link_pass_at (pre name ext post : string) :
  Str.mem "[" pre = false ->
  name <> "" -> Str.mem "]" name = false -> Str.startswith "[" name = false ->
  In ext image_extensions ->
  image_link_pass (pre ++ image_link name ext ++ post)
  = pre ++ "!" ++ image_link name ext ++ image_link_pass post.
Proof.
  intros Hpre Hn HN Hs Hin.
  destruct name as [|n N]; [ congruence | ].
  assert (Hn' : n <> "["%char).
  { intros ->. discriminate Hs. }
  assert (Base : image_link_pass (image_link (String n N) ext ++ post)
                 = "!" ++ image_link (String n N) ext ++ image_link_pass post).
  { destruct (image_match n N ext post Hn' HN Hin) as (g3 & Hm).
    unfold image_link_pass, sub. etransitivity.
    - exact (sub_scan_match true image_link_re reverse_image_links _ "["
               ("[" ++ String n N ++ ext ++ "]]") post Hm eq_refl).
    - rewrite (reverse_image_links_marks _ "" (String n N) ext); auto. }
  induction pre as [|p pre IH]; [ exact Base | ].
  cbn [Str.mem] in Hpre. apply orb_false_iff in Hpre as [Hp Hpre].
  assert (Hp' : p <> "["%char).
  { intros ->. discriminate Hp. }
  destruct pre as [|q pre].
  - destruct (Ascii.eqb p "!") eqn:B.
    + cbn [append]. unfold image_link_pass, sub.
      rewrite sub_scan_no_match; [ f_equal; exact (IH eq_refl) | ].
      apply Ascii.eqb_eq in B. subst p. reflexivity.
    + apply Ascii.eqb_neq in B.
      destruct (image_match_prefixed p n N ext post B HN Hin) as (g3 & Hm).
      unfold image_link_pass, sub. cbn [append]. etransitivity.
      * exact (sub_scan_match true image_link_re reverse_image_links _ p
                 ("[[" ++ String n N ++ ext ++ "]]") post Hm eq_refl).
      * rewrite (reverse_image_links_marks _ (String p "") (String n N) ext); auto.
  - cbn [append]. unfold image_link_pass, sub.
    rewrite sub_scan_no_match.
    + f_equal. exact (IH Hpre).
    + apply image_no_match; [ exact Hp' | ].
      cbn [Str.mem] in Hpre. apply orb_false_iff in Hpre as [Hq _].
      cbn [append Str.startswith]. now rewrite Hq.
Qed.

(** ** Where the scan finds nothing to rewrite *)

Lemma literal_not_startswith {R} (w s : string) (k : string -> option R) :
  Str.startswith w s = false -> literal false w s k = None.
Proof.
  revert s. induction w as [|d w IH]; intros s H; [ discriminate H | ].
  destruct s as [|c s]; [ reflexivity | ].
  cbn [literal char_eq]. cbn [Str.startswith] in H. rewrite Ascii.eqb_sym.
  destruct (Ascii.eqb d c); [ apply IH; exact H | reflexivity ].
Qed.














(** ** Where a match can end *)

Lemma suffix_refl (s : string) : suffix_of s s.
Proof. now exists "". Qed.

Lemma suffix_tail (c : ascii) (t s : string) : suffix_of t s -> suffix_of t (String c s).
Proof. intros (w & ->). now exists (String c w). Qed.

Lemma suffix_trans (a b c : string) : suffix_of a b -> suffix_of b c -> suffix_of a c.
Proof. intros (w1 & ->) (w2 & ->). exists (w2 ++ w1). now rewrite app_assoc. Qed.

Lemma suffix_behind (w s : string) : suffix_of s (w ++ s).
Proof. now exists w. Qed.

Lemma suffix_of_tail (c : ascii) (t s : string) : suffix_of (String c t) s -> suffix_of t s.
Proof. intros (w & ->). exists (w ++ String c ""). now rewrite app_assoc. Qed.

Section Reach.
Variable ic : bool.
Context {R : Type}.

Lemma greedy_reaches (a : atom) (s : string) (k : string -> option R) (x : R) :
  greedy ic a s k = Some x -> exists rest, suffix_of rest s /\ k rest = Some x.
Proof.
  induction s as [|c s IH]; cbn [greedy]; intros H.
  - exists "". split; [ apply suffix_refl | exact H ].
  - destruct (accepts ic a c).
    + destruct (greedy ic a s k) as [y|] eqn:G.
      * destruct (IH H) as (rest & Hs & Hk). exists rest.
        split; [ now apply suffix_tail | exact Hk ].
      * exists (String c s). split; [ apply suffix_refl | exact H ].
    + exists (String c s). split; [ apply suffix_refl | exact H ].
Qed.

Lemma literal_reaches (w s : string) (k : string -> option R) (x : R) :
  literal ic w s k = Some x -> exists rest, suffix_of rest s /\ k rest = Some x.
Proof.
  revert s. induction w as [|d w IH]; intros s H; cbn [literal] in H.
  - exists s. split; [ apply suffix_refl | exact H ].
  - destruct s as [|c s]; [ discriminate H | ].
    destruct (char_eq ic c d); [ | discriminate H ].
    destruct (IH s H) as (rest & Hs & Hk). exists rest.
    split; [ now apply suffix_tail | exact Hk ].
Qed.

(** A literal without letters is matched by itself only. *)
Lemma literal_exact (w s : string) (k : string -> option R) (x : R) :
  Str.all (fun c => negb (Str.is_cased c)) w = true ->
  literal ic w s k = Some x -> exists rest, s = w ++ rest /\ k rest = Some x.
Proof.
  revert s. induction w as [|d w IH]; intros s Hw H; cbn [literal] in H.
  - now exists s.
  - cbn [Str.all] in Hw. apply andb_true_iff in Hw as [Hd Hw]. apply negb_true_iff in Hd.
    destruct s as [|c s]; [ discriminate H | ].
    destruct (char_eq ic c d) eqn:E; [ | discriminate H ].
    apply (char_eq_uncased ic c d Hd) in E. subst c.
    destruct (IH s Hw H) as (rest & -> & Hk). now exists rest.
Qed.

(** Whatever a pattern returns, its continuation returned it, for what
    was left of the input. *)
Lemma run_reaches (r : regex) :
  forall (s : string) (g : groups) (k : string -> groups -> option R) (x : R),
  run ic r s g k = Some x -> exists rest g', suffix_of rest s /\ k rest g' = Some x.
Proof.
  induction r as [a | a | a | a | w | r1 IH1 r2 IH2 | r1 IH1 r2 IH2 | n r IH];
    intros s g k x H; cbn [run] in H.
  - destruct s as [|c s]; [ discriminate H | ].
    destruct (accepts ic a c); [ | discriminate H ].
    exists s, g. split; [ apply suffix_tail, suffix_refl | exact H ].
  - destruct s as [|c s]; [ exists "", g; split; [ apply suffix_refl | exact H ] | ].
    destruct (accepts ic a c).
    + destruct (k s g) as [y|] eqn:K.
      * exists s, g. split; [ apply suffix_tail, suffix_refl | congruence ].
      * exists (String c s), g. split; [ apply suffix_refl | exact H ].
    + exists (String c s), g. split; [ apply suffix_refl | exact H ].
  - apply greedy_reaches in H as (rest & Hs & Hk). now exists rest, g.
  - destruct s as [|c s]; [ discriminate H | ].
    destruct (accepts ic a c); [ | discriminate H ].
    apply greedy_reaches in H as (rest & Hs & Hk). exists rest, g.
    split; [ now apply suffix_tail | exact Hk ].
  - apply literal_reaches in H as (rest & Hs & Hk). now exists rest, g.
  - apply IH1 in H as (rest1 & g1 & S1 & H). apply IH2 in H as (rest2 & g2 & S2 & H).
    exists rest2, g2. split; [ now apply (suffix_trans rest2 rest1 s) | exact H ].
  - destruct (run ic r1 s g k) as [y|] eqn:A.
    + apply IH1 in A as (rest & g' & Hs & Hk). exists rest, g'. split; congruence.
    + now apply IH2 in H.
  - apply IH in H as (rest & g' & Hs & Hk). now exists rest, ((n, taken s rest) :: g').
Qed.

Lemma run_seq_reaches (r1 r2 : regex) (s : string) (g : groups)
      (k : string -> groups -> option R) (x : R) :
  run ic (Seq r1 r2) s g k = Some x ->
  exists rest g', suffix_of rest s /\ run ic r2 rest g' k = Some x.
Proof. cbn [run]. intros H. now apply run_reaches in H. Qed.

Lemma run_word_exact (w : string) (s : string) (g : groups)
      (k : string -> groups -> option R) (x : R) :
  Str.all (fun c => negb (Str.is_cased c)) w = true ->
  run ic (Word w) s g k = Some x -> exists rest, s = w ++ rest /\ k rest g = Some x.
Proof. cbn [run]. intros Hw H. now apply literal_exact in H. Qed.

(** A match of a pattern that ends with a literal ends behind that
    literal. *)
Lemma run_last_word (r : regex) (w : string) :
  last_word r = Some w -> Str.all (fun c => negb (Str.is_cased c)) w = true ->
  forall (s : string) (g : groups) (k : string -> groups -> option R) (x : R),
  run ic r s g k = Some x ->
  exists rest g', suffix_of (w ++ rest) s /\ k rest g' = Some x.
Proof.
  intros Hl Hw.
  induction r as [a | a | a | a | v | r1 IH1 r2 IH2 | r1 IH1 r2 IH2 | n r IH];
    cbn [last_word] in Hl; try discriminate Hl; intros s g k x H; cbn [run] in H.
  - injection Hl as ->. apply literal_exact in H as (rest & -> & Hk); [ | exact Hw ].
    exists rest, g. split; [ apply suffix_refl | exact Hk ].
  - apply run_reaches in H as (rest1 & g1 & S1 & H).
    apply (IH2 Hl) in H as (rest & g' & S2 & Hk). exists rest, g'.
    split; [ now apply (suffix_trans _ rest1 s) | exact Hk ].
  - apply (IH Hl) in H as (rest & g' & Hs & Hk).
    now exists rest, ((n, taken s rest) :: g').
Qed.

Lemma run_seq_fails (P : string -> Prop) (r1 r2 : regex) (s : string) (g : groups)
      (k : string -> groups -> option R) :
  (forall c t, P (String c t) -> P t) ->
  (forall rest g', P rest -> run ic r2 rest g' k = None) -> P s ->
  run ic (Seq r1 r2) s g k = None.
Proof. intros Pt H Hs. cbn [run]. now apply (run_fails ic P Pt). Qed.

End Reach.

Lemma match_at_whole (ic : bool) (r : regex) (s : string) (m : Match) :
  match_at ic r s = Some m -> exists rest, suffix_of rest s /\ whole m = taken s rest.
Proof.
  unfold match_at. intros H. apply run_reaches in H as (rest & g' & Hs & Hk).
  injection Hk as <-. now exists rest.
Qed.

(** A substitution that puts every match back as it found it changes
    nothing. *)
Lemma sub_scan_same (ic : bool) (r : regex) (repl : Match -> string)
      (P : string -> Prop) :
  (forall c s, P (String c s) -> P s) ->
  (forall s m, P s -> match_at ic r s = Some m -> repl m = whole m) ->
  forall n s, length s <= n -> P s -> sub_scan ic r repl s 0 = s.
Proof.
  intros Pt Hm.
  assert (Ps : forall w s, P (w ++ s) -> P s).
  { induction w as [|c w IHw]; cbn [append]; [ auto | ].
    intros s H. apply IHw. eapply Pt; eauto. }
  assert (E0 : P "" -> sub_scan ic r repl "" 0 = "").
  { intros Hs. cbn [sub_scan]. destruct (match_at ic r "") as [m|] eqn:E; [ | reflexivity ].
    rewrite (Hm "" m Hs E). apply match_at_whole in E as (rest & (w & Hw) & ->).
    destruct w; [ | discriminate Hw ]. cbn [append] in Hw. subst rest. reflexivity. }
  induction n as [|n IH]; intros s Hn Hs.
  - destruct s; [ now apply E0 | cbn [length] in Hn; lia ].
  - destruct s as [|c s]; [ now apply E0 | ].
    cbn [length] in Hn. cbn [sub_scan].
    destruct (match_at ic r (String c s)) as [m|] eqn:E.
    + rewrite (Hm _ m Hs E). apply match_at_whole in E as (rest & (w & Hw) & ->).
      destruct w as [|d w]; cbn [append] in Hw.
      * subst rest. rewrite taken_refl. cbn [length append]. f_equal.
        apply IH; [ lia | eapply Pt; eauto ].
      * injection Hw as <- ->. rewrite taken_cons. cbn [length append].
        rewrite sub_scan_skip. f_equal. f_equal.
        apply IH; [ rewrite length_app in Hn; lia | ].
        apply (Ps w). eapply Pt; eauto.
    + f_equal. apply IH; [ lia | eapply Pt; eauto ].
Qed.

(** ** Texts whose only closing brackets stand at the end *)

Lemma brackets_at_end_tail (c : ascii) (s : string) :
  brackets_at_end (String c s) = true -> brackets_at_end s = true.
Proof.
  cbn [brackets_at_end]. destruct (Ascii.eqb c "]"); [ | auto ].
  intros H. apply orb_true_iff in H as [H | H]; apply String.eqb_eq in H; now subst s.
Qed.

Lemma brackets_at_end_suffix (t s : string) :
  suffix_of t s -> brackets_at_end s = true -> brackets_at_end t = true.
Proof.
  intros (w & ->). induction w as [|c w IH]; cbn [append]; [ auto | ].
  intros H. apply IH. now apply (brackets_at_end_tail c).
Qed.

Lemma brackets_at_end_link (x : string) :
  Str.mem "]" x = false -> brackets_at_end (x ++ "]]") = true.
Proof.
  induction x as [|c x IH]; [ reflexivity | ].
  cbn [Str.mem append brackets_at_end]. intros H. apply orb_false_iff in H as [Hc Hx].
  rewrite Ascii.eqb_sym, Hc. now apply IH.
Qed.

Lemma brackets_close (rest : string) :
  brackets_at_end (String "]" (String "]" rest)) = true -> rest = "".
Proof.
  cbn. intros H. rewrite orb_false_r in H. destruct rest; [ reflexivity | discriminate H ].
Qed.

Lemma brackets_before_end (w : string) :
  brackets_at_end (w ++ "]]") = true -> Str.mem "]" w = false.
Proof.
  induction w as [|c w IH]; [ reflexivity | ].
  cbn [append brackets_at_end Str.mem]. rewrite (Ascii.eqb_sym "]" c).
  destruct (Ascii.eqb c "]"); [ | exact IH ].
  intros H. apply orb_true_iff in H as [H | H]; apply String.eqb_eq in H;
    apply (f_equal length) in H; rewrite length_app in H; cbn in H; lia.
Qed.

Lemma header_no_match_late (s : string) :
  brackets_at_end s = true -> match_at false header_link_re s = None.
Proof.
  intros H. unfold match_at, header_link_re.
  apply (run_seq_fails false (fun t => brackets_at_end t = true));
    [ exact brackets_at_end_tail | | exact H ].
  intros rest g' Hr.
  apply (run_seq_fails false (fun t => brackets_at_end t = true));
    [ exact brackets_at_end_tail | | exact Hr ].
  intros rest2 g2 H2. cbn [run]. apply literal_not_startswith.
  destruct rest2 as [|a [|b t]]; [ reflexivity | | ].
  - cbn [Str.startswith]. apply andb_false_r.
  - cbn [Str.startswith]. cbn [brackets_at_end] in H2. rewrite (Ascii.eqb_sym "]" a).
    destruct (Ascii.eqb a "]"); [ | reflexivity ].
    apply orb_true_iff in H2 as [H2 | H2]; apply String.eqb_eq in H2; [ | discriminate H2 ].
    injection H2 as -> ->. reflexivity.
Qed.

(** The header-link pass leaves such a text as it is. *)
Lemma header_link_pass_late (s : string) :
  brackets_at_end s = true -> header_link_pass s = s.
Proof.
  intros H. unfold header_link_pass, sub.
  apply (sub_scan_same false header_link_re reverse_header_links
           (fun t => brackets_at_end t = true) brackets_at_end_tail)
    with (n := length s); [ | lia | exact H ].
  intros t m Ht Hm. now rewrite header_no_match_late in Hm.
Qed.

(** ** What the image pattern can match in such a text *)

Lemma app_inv_tail (u v z : string) : u ++ z = v ++ z -> u = v.
Proof.
  revert v. induction u as [|c u IH]; intros [|d v] H; cbn [append] in H.
  - reflexivity.
  - apply (f_equal length) in H. cbn [length] in H. rewrite length_app in H. lia.
  - apply (f_equal length) in H. cbn [length] in H. rewrite length_app in H. lia.
  - injection H as -> H. f_equal. now apply IH.
Qed.

Lemma image_match_shape (s : string) (m : Match) :
  brackets_at_end s = true ->
  match_at true image_link_re s = Some m ->
  exists inner,
    group m 2 = Some ("[[" ++ inner ++ "]]") /\ Str.mem "]" inner = false
    /\ suffix_of ("[[" ++ inner ++ "]]") s.
Proof.
  intros Hb H. unfold match_at, image_link_re in H.
  apply run_seq_reaches in H as (s1 & g1 & S1 & H).
  match type of H with
  | run _ (Group 2 (Seq (Word "[[") ?r)) _ _ _ = _ => remember r as behind eqn:Hr
  end.
  cbn [run] in H. apply literal_exact in H as (s2 & -> & H); [ | reflexivity ].
  apply (run_last_word true behind "]]") in H as (rest & g' & S2 & H);
    [ | subst behind; reflexivity | reflexivity ].
  injection H as <-.
  pose proof (brackets_at_end_suffix _ _ S1 Hb) as B1.
  assert (B2 : brackets_at_end s2 = true).
  { apply (brackets_at_end_suffix s2 ("[[" ++ s2)); [ apply suffix_behind | exact B1 ]. }
  pose proof (brackets_at_end_suffix _ _ S2 B2) as B3.
  apply brackets_close in B3. subst rest.
  destruct S2 as (inner & ->). exists inner.
  split; [ | split ].
  - cbn [group caps lookup Nat.eqb]. now rewrite taken_all.
  - now apply brackets_before_end.
  - exact S1.
Qed.

(** The callback gives back a match whose name is not that of an image. *)
Lemma reverse_image_links_plain (m : Match) (inner : string) :
  group m 2 = Some ("[[" ++ inner ++ "]]") -> Str.mem "]" inner = false ->
  image_name inner = false ->
  reverse_image_links m = whole m.
Proof.
  intros H2 Hi Hn. unfold reverse_image_links. rewrite H2. cbn [text].
  destruct inner as [|c i]; [ reflexivity | ].
  rewrite filename_match by exact Hi. cbn [group caps lookup Nat.eqb text].
  unfold image_name in Hn. now rewrite Hn.
Qed.

(** The image pass leaves a text alone that closes its brackets at the
    end only and in which no [[[...]]] holds the name of an image. *)
Lemma image_link_pass_plain (t : string) :
  brackets_at_end t = true ->
  (forall inner, suffix_of ("[[" ++ inner ++ "]]") t -> image_name inner = false) ->
  image_link_pass t = t.
Proof.
  intros Hb Hn. unfold image_link_pass, sub.
  apply (sub_scan_same true image_link_re reverse_image_links (fun s => suffix_of s t))
    with (n := length t); [ | | lia | apply suffix_refl ].
  - intros c s. apply suffix_of_tail.
  - intros s m Hs Hm.
    destruct (image_match_shape s m (brackets_at_end_suffix _ _ Hs Hb) Hm)
      as (inner & H2 & Hi & Hsuf).
    apply (reverse_image_links_plain m inner H2 Hi).
    apply Hn. now apply (suffix_trans _ s t).
Qed.

(** ** Names of images *)

Lemma take_drop (n : nat) (s : string) : Str.take n s ++ Str.drop n s = s.
Proof.
  revert s. induction n as [|n IH]; intros [|c s]; cbn [Str.take Str.drop append];
    try reflexivity. now rewrite IH.
Qed.

Lemma endswith_inv (p s : string) : Str.endswith p s = true -> suffix_of p s.
Proof.
  unfold Str.endswith. intros H. apply andb_true_iff in H as [_ H].
  apply String.eqb_eq in H. exists (Str.take (length s - length p) s).
  rewrite <- H at 2. symmetry. apply take_drop.
Qed.

Lemma endswith_suffix (p t s : string) :
  suffix_of t s -> Str.endswith p t = true -> Str.endswith p s = true.
Proof.
  intros (w & ->) H. apply endswith_inv in H as (v & ->).
  rewrite <- app_assoc. apply endswith_app.
Qed.

Lemma image_name_suffix (t s : string) :
  suffix_of t s -> image_name t = true -> image_name s = true.
Proof.
  intros (w & ->) H. unfold image_name in *. apply existsb_exists in H as (ext & Hin & H).
  apply existsb_exists. exists ext. split; [ exact Hin | ].
  rewrite lower_app. eapply endswith_suffix; [ apply suffix_behind | exact H ].
Qed.

Lemma app_split (c : ascii) (u v w p : string) :
  u ++ String c v = w ++ p -> Str.mem c p = false -> suffix_of p v.
Proof.
  revert w. induction u as [|a u IH]; intros w H Hp; cbn [append] in H.
  - destruct w as [|e w]; cbn [append] in H.
    + subst p. cbn [Str.mem] in Hp. now rewrite Ascii.eqb_refl in Hp.
    + injection H as _ ->. now exists w.
  - destruct w as [|e w]; cbn [append] in H.
    + subst p. cbn [Str.mem] in Hp. rewrite mem_app in Hp. cbn [Str.mem] in Hp.
      rewrite Ascii.eqb_refl, !orb_true_r in Hp. discriminate Hp.
    + injection H as _ H. now apply (IH w).
Qed.

Lemma image_name_behind_bar (u v : string) :
  image_name (u ++ String "|" v) = true -> image_name v = true.
Proof.
  unfold image_name. intros H. apply existsb_exists in H as (ext & Hin & H).
  apply existsb_exists. exists ext. split; [ exact Hin | ].
  rewrite lower_app in H. cbn [Str.lower] in H. apply endswith_inv in H as (w & H).
  change (Str.to_lower "|") with "|"%char in H.
  apply app_split in H as (w' & ->); [ apply endswith_app | ].
  simpl in Hin.
  destruct Hin as [<- | [<- | [<- | [<- | [<- | [<- | [<- | []]]]]]]]; reflexivity.
Qed.

(** ** Round trips *)

Lemma vault_page_link_late (target display : string) :
  link_argument target -> link_argument display ->
  brackets_at_end (vault_page_link target display) = true.
Proof.
  intros (_ & _ & Ht) (_ & _ & Hd). unfold vault_page_link.
  replace ("[[" ++ target ++ "|" ++ display ++ "]]")
    with (("[[" ++ target ++ "|" ++ display) ++ "]]")
    by (repeat (progress (cbn [append]; rewrite ?app_assoc)); reflexivity).
  apply brackets_at_end_link. repeat rewrite mem_app. cbn [Str.mem Ascii.eqb Bool.eqb].
  now rewrite Ht, Hd.
Qed.

(** The header pass and the image pass leave a vault page link alone
    whose display text is not the name of an image. *)
Lemma vault_page_link_kept (target display : string) :
  link_argument target -> link_argument display -> image_name display = false ->
  image_link_pass (header_link_pass (vault_page_link target display))
  = vault_page_link target display.
Proof.
  intros Ht Hd Hn. pose proof (vault_page_link_late target display Ht Hd) as B.
  rewrite (header_link_pass_late _ B). apply (image_link_pass_plain _ B).
  intros inner (w & H).
  destruct (image_name inner) eqn:E; [ | reflexivity ].
  rewrite <- Hn. symmetry. apply (image_name_behind_bar ("[[" ++ target)).
  apply (image_name_suffix inner); [ | exact E ].
  exists (w ++ "[["). apply (app_inv_tail _ _ "]]").
  unfold vault_page_link in H.
  repeat (progress (cbn [append] in *; rewrite ?app_assoc in * )). exact H.
Qed.

Lemma extension_plain (ext : string) :
  In ext image_extensions -> Str.mem "|" ext = false /\ Str.mem "]" ext = false.
Proof.
  simpl. intros [<- | [<- | [<- | [<- | [<- | [<- | [<- | []]]]]]]]; split; reflexivity.
Qed.

(** The three passes put the [!] back in front of an image link. *)
Lemma image_embed_restored (stem ext : string) :
  stem <> "" -> Str.mem "]" stem = false -> Str.mem "|" stem = false ->
  Str.startswith "[" stem = false -> In ext image_extensions ->
  convert_text (forward_image_embed (stem ++ ext)) = vault_image_embed (stem ++ ext).
Proof.
  intros Hs Hb Hp Hl Hin. destruct (extension_plain ext Hin) as (Ep & Eb).
  unfold convert_text, forward_image_embed.
  unfold page_link_pass. rewrite (sub_needs false "|" page_link_re);
    [ | reflexivity | reflexivity
      | repeat rewrite mem_app; cbn [Str.mem Ascii.eqb Bool.eqb]; now rewrite Hp, Ep ].
  replace ("[[" ++ (stem ++ ext) ++ "]]") with (("[[" ++ stem ++ ext) ++ "]]")
    by (repeat (progress (cbn [append]; rewrite ?app_assoc)); reflexivity).
  rewrite header_link_pass_late
    by (apply brackets_at_end_link; repeat rewrite mem_app;
        cbn [Str.mem Ascii.eqb Bool.eqb]; now rewrite Hb, Eb).
  pose proof (image_link_pass_at "" stem ext "" eq_refl Hs Hb Hl Hin) as H.
  unfold image_link in H. change (image_link_pass "") with "" in H.
  unfold vault_image_embed.
  repeat (progress (cbn [append] in *; rewrite ?app_assoc, ?app_empty_r in * )).
  exact H.
Qed.

(** C5 (amended).  One forward conversion followed by the reverse
    converter gives a vault link back as it was: a page link
    [[target|display]] whose target has no hyphen and whose display text
    neither begins with [[] nor ends in an image extension, and an image
    embed ![[name.ext]] whose name has no [|] and does not begin with [[].
    The forward image of [[Target Page|Display]] comes back as
    [[Target Page|Display]]. *)
Theorem link_round_trip (target display stem ext : string) :
  link_argument target -> link_argument display ->
  Str.startswith "[" display = false ->
  Str.mem "-" target = false ->
  image_name display = false ->
  stem <> "" -> Str.mem "]" stem = false -> Str.mem "|" stem = false ->
  Str.startswith "[" stem = false -> In ext image_extensions ->
  convert_text (forward_page_link target display) = vault_page_link target display
  /\ convert_text (forward_image_embed (stem ++ ext)) = vault_image_embed (stem ++ ext)
  /\ convert_text (forward_page_link "Target Page" "Display") = "[[Target Page|Display]]".
Proof.
  intros Ht Hd Hs Hy Hn Hne Hb Hp Hl Hin. split; [ | split ].
  - unfold convert_text. rewrite page_link_pass_inverts_forward by assumption.
    now apply vault_page_link_kept.
  - now apply image_embed_restored.
  - reflexivity.
Qed.

Lemma link_round_trip_witness :
  convert_text (forward_page_link "Setup Guide" "the guide.v2")
  = vault_page_link "Setup Guide" "the guide.v2"
  /\ convert_text (forward_image_embed ("diagram" ++ ".png"))
     = vault_image_embed ("diagram" ++ ".png").
Proof.
  refine (let H := link_round_trip "Setup Guide" "the guide.v2" "diagram" ".png"
                     _ _ eq_refl eq_refl eq_refl _ eq_refl eq_refl eq_refl _ in
          conj (proj1 H) (proj1 (proj2 H)));
    [ split; [ discriminate | split; reflexivity ]
    | split; [ discriminate | split; reflexivity ]
    | discriminate
    | left; reflexivity ].
Defined.

(** The round trip of [[Target Page|Display]] does not yield
    [[Display|Target Page]]; a hyphen in the target comes back as a space;
    a display text that ends in an image extension or begins with [[] and
    an image embed with a [|] do not come back as they were. *)
Lemma round_trip_as_claimed_fails :
  convert_text (forward_page_link "Target Page" "Display") <> "[[Display|Target Page]]"
  /\ convert_text (forward_page_link "Road-Map" "plans") = "[[Road Map|plans]]"
  /\ convert_text (forward_page_link "Logo" "logo.png") = "![[Logo|logo.png]]"
  /\ convert_text (forward_page_link "Notes" "[draft") = "[[[Notes|draft]]"
  /\ convert_text (forward_image_embed "photo.png|200") = "![[200|photo.png]]".
Proof. vm_compute. repeat split. discriminate. Qed.

(** ** Texts the passes leave alone *)

(** X1.  Each pass returns unchanged a text that lacks a character its
    pattern cannot do without: the page-link pass a text without [|], the
    header-link pass a text without [#], the image pass a text without a
    dot. *)
Theorem passes_need_their_markers (t : string) :
  (Str.mem "|" t = false -> page_link_pass t = t)
  /\ (Str.mem "#" t = false -> header_link_pass t = t)
  /\ (Str.mem "." t = false -> image_link_pass t = t).
Proof.
  repeat split; intros H; unfold page_link_pass, header_link_pass, image_link_pass.
  - apply (sub_needs false "|"); auto.
  - apply (sub_needs false "#"); auto.
  - apply (sub_needs true "."); auto.
Qed.

Lemma passes_need_their_markers_witness :
  page_link_pass "see [[Home]]" = "see [[Home]]"
  /\ header_link_pass "see [[Home|home.png]]" = "see [[Home|home.png]]"
  /\ image_link_pass "see [[Home|home]] (#1)" = "see [[Home|home]] (#1)".
Proof.
  split; [ | split ].
  - exact (proj1 (passes_need_their_markers "see [[Home]]") eq_refl).
  - exact (proj1 (proj2 (passes_need_their_markers "see [[Home|home.png]]")) eq_refl).
  - exact (proj2 (proj2 (passes_need_their_markers "see [[Home|home]] (#1)")) eq_refl).
Defined.

(** X2.  The converter returns a text unchanged when the text has no
    opening bracket, or no closing bracket, or none of [|], [#] and the
    dot: plain prose and plain links such as [[Other Page]] pass through. *)
Theorem convert_text_plain (t : string) :
  Str.mem "[" t = false \/ Str.mem "]" t = false
  \/ (Str.mem "|" t = false /\ Str.mem "#" t = false /\ Str.mem "." t = false) ->
  convert_text t = t.
Proof.
  intros H. unfold convert_text, page_link_pass, header_link_pass, image_link_pass.
  destruct H as [H | [H | (H1 & H2 & H3)]].
  - rewrite (sub_needs false "[" page_link_re), (sub_needs false "[" header_link_re),
      (sub_needs true "[" image_link_re); auto.
  - rewrite (sub_needs false "]" page_link_re), (sub_needs false "]" header_link_re),
      (sub_needs true "]" image_link_re); auto.
  - rewrite (sub_needs false "|" page_link_re), (sub_needs false "#" header_link_re),
      (sub_needs true "." image_link_re); auto.
Qed.

Lemma convert_text_plain_witness : convert_text "[[Other Page]]" = "[[Other Page]]".
Proof.
  apply (convert_text_plain "[[Other Page]]").
  right. right. repeat split; reflexivity.
Defined.


(** ** Links inside a text *)

(** X3.  A page link [[display|target]] that follows a stretch of text
    without brackets is rewritten to [[target|display]] with the hyphens of
    the target turned into spaces; the stretch in front is kept as it is
    (also when it ends in [!]) and the pass goes on behind the link. *)
Theorem page_link_pass_in_context (pre display target post : string) :
  Str.mem "[" pre = false ->
  link_argument display -> Str.startswith "[" display = false ->
  link_argument target ->
  page_link_pass (pre ++ wiki_page_link display target ++ post)
  = pre ++ "[[" ++ Str.replace "-" " " target ++ "|" ++ display ++ "]]"
        ++ page_link_pass post.
Proof. apply page_link_pass_at. Qed.

Lemma page_link_pass_in_context_witness :
  page_link_pass ("see " ++ wiki_page_link "the guide" "Setup-Guide" ++ " first")
  = "see " ++ "[[" ++ Str.replace "-" " " "Setup-Guide" ++ "|" ++ "the guide" ++ "]]"
        ++ page_link_pass " first".
Proof.
  apply (page_link_pass_in_context "see " "the guide" "Setup-Guide" " first");
    [ reflexivity
    | split; [ discriminate | split; reflexivity ]
    | reflexivity
    | split; [ discriminate | split; reflexivity ] ].
Defined.

(** X4.  An image link [[name.ext]] with a recognized extension that
    follows a stretch of text without brackets receives a [!] in front,
    whatever the stretch ends in; the pass goes on behind the link. *)
Theorem image_link_pass_in_context (pre name ext post : string) :
  Str.mem "[" pre = false ->
  name <> "" -> Str.mem "]" name = false -> Str.startswith "[" name = false ->
  In ext image_extensions ->
  image_link_pass (pre ++ image_link name ext ++ post)
  = pre ++ "!" ++ image_link name ext ++ image_link_pass post.
Proof. apply image_link_pass_at. Qed.

Lemma image_link_pass_in_context_witness :
  image_link_pass ("logo: " ++ image_link "diagram" ".png" ++ ".")
  = "logo: " ++ "!" ++ image_link "diagram" ".png" ++ image_link_pass ".".
Proof.
  apply (image_link_pass_in_context "logo: " "diagram" ".png" ".");
    [ reflexivity | discriminate | reflexivity | reflexivity | left; reflexivity ].
Defined.


(** ** The three passes together *)

Lemma startswith_replace (s : string) :
  Str.startswith "[" (Str.replace "-" " " s) = Str.startswith "[" s.
Proof.
  destruct s as [|c s]; [ reflexivity | ]. cbn [Str.replace Str.startswith].
  destruct (Ascii.eqb c "-") eqn:E; [ | reflexivity ].
  apply Ascii.eqb_eq in E. now subst c.
Qed.

Lemma title_char_dot (b : bool) (c : ascii) :
  Ascii.eqb "." (if b then Str.to_lower c else Str.to_upper c) = Ascii.eqb "." c.
Proof. destruct b, c as [[] [] [] [] [] [] [] []]; reflexivity. Qed.

Lemma title_from_dot (s : string) (b : bool) :
  Str.mem "." (Str.title_from b s) = Str.mem "." s.
Proof.
  revert b. induction s as [|c s IH]; intros b; [ reflexivity | ].
  cbn [Str.title_from Str.mem]. now rewrite title_char_dot, IH.
Qed.

Lemma page_link_pass_link (display target : string) :
  link_argument display -> Str.startswith "[" display = false ->
  link_argument target ->
  page_link_pass (wiki_page_link display target)
  = wiki_page_link (Str.replace "-" " " target) display.
Proof.
  intros Hd Hs Ht.
  pose proof (page_link_rewritten display target "" Hd Hs Ht) as H.
  rewrite app_empty_r in H. rewrite H. change (page_link_pass "") with "".
  unfold wiki_page_link.
  repeat (progress (cbn [append]; rewrite ?app_assoc)). reflexivity.
Qed.

Lemma pass_plain (ic : bool) (r : regex) (repl : Match -> string) (t : string) :
  needs "[" r = true -> Str.mem "[" t = false -> sub ic r repl t = t.
Proof. intros Hn Ht. now apply (sub_needs ic "["). Qed.

(** Splits the fact that a character occurs nowhere in a text put
    together from several parts. *)
Ltac split_mem H :=
  unfold wiki_page_link, vault_page_link, image_link, anchor_link in H;
  repeat rewrite mem_app in H; cbn [Str.mem Ascii.eqb Bool.eqb orb] in H;
  repeat match goal with
         | K : (_ || _) = false |- _ => apply orb_false_iff in K; destruct K
         end.

(** X5.  The page-link pass does not tell the two dialects apart: applied
    to its own output it swaps the arguments of a link back, so that a
    second application returns the link in its first order, with the
    hyphens of both arguments turned into spaces. *)
Theorem page_link_pass_twice (display target : string) :
  link_argument display -> Str.startswith "[" display = false ->
  link_argument target -> Str.startswith "[" target = false ->
  page_link_pass (page_link_pass (wiki_page_link display target))
  = wiki_page_link (Str.replace "-" " " display) (Str.replace "-" " " target).
Proof.
  intros Hd Hs Ht Hs'.
  rewrite (page_link_pass_link display target Hd Hs Ht).
  apply page_link_pass_link; [ | now rewrite startswith_replace | exact Hd ].
  apply replace_link_argument; [ discriminate | discriminate | exact Ht ].
Qed.

Lemma page_link_pass_twice_witness :
  page_link_pass (page_link_pass (wiki_page_link "the guide" "Setup-Guide"))
  = wiki_page_link (Str.replace "-" " " "the guide") (Str.replace "-" " " "Setup-Guide").
Proof.
  apply (page_link_pass_twice "the guide" "Setup-Guide");
    [ split; [ discriminate | split; reflexivity ]
    | reflexivity
    | split; [ discriminate | split; reflexivity ]
    | reflexivity ].
Defined.


(** X6.  The three passes together, on a text with one page link: when the
    text around the link has no bracket and the whole text has neither [#]
    nor a dot, the converter swaps the arguments of the link, turns the
    hyphens of the target into spaces and changes nothing else. *)
Theorem convert_text_page_link (pre display target post : string) :
  Str.mem "[" pre = false -> Str.mem "[" post = false ->
  link_argument display -> Str.startswith "[" display = false ->
  link_argument target ->
  Str.mem "#" (pre ++ wiki_page_link display target ++ post) = false ->
  Str.mem "." (pre ++ wiki_page_link display target ++ post) = false ->
  convert_text (pre ++ wiki_page_link display target ++ post)
  = pre ++ vault_page_link (Str.replace "-" " " target) display ++ post.
Proof.
  intros Hpre Hpost Hd Hs Ht Hh Hi. unfold convert_text.
  assert (P1 : page_link_pass (pre ++ wiki_page_link display target ++ post)
               = pre ++ vault_page_link (Str.replace "-" " " target) display ++ post).
  { rewrite page_link_pass_at by assumption.
    unfold page_link_pass at 1. rewrite (pass_plain false page_link_re) by auto.
    unfold vault_page_link.
    repeat (progress (cbn [append]; rewrite ?app_assoc)). reflexivity. }
  rewrite P1. split_mem Hh. split_mem Hi.
  assert (P2 : forall x : ascii, x <> " "%char ->
               Str.mem x pre = false -> Str.mem x display = false ->
               Str.mem x target = false -> Str.mem x post = false ->
               (Ascii.eqb x "[" = false) -> (Ascii.eqb x "|" = false) ->
               (Ascii.eqb x "]" = false) ->
               Str.mem x (pre ++ vault_page_link (Str.replace "-" " " target) display ++ post)
               = false).
  { intros x Hx M1 M2 M3 M4 B1 B2 B3. unfold vault_page_link.
    repeat rewrite mem_app. cbn [Str.mem]. rewrite B1, B2, B3, M1, M2, M4.
    now rewrite replace_mem. }
  unfold header_link_pass. rewrite (sub_needs false "#" header_link_re); auto;
    [ | apply P2; auto; discriminate ].
  unfold image_link_pass. apply (sub_needs true "."); auto.
  apply P2; auto; discriminate.
Qed.

Lemma convert_text_page_link_witness :
  convert_text ("see " ++ wiki_page_link "the guide" "Setup-Guide" ++ " first")
  = "see " ++ vault_page_link (Str.replace "-" " " "Setup-Guide") "the guide" ++ " first".
Proof.
  apply (convert_text_page_link "see " "the guide" "Setup-Guide" " first");
    [ reflexivity | reflexivity
    | split; [ discriminate | split; reflexivity ]
    | reflexivity
    | split; [ discriminate | split; reflexivity ]
    | reflexivity | reflexivity ].
Defined.


(** X7.  The three passes together, on a text with one image link: when
    the text around the link has no bracket and the whole text has neither
    [|] nor [#], the converter puts a [!] in front of the link and changes
    nothing else. *)
Theorem convert_text_image_link (pre name ext post : string) :
  Str.mem "[" pre = false -> Str.mem "[" post = false ->
  name <> "" -> Str.mem "]" name = false -> Str.startswith "[" name = false ->
  In ext image_extensions ->
  Str.mem "|" (pre ++ image_link name ext ++ post) = false ->
  Str.mem "#" (pre ++ image_link name ext ++ post) = false ->
  convert_text (pre ++ image_link name ext ++ post)
  = pre ++ "!" ++ image_link name ext ++ post.
Proof.
  intros Hpre Hpost Hn HN Hs Hin Hb Hh. unfold convert_text.
  unfold page_link_pass. rewrite (sub_needs false "|" page_link_re) by auto.
  unfold header_link_pass. rewrite (sub_needs false "#" header_link_re) by auto.
  rewrite image_link_pass_at by assumption.
  unfold image_link_pass at 1. now rewrite (pass_plain true image_link_re) by auto.
Qed.

Lemma convert_text_image_link_witness :
  convert_text ("logo: " ++ image_link "diagram" ".png" ++ ".")
  = "logo: " ++ "!" ++ image_link "diagram" ".png" ++ ".".
Proof.
  apply (convert_text_image_link "logo: " "diagram" ".png" ".");
    [ reflexivity | reflexivity | discriminate | reflexivity | reflexivity
    | left; reflexivity | reflexivity | reflexivity ].
Defined.


(** X8.  The three passes together, on a text with one anchor link: when
    the text around the link has no opening bracket, the whole text has
    neither [|] nor a dot and the fragment is ASCII text, the converter
    rewrites the link to [[#Heading|display]] and changes nothing else. *)
Theorem convert_text_anchor_link (pre display header post : string) :
  Str.mem "[" pre = false -> Str.mem "[" post = false ->
  display <> "" -> Str.mem "]" display = false ->
  header <> "" -> Str.mem ")" header = false ->
  Str.all Str.is_ascii header = true ->
  Str.mem "|" (pre ++ anchor_link display header ++ post) = false ->
  Str.mem "." (pre ++ anchor_link display header ++ post) = false ->
  convert_text (pre ++ anchor_link display header ++ post)
  = pre ++ "[[#" ++ Str.title (Str.replace "-" " " header) ++ "|" ++ display ++ "]]" ++ post.
Proof.
  intros Hpre Hpost Hd HD Hh HH _ Hb Hi. unfold convert_text.
  unfold page_link_pass. rewrite (sub_needs false "|" page_link_re) by auto.
  rewrite header_link_pass_at by assumption.
  unfold header_link_pass at 1. rewrite (pass_plain false header_link_re) by auto.
  unfold image_link_pass. apply (sub_needs true "."); auto.
  split_mem Hi.
  repeat rewrite mem_app. cbn [Str.mem]. unfold Str.title. rewrite title_from_dot.
  rewrite replace_mem by (assumption || discriminate).
  repeat match goal with
         | H : Str.mem _ _ = false |- _ => rewrite H
         end.
  reflexivity.
Qed.

Lemma convert_text_anchor_link_witness :
  convert_text ("go: " ++ anchor_link "see setup" "installation-steps" ++ " now")
  = "go: " ++ "[[#" ++ Str.title (Str.replace "-" " " "installation-steps") ++ "|"
      ++ "see setup" ++ "]]" ++ " now".
Proof.
  apply (convert_text_anchor_link "go: " "see setup" "installation-steps" " now");
    [ reflexivity | reflexivity | discriminate | reflexivity | discriminate
    | reflexivity | reflexivity | reflexivity | reflexivity ].
Defined.


(* ================================================================= *)
(** * Further properties of the orchestrator *)

(** Walks through a computation, one command at a time: [FP] proves the
    relation a footprint, [solve] shows that a single command stays
    within it. *)
Ltac walk FP solve :=
  repeat lazymatch goal with
  | |- respects _ (bind _ _) => apply respects_bind; [ exact FP | | intros ]
  | |- respects _ (ret _) => apply respects_ret; exact FP
  | |- respects _ (raise _) => apply respects_raise; exact FP
  | |- respects _ (sys_exit _) => apply respects_raise; exact FP
  | |- respects _ load_sync_state => apply respects_load; exact FP
  | |- respects _ (save_sync_state _) => intros ?; unfold save_sync_state; solve
  | |- respects _ (fun w => (Val _, w)) => intros ?; apply (fp_refl _ FP)
  | |- respects _ (apply_reverse_conversions _) =>
      let w := fresh "w" in
      intros w; unfold apply_reverse_conversions;
      destruct (read_file _ (worktree w));
      [ repeat match goal with |- context [if ?b then _ else _] => destruct b end | ];
      solve
  | |- respects _ (checked _ _ _) =>
      apply respects_checked; [ exact FP | open_effect; solve | intros; solve ]
  | |- respects _ (unchecked _ _) =>
      apply respects_unchecked; [ exact FP | open_effect; solve | intros; solve ]
  | |- respects _ (if ?b then _ else _) => destruct b
  | |- respects _ (match ?x with _ => _ end) => destruct x
  end.


(** ** Preconditions *)

Lemma require_listed_missing (required : list string) (listing : string) (w : World) :
  (exists b, In b required /\ Str.contains b listing = false) ->
  require_listed required listing w = (Exc (SystemExit 1), w).
Proof.
  induction required as [|r rest IH]; intros (b & Hin & Hb); [ destruct Hin | ].
  cbn [require_listed]. destruct (Str.contains r listing) eqn:E; [ | reflexivity ].
  cbn [negb]. apply IH. destruct Hin as [-> | Hin]; [ congruence | eauto ].
Qed.

Lemma require_listed_present (required : list string) (listing : string) (w : World) :
  (forall b, In b required -> Str.contains b listing = true) ->
  require_listed required listing w = (Val tt, w).
Proof.
  induction required as [|r rest IH]; intros H; [ reflexivity | ].
  cbn [require_listed]. rewrite (H r (or_introl eq_refl)). cbn [negb].
  apply IH. intros b Hb. apply H. now right.
Qed.

Lemma branch_listing_runs (w : World) :
  fst (next_fault w) <> NonZeroExit ->
  checked git_branch_a false Effect.branch_listing w
  = (Val (branch_listing_text w), record (Ran git_branch_a true) (snd (next_fault w))).
Proof.
  intros Hf.
  assert (L : branch_listing_text (snd (next_fault w)) = branch_listing_text w).
  { unfold branch_listing_text, Effect.branch_listing. now autorewrite with world. }
  unfold checked, spawn. destruct (next_fault w) as [f w0]. cbn [fst snd] in *.
  unfold branch_listing_text, Effect.branch_listing in *.
  destruct f; try congruence; cbn; now rewrite L.
Qed.

(** X9.  Outside a git repository, or when the text that
    [git branch -a] prints lacks the name of a required branch, the run
    exits with status 1 before it fetches, switches branches or writes
    anything; at most it has listed the branches. *)
Theorem missing_prerequisite_exits (w : World) :
  git_dir w = false
  \/ (fst (next_fault w) <> NonZeroExit
      /\ exists b, In b required_branches
                   /\ Str.contains b (branch_listing_text w) = false) ->
  sync_from_wiki w
  = (Exc (SystemExit 1),
     if git_dir w then record (Ran git_branch_a true) (snd (next_fault w)) else w).
Proof.
  intros H. unfold sync_from_wiki, bind, check_repository.
  destruct (git_dir w); [ | reflexivity ].
  destruct H as [H | (Hf & Hb)]; [ discriminate H | ].
  cbn [negb]. unfold bind. rewrite (branch_listing_runs w Hf).
  now rewrite require_listed_missing.
Qed.

Lemma missing_prerequisite_exits_witness :
  sync_from_wiki Cases.no_tracking_branch
  = (Exc (SystemExit 1),
     if git_dir Cases.no_tracking_branch
     then record (Ran git_branch_a true) (snd (next_fault Cases.no_tracking_branch))
     else Cases.no_tracking_branch).
Proof.
  apply (missing_prerequisite_exits Cases.no_tracking_branch).
  right. split; [ discriminate | ].
  exists "ob_to_gh". split; [ right; left; reflexivity | reflexivity ].
Defined.

(** ** The state file *)

Lemma state_kept_footprint : Footprint (keeps sync_state_file).
Proof. footprint. Qed.

Lemma convert_files_state_kept md_files :
  respects (keeps sync_state_file) (convert_files md_files).
Proof.
  induction md_files as [|f rest IH]; cbn [convert_files]; [ respects_tac | ].
  respects_step; [ respects_tac | ].
  respects_step; [ respects_tac | ].
  respects_step; [ exact IH | respects_tac ].
Qed.

Lemma convert_and_commit_state_kept md_files :
  respects (keeps sync_state_file) (convert_and_commit md_files).
Proof.
  unfold convert_and_commit.
  respects_step; [ respects_tac | ].
  respects_step; [ apply convert_files_state_kept | respects_tac ].
Qed.

(** A [try] block that raises has not written the state file. *)
Lemma reverse_sync_exc_state (w w1 : World) (e : Exn) :
  reverse_sync w = (Exc e, w1) -> sync_state_file w1 = sync_state_file w.
Proof.
  intros H.
  assert (T := fp_trans _ state_kept_footprint).
  assert (N : forall v v' x, nothing_to_process v = (Exc x, v') -> keeps sync_state_file v v').
  { intros v v' x Hn. unfold nothing_to_process in Hn.
    bind_inv Hn; [ unfold save_sync_state in Hn; discriminate Hn | ].
    inversion Hn; subst.
    assert (R : respects (keeps sync_state_file) get_local_master_hash)
      by (unfold get_local_master_hash; respects_tac).
    specialize (R v). now rewrite E in R. }
  assert (C : respects (keeps sync_state_file) changed_files_output)
    by (unfold changed_files_output; respects_tac).
  unfold reverse_sync in H. bind_inv H.
  2:{ inversion H; subst. specialize (C w). now rewrite E in C. }
  specialize (C w). rewrite E in C. simpl in C. apply (T _ _ _ C). clear C E.
  destruct (String.eqb a ""); [ eauto | ].
  unfold bind in H at 1. cbv beta iota in H.
  destruct (md_files_in a w0) as [|f rest]; [ eauto | ].
  bind_inv H.
  2:{ inversion H; subst.
      pose proof (convert_and_commit_state_kept (f :: rest) w0) as R. now rewrite E in R. }
  pose proof (convert_and_commit_state_kept (f :: rest) w0) as R. rewrite E in R.
  simpl in R. apply (T _ _ _ R). clear R E.
  unfold update_sync_state in H. bind_inv H.
  2:{ inversion H; subst.
      assert (R : respects (keeps sync_state_file)
                    (checked (git_checkout "master") true (Effect.checkout "master")))
        by respects_tac.
      specialize (R w2). now rewrite E in R. }
  assert (R : respects (keeps sync_state_file)
                (checked (git_checkout "master") true (Effect.checkout "master")))
    by respects_tac.
  specialize (R w2). rewrite E in R. simpl in R. apply (T _ _ _ R).
  eapply N. exact H.
Qed.

(** Whatever happens in the [try] block, the state file is either as it
    was or holds the revision of local master. *)
Lemma reverse_sync_state (w w1 : World) (r : Res unit) :
  reverse_sync w = (r, w1) ->
  sync_state_file w1 = sync_state_file w
  \/ exists h, recorded_revision w1 = Some h
               /\ branch_head "master" (branches w1) = Some h.
Proof.
  intros H. destruct r as [[]|e];
    [ right; now apply (reverse_sync_val w) | left; now apply (reverse_sync_exc_state w w1 e) ].
Qed.

(** X10.  Whatever way a run ends, the state file is either untouched, or
    it records the very revision that local master is at when the run
    ends. *)
Theorem state_file_tracks_local_master (w : World) :
  let w' := snd (sync_from_wiki w) in
  sync_state_file w' = sync_state_file w
  \/ exists h, recorded_revision w' = Some h
               /\ branch_head "master" (branches w') = Some h.
Proof.
  intros w'. subst w'. rewrite sync_from_wiki_begin. unfold bind.
  pose proof (begin_pass_read_only w) as B.
  destruct (begin_pass w) as [[[ob|]|e] w0]; simpl in B;
    destruct B as (_ & _ & _ & Bs & _); unfold keeps in Bs;
    [ | left; exact Bs | left; exact Bs ].
  unfold guarded_sync, try_except_finally.
  destruct (reverse_sync w0) as [r w1] eqn:Hr.
  pose proof (reverse_sync_state w0 w1 r Hr) as S.
  assert (Hh : exists r', (match r with
                           | Val a => (Val a, w1)
                           | Exc e => match on_git_failure e with
                                      | Some h => h w1
                                      | None => (Exc e, w1)
                                      end
                           end) = (r', w1)).
  { destruct r as [a|e]; [ eauto | ].
    destruct e; simpl; unfold sys_exit, raise; eauto. }
  destruct Hh as (r' & ->).
  pose proof (restore_branch_restoring ob w1) as (Rb & Rs & _).
  unfold keeps in *.
  destruct (restore_branch ob w1) as [[u|e] w3]; simpl in *;
    (destruct S as [S | (h & S1 & S2)];
     [ left; congruence
     | right; exists h; unfold recorded_revision in *; rewrite Rs, Rb; auto ]).
Qed.


(** ** Branch histories *)

Lemma is_ancestor_refl (c : Commit) : is_ancestor c c = true.
Proof.
  assert (H := commit_eqb_refl c). destruct c; cbn [is_ancestor]; now rewrite H.
Qed.

Lemma is_ancestor_next (c : Commit) (t : Tree) (m : string) :
  is_ancestor c (Next c t m) = true.
Proof. cbn [is_ancestor]. rewrite is_ancestor_refl. apply orb_true_r. Qed.

Lemma is_ancestor_trans (a b c : Commit) :
  is_ancestor a b = true -> is_ancestor b c = true -> is_ancestor a c = true.
Proof.
  intros Hab. induction c as [t | p IH t m | p IHp q IHq t m]; cbn [is_ancestor];
    intros H; apply orb_true_iff in H as [H | H]; try discriminate;
      try (apply commit_eqb_eq in H; now subst b).
  - rewrite (IH H). apply orb_true_r.
  - apply orb_true_iff in H as [H | H]; [ rewrite (IHp H) | rewrite (IHq H) ];
      now rewrite ?orb_true_r.
Qed.

Lemma branch_head_set_other (b n : string) (c : Commit) (bs : Branches) :
  b <> n -> branch_head b (set_branch n c bs) = branch_head b bs.
Proof.
  intros Hb. induction bs as [|[m x] bs IH]; [ reflexivity | ].
  cbn [set_branch]. destruct (String.eqb n m) eqn:E; cbn [branch_head].
  - apply String.eqb_eq in E. subst m.
    apply String.eqb_neq in Hb. now rewrite Hb.
  - now rewrite IH.
Qed.

Lemma set_branch_history (n : string) (cur new : Commit) (bs : Branches) :
  branch_head n bs = Some cur -> is_ancestor cur new = true ->
  forall b c, branch_head b bs = Some c ->
  exists c', branch_head b (set_branch n new bs) = Some c' /\ is_ancestor c c' = true.
Proof.
  intros Hn Ha b c Hb. destruct (String.eqb b n) eqn:E.
  - apply String.eqb_eq in E. subst b. exists new.
    rewrite (branch_head_set_branch n new cur bs Hn). split; congruence.
  - apply String.eqb_neq in E. rewrite (branch_head_set_other b n new bs E).
    exists c. split; [ exact Hb | apply is_ancestor_refl ].
Qed.

Lemma history_kept_footprint : Footprint history_kept.
Proof.
  split; unfold history_kept.
  - intros w _. split; [ reflexivity | ]. intros b c H. exists c.
    split; [ exact H | apply is_ancestor_refl ].
  - intros x y z H1 H2 Hx. destruct (H1 Hx) as (R1 & K1).
    rewrite <- R1 in Hx. destruct (H2 Hx) as (R2 & K2).
    split; [ congruence | ]. intros b c Hb.
    destruct (K1 b c Hb) as (c1 & Hc1 & A1). destruct (K2 b c1 Hc1) as (c2 & Hc2 & A2).
    exists c2. split; [ exact Hc2 | now apply (is_ancestor_trans c c1 c2) ].
  - intros w _. autorewrite with world. split; [ reflexivity | ]. intros b c H.
    exists c. split; [ exact H | apply is_ancestor_refl ].
Qed.

Ltac history_solve :=
  unfold history_kept, Effect.move_to; simpl; autorewrite with world; simpl;
  let Hm := fresh "Hm" in
  intros Hm; split; [ reflexivity | ];
  first [ intros ? ? ?; eexists; split; [ eassumption | apply is_ancestor_refl ]
        | eapply set_branch_history;
          [ eassumption
          | first [ eassumption | apply is_ancestor_next | eapply Hm; eassumption ] ] ].

Ltac history_walk := walk history_kept_footprint history_solve.

Lemma require_listed_history required listing :
  respects history_kept (require_listed required listing).
Proof.
  induction required as [|b rest IH]; simpl; [ history_walk | ].
  destruct (negb (Str.contains b listing)); [ history_walk | exact IH ].
Qed.

Lemma convert_files_history md_files : respects history_kept (convert_files md_files).
Proof.
  induction md_files as [|f rest IH]; cbn [convert_files]; [ history_walk | ].
  apply respects_bind; [ exact history_kept_footprint | history_walk | intros _ ].
  apply respects_bind; [ exact history_kept_footprint | history_walk | intros ch ].
  apply respects_bind; [ exact history_kept_footprint | exact IH | intros; history_walk ].
Qed.

Lemma reverse_sync_history : respects history_kept reverse_sync.
Proof.
  unfold reverse_sync, changed_files_output, nothing_to_process, convert_and_commit,
    update_sync_state, get_local_master_hash.
  history_walk. apply convert_files_history.
Qed.

Lemma sync_from_wiki_history : respects history_kept sync_from_wiki.
Proof.
  unfold sync_from_wiki.
  apply respects_bind; [ exact history_kept_footprint | | intros _ ].
  { intros w. unfold check_repository. destruct (negb (git_dir w)).
    - apply (fp_refl _ history_kept_footprint).
    - revert w. change (respects history_kept
        (listing <- checked git_branch_a false Effect.branch_listing ;;
         require_listed required_branches listing)).
      apply respects_bind; [ exact history_kept_footprint | history_walk | intros ].
      apply require_listed_history. }
  unfold has_external_changes, get_local_master_hash, get_remote_master_hash,
    get_current_branch.
  history_walk.
  unfold guarded_sync. apply respects_try; [ exact history_kept_footprint | | | ].
  - apply reverse_sync_history.
  - intros e h He. destruct e; inversion He; subst. history_walk.
  - unfold restore_branch, get_current_branch. history_walk.
Qed.

(** X12.  Where pulls merge or fast-forward and never rebase, a run
    deletes no branch and rewrites no history: every branch that existed
    before the run exists after it, at a revision that has the earlier one
    among its ancestors. *)
Theorem history_only_grows (w : World) (b : string) (c : Commit) :
  merges (reconcile w) ->
  branch_head b (branches w) = Some c ->
  exists c', branch_head b (branches (snd (sync_from_wiki w))) = Some c'
             /\ is_ancestor c c' = true.
Proof. intros Hm. now apply (sync_from_wiki_history w). Qed.

Lemma merge_theirs_merges : merges merge_theirs.
Proof.
  intros ours theirs c H. injection H as <-. cbn [is_ancestor].
  rewrite is_ancestor_refl. now rewrite orb_true_r.
Qed.

Lemma history_only_grows_witness :
  exists c',
    branch_head "master" (branches (snd (sync_from_wiki (Cases.diverged merge_theirs))))
    = Some c'
    /\ is_ancestor Cases.m1_local c' = true.
Proof.
  apply (history_only_grows (Cases.diverged merge_theirs) "master" Cases.m1_local);
    [ exact merge_theirs_merges | reflexivity ].
Defined.

(** Where the pull rebases, the commit local master had is no longer in
    its history after the run. *)
Lemma history_rewritten_by_rebase :
  branch_head "master" (branches (Cases.diverged rebase_ours)) = Some Cases.m1_local
  /\ branch_head "master" (branches (snd (sync_from_wiki (Cases.diverged rebase_ours))))
     = Some (Next Sample.m2 Cases.wiki_local "local edit")
  /\ is_ancestor Cases.m1_local (Next Sample.m2 Cases.wiki_local "local edit") = false.
Proof. vm_compute. repeat split. Qed.


(** ** The branches a run works on *)

Lemma bind_assoc {A B C} (m : M A) (f : A -> M B) (g : B -> M C) (w : World) :
  bind (bind m f) g w = bind m (fun a => bind (f a) g) w.
Proof. unfold bind. destruct (m w) as [[a|e] w1]; reflexivity. Qed.

Lemma within_sync_branches_footprint : Footprint within_sync_branches.
Proof.
  split; unfold within_sync_branches.
  - intros w H. split; [ exact H | reflexivity ].
  - intros x y z H1 H2 Hx. destruct (H1 Hx) as (Hy & S1). destruct (H2 Hy) as (Hz & S2).
    split; [ exact Hz | ]. intros b Hm Ho. now rewrite S2, S1.
  - intros w H. unfold on_sync_branch in *. autorewrite with world.
    split; [ exact H | reflexivity ].
Qed.

Ltac sync_branches_solve :=
  unfold within_sync_branches, on_sync_branch; simpl; autorewrite with world; simpl;
  let Hon := fresh "Hon" in
  intros Hon; split;
  [ auto
  | intros ? ? ?; try reflexivity;
    apply branch_head_set_other; destruct Hon as [Hon | Hon]; rewrite Hon; assumption ].

Ltac sync_branches_walk := walk within_sync_branches_footprint sync_branches_solve.

Lemma convert_files_sync_branches md_files :
  respects within_sync_branches (convert_files md_files).
Proof.
  induction md_files as [|f rest IH]; cbn [convert_files]; [ sync_branches_walk | ].
  apply respects_bind; [ exact within_sync_branches_footprint | sync_branches_walk | intros _ ].
  apply respects_bind; [ exact within_sync_branches_footprint | sync_branches_walk | intros ch ].
  apply respects_bind; [ exact within_sync_branches_footprint | exact IH | ].
  intros; sync_branches_walk.
Qed.

(** The [try] block begins by checking out the published branch; from
    there on it moves between that branch and the vault branch only. *)
Lemma reverse_sync_other_branches (w : World) (b : string) :
  b <> "master" -> b <> "obsidian" ->
  branch_head b (branches (snd (reverse_sync w))) = branch_head b (branches w).
Proof.
  intros Hm Ho. unfold reverse_sync, changed_files_output. rewrite bind_assoc.
  unfold bind at 1.
  destruct (checked (git_checkout "master") true (Effect.checkout "master") w)
    as [[[]|e] w1] eqn:E.
  - apply checked_val in E as (wa & Ea & ->). open_effect.
    match goal with
    | |- context [snd (?m ?w1)] =>
        assert (R : respects within_sync_branches m);
        [ | destruct (R w1) as (_ & S); [ left; reflexivity | ] ]
    end.
    + unfold nothing_to_process, convert_and_commit, update_sync_state,
        get_local_master_hash.
      sync_branches_walk. apply convert_files_sync_branches.
    + rewrite (S b Hm Ho). simpl. now autorewrite with world.
  - apply checked_exc in E as [(-> & _) | (a & wa & Ea & -> & _)]; [ | open_effect ];
      simpl; now autorewrite with world.
Qed.

Lemma guarded_sync_branches (ob : string) (w : World) :
  branches (snd (guarded_sync ob w)) = branches (snd (reverse_sync w)).
Proof.
  unfold guarded_sync, try_except_finally.
  destruct (reverse_sync w) as [r w1]. cbn [snd].
  assert (Hh : exists r', (match r with
                           | Val a => (Val a, w1)
                           | Exc e => match on_git_failure e with
                                      | Some h => h w1
                                      | None => (Exc e, w1)
                                      end
                           end) = (r', w1)).
  { destruct r as [a|e]; [ eauto | ].
    destruct e; simpl; unfold sys_exit, raise; eauto. }
  destruct Hh as (r' & ->).
  pose proof (restore_branch_restoring ob w1) as (Hb & _).
  destruct (restore_branch ob w1) as [[u|e] w3]; exact Hb.
Qed.

(** X13.  A run moves no branch other than the published branch and the
    vault branch; [ob_to_gh] in particular stays where it is. *)
Theorem other_branches_untouched (w : World) (b : string) :
  b <> "master" -> b <> "obsidian" ->
  branch_head b (branches (snd (sync_from_wiki w))) = branch_head b (branches w).
Proof.
  intros Hm Ho. rewrite sync_from_wiki_begin. unfold bind.
  pose proof (begin_pass_read_only w) as B.
  destruct (begin_pass w) as [[[ob|]|e] w0]; simpl in B;
    destruct B as (_ & Bb & _); unfold keeps in Bb; simpl; try now rewrite Bb.
  now rewrite guarded_sync_branches, reverse_sync_other_branches, Bb.
Qed.

Lemma other_branches_untouched_witness :
  branch_head "ob_to_gh" (branches (snd (sync_from_wiki Sample.wiki_edited)))
  = branch_head "ob_to_gh" (branches Sample.wiki_edited).
Proof.
  apply (other_branches_untouched Sample.wiki_edited "ob_to_gh"); discriminate.
Defined.

(** ** The published branch *)

Lemma branches_kept_footprint : Footprint (keeps branches).
Proof. footprint. Qed.

Lemma convert_files_branches md_files : respects (keeps branches) (convert_files md_files).
Proof.
  induction md_files as [|f rest IH]; cbn [convert_files]; [ respects_tac | ].
  respects_step; [ respects_tac | ].
  respects_step; [ respects_tac | ].
  respects_step; [ exact IH | respects_tac ].
Qed.

Lemma nothing_to_process_branches : respects (keeps branches) nothing_to_process.
Proof. unfold nothing_to_process, get_local_master_hash. respects_tac. Qed.

Lemma update_sync_state_branches : respects (keeps branches) update_sync_state.
Proof. unfold update_sync_state, get_local_master_hash. respects_tac. Qed.

(** The checks and the drift test leave the pull configuration alone. *)
Lemma begin_pass_reconcile : respects (keeps reconcile) begin_pass.
Proof.
  unfold begin_pass. respects_step.
  - intros w. unfold check_repository. destruct (negb (git_dir w)).
    + reflexivity.
    + revert w. change (respects (keeps reconcile)
        (listing <- checked git_branch_a false Effect.branch_listing ;;
         require_listed required_branches listing)).
      respects_step; [ respects_tac | ].
      induction required_branches as [|b rest IH]; simpl; [ respects_tac | ].
      destruct (negb (Str.contains b a)); [ respects_tac | exact IH ].
  - unfold has_external_changes, get_local_master_hash, get_remote_master_hash,
      get_current_branch.
    respects_tac.
Qed.

Lemma only_on_footprint (n : string) : Footprint (only_on n).
Proof.
  split; unfold only_on.
  - intros w H. split; [ exact H | reflexivity ].
  - intros x y z H1 H2 Hx. destruct (H1 Hx) as (Hy & S1). destruct (H2 Hy) as (Hz & S2).
    split; [ exact Hz | ]. intros b Hb. now rewrite S2, S1.
  - intros w H. autorewrite with world. split; [ exact H | reflexivity ].
Qed.

Ltac only_on_solve :=
  unfold only_on, Effect.move_to; simpl; autorewrite with world; simpl;
  let H := fresh "H" in
  intros H; split;
  [ auto
  | intros ? ?; try reflexivity; apply branch_head_set_other; rewrite H; assumption ].

(** What follows the pull in steps 1 and 2 only reads. *)
Lemma list_changes_branches :
  respects (keeps branches)
    (sync_state <- load_sync_state ;;
     out <- match last_master_hash sync_state with
            | Some recorded =>
                checked (git_diff_name_only recorded) true (Effect.diff recorded)
            | None => checked find_md true Effect.find
            end ;;
     ret (Str.strip out)).
Proof. respects_tac. Qed.

(** A pull on the published branch, whether or not it is seen to end. *)
Lemma pull_pulled (w w1 : World) (a : unit) :
  HEAD w = "master" -> Effect.pull w = Some (a, w1) ->
  (branch_head "master" (branches w1) = branch_head "master" (branches w)
   \/ branch_head "master" (branches w1) = upstream_master w
   \/ exists ours theirs c,
        branch_head "master" (branches w) = Some ours
        /\ upstream_master w = Some theirs
        /\ reconcile w ours theirs = Some c
        /\ branch_head "master" (branches w1) = Some c)
  /\ forall b, b <> "master" -> branch_head b (branches w1) = branch_head b (branches w).
Proof.
  intros Hh H. unfold Effect.pull in H. rewrite Hh in H.
  destruct (upstream_master w) as [r|]; [ | discriminate H ].
  destruct (branch_head "master" (branches w)) as [cur|] eqn:Hm; [ | discriminate H ].
  assert (S : forall c, branch_head "master"
                          (branches (Effect.move_to c (set_origin_master (Some r) w)))
                        = Some c).
  { intros c. unfold Effect.move_to. cbn. rewrite Hh.
    now apply (branch_head_set_branch "master" c cur). }
  assert (O : forall c b, b <> "master" ->
                branch_head b (branches (Effect.move_to c (set_origin_master (Some r) w)))
                = branch_head b (branches w)).
  { intros c b Hb. unfold Effect.move_to. cbn. rewrite Hh.
    now apply branch_head_set_other. }
  destruct (is_ancestor r cur).
  - inversion H; subst. cbn. rewrite Hm. auto.
  - destruct (is_ancestor cur r).
    + inversion H; subst. rewrite S. auto.
    + destruct (reconcile w cur r) as [c|] eqn:Hr; inversion H; subst.
      rewrite S. split; [ | now apply O ]. right. right. exists cur, r, c. auto.
Qed.

(** Steps 1 and 2, whatever their outcome: the published branch is where
    the pull left it, and no other branch has moved. *)
Lemma changed_files_output_branches (w : World) :
  pulled w (snd (changed_files_output w))
  /\ forall b, b <> "master" ->
       branch_head b (branches (snd (changed_files_output w))) = branch_head b (branches w).
Proof.
  set (Q := fun w' : World =>
              pulled w w'
              /\ forall b, b <> "master" ->
                   branch_head b (branches w') = branch_head b (branches w)).
  change (Q (snd (changed_files_output w))).
  assert (K : forall w1 : World, branches w1 = branches w -> Q w1).
  { intros w1 Hb. unfold Q, pulled. rewrite Hb. auto. }
  unfold changed_files_output. unfold bind at 1.
  destruct (checked (git_checkout "master") true (Effect.checkout "master") w)
    as [[[]|e] wa] eqn:E; cbn [snd].
  - apply checked_val in E as (wb & Eb & ->). open_effect. unfold bind at 1.
    match goal with
    | |- context [checked git_pull_origin_master true Effect.pull ?w0] =>
        remember w0 as v eqn:Hv;
        assert (Vh : HEAD v = "master") by (subst v; reflexivity);
        assert (Vb : branches v = branches w)
          by (subst v; cbn; now autorewrite with world);
        assert (Vu : upstream_master v = upstream_master w)
          by (subst v; cbn; now autorewrite with world);
        assert (Vr : reconcile v = reconcile w)
          by (subst v; cbn; now autorewrite with world);
        clear Hv
    end.
    assert (P : forall v1 a, Effect.pull (snd (next_fault v)) = Some (a, v1) ->
                forall ok v2,
                  branches v2 = branches (record (Ran git_pull_origin_master ok) v1) ->
                  Q v2).
    { intros v1 a Ha ok v2 H2. unfold Q, pulled. rewrite H2. cbn [branches record].
      apply pull_pulled in Ha as (Hp & Ho); [ | now autorewrite with world ].
      autorewrite with world in Hp, Ho. rewrite Vb in Ho. rewrite Vb, Vu, Vr in Hp.
      split; [ exact Hp | exact Ho ]. }
    destruct (checked git_pull_origin_master true Effect.pull v) as [[[]|e] vb] eqn:Ep;
      cbn [snd].
    + apply checked_val in Ep as (v1 & E1 & ->).
      apply (P v1 tt E1 true). apply list_changes_branches.
    + apply checked_exc in Ep as [(-> & _) | (a & v1 & E1 & -> & _)].
      * apply K. cbn. now autorewrite with world.
      * now apply (P v1 a E1 false).
  - apply checked_exc in E as [(-> & _) | (a & wb & Eb & -> & _)]; [ | open_effect ];
      apply K; cbn; now autorewrite with world.
Qed.


(** *** Where master ends *)

Lemma convert_files_vault_only md_files : respects (only_on "obsidian") (convert_files md_files).
Proof.
  induction md_files as [|f rest IH]; cbn [convert_files];
    [ walk (only_on_footprint "obsidian") only_on_solve | ].
  apply respects_bind;
    [ exact (only_on_footprint "obsidian") | walk (only_on_footprint "obsidian") only_on_solve | intros _ ].
  apply respects_bind;
    [ exact (only_on_footprint "obsidian") | walk (only_on_footprint "obsidian") only_on_solve | intros ch ].
  apply respects_bind; [ exact (only_on_footprint "obsidian") | exact IH | ].
  intros; walk (only_on_footprint "obsidian") only_on_solve.
Qed.

(** Steps 3 to 5 commit on the vault branch and nowhere else. *)
Lemma convert_and_commit_vault_only (md_files : list string) (w : World) (b : string) :
  b <> "obsidian" ->
  branch_head b (branches (snd (convert_and_commit md_files w))) = branch_head b (branches w).
Proof.
  intros Hb. unfold convert_and_commit. unfold bind at 1.
  destruct (checked (git_checkout "obsidian") true (Effect.checkout "obsidian") w)
    as [[[]|e] w1] eqn:E.
  - apply checked_val in E as (wa & Ea & ->). open_effect.
    match goal with
    | |- context [snd (?m ?w0)] =>
        assert (R : respects (only_on "obsidian") m);
        [ | destruct (R w0) as (_ & O); [ reflexivity | ] ]
    end.
    + walk (only_on_footprint "obsidian") only_on_solve. apply convert_files_vault_only.
    + rewrite (O b Hb). cbn. now autorewrite with world.
  - apply checked_exc in E as [(-> & _) | (a & wa & Ea & -> & _)]; [ | open_effect ];
      cbn; now autorewrite with world.
Qed.

Lemma reverse_sync_master (w : World) : pulled w (snd (reverse_sync w)).
Proof.
  remember (snd (reverse_sync w)) as w' eqn:Hw'.
  unfold reverse_sync in Hw'. unfold bind at 1 in Hw'.
  destruct (changed_files_output_branches w) as (M & _).
  assert (T : forall v, branches v = branches (snd (changed_files_output w)) -> pulled w v).
  { intros v Hv. unfold pulled in *. now rewrite Hv. }
  destruct (changed_files_output w) as [[out|e] w1] eqn:E; cbn [snd] in M, T, Hw';
    [ | now subst w' ].
  assert (N : branches (snd (nothing_to_process w1)) = branches w1)
    by apply nothing_to_process_branches.
  destruct (String.eqb out ""); [ subst w'; now apply T | ].
  unfold bind at 1 in Hw'. destruct (md_files_in out w1) as [|f fs];
    [ subst w'; now apply T | ].
  pose proof (convert_and_commit_vault_only (f :: fs) w1 "master" ltac:(discriminate)) as C.
  unfold bind in Hw'.
  assert (T' : forall v, branch_head "master" (branches v)
                         = branch_head "master" (branches w1) -> pulled w v).
  { intros v Hv. unfold pulled in *. now rewrite Hv. }
  destruct (convert_and_commit (f :: fs) w1) as [[[]|e] w2]; cbn [snd] in C, Hw'; subst w'.
  - pose proof (update_sync_state_branches w2) as U. unfold keeps in U.
    apply T'. now rewrite U, C.
  - now apply T'.
Qed.

(** X14.  A run never commits to the published branch: when the run ends
    local master is where it was, or where the remote's master is, or
    where the pull put it when it reconciled the two. *)
Theorem master_moves_by_pull_only (w : World) :
  let w' := snd (sync_from_wiki w) in
  branch_head "master" (branches w') = branch_head "master" (branches w)
  \/ branch_head "master" (branches w') = upstream_master w
  \/ exists ours theirs c,
       branch_head "master" (branches w) = Some ours
       /\ upstream_master w = Some theirs
       /\ reconcile w ours theirs = Some c
       /\ branch_head "master" (branches w') = Some c.
Proof.
  cbv zeta. change (pulled w (snd (sync_from_wiki w))).
  rewrite sync_from_wiki_begin. unfold bind.
  pose proof (begin_pass_read_only w) as B.
  assert (Br : reconcile (snd (begin_pass w)) = reconcile w).
  { apply (begin_pass_reconcile w). }
  destruct (begin_pass w) as [[[ob|]|e] w0]; simpl in B, Br;
    destruct B as (_ & Bb & _ & _ & Bu & _); unfold keeps in Bb, Bu; simpl;
      try (left; now rewrite Bb).
  pose proof (reverse_sync_master w0) as R. unfold pulled in *.
  rewrite guarded_sync_branches. now rewrite Bb, Bu, Br in R.
Qed.

(** ** A pass that fails *)

(** Steps 3 to 5 that raise have moved no branch, unless what they raise
    is the timeout of the commit. *)
Lemma convert_and_commit_exc (md_files : list string) (w w2 : World) (e : Exn) :
  convert_and_commit md_files w = (Exc e, w2) ->
  (forall message, e <> TimeoutExpired (git_commit message)) ->
  branches w2 = branches w.
Proof.
  intros H Hne. unfold convert_and_commit in H.
  assert (T := fp_trans _ branches_kept_footprint).
  assert (K : forall c eff,
             (c = git_checkout "obsidian" /\ eff = Effect.checkout "obsidian")
             \/ (c = git_add_all /\ eff = Effect.add_all) ->
             respects (keeps branches) (checked c true eff)).
  { intros c eff [(-> & ->) | (-> & ->)]; respects_tac. }
  unfold bind in H at 1.
  pose proof (K _ _ (or_introl (conj eq_refl eq_refl)) w) as R.
  destruct (checked (git_checkout "obsidian") true (Effect.checkout "obsidian") w)
    as [[[]|x] wa]; [ | inversion H; subst; exact R ].
  simpl in R. apply (T _ _ _ R). clear R.
  unfold bind in H at 1. pose proof (convert_files_branches md_files wa) as C.
  destruct (convert_files md_files wa) as [[converted|x] wb];
    [ | inversion H; subst; exact C ].
  simpl in C. apply (T _ _ _ C). clear C.
  destruct converted as [|f fs]; [ discriminate H | ].
  unfold bind in H at 1.
  pose proof (K _ _ (or_intror (conj eq_refl eq_refl)) wb) as R.
  destruct (checked git_add_all true Effect.add_all wb) as [[[]|x] wc];
    [ | inversion H; subst; exact R ].
  simpl in R. apply (T _ _ _ R). clear R.
  apply checked_exc in H as [(-> & _) | (u & w4 & _ & _ & ->)].
  - unfold keeps. cbn. now autorewrite with world.
  - exfalso. now apply (Hne (commit_msg (f :: fs))).
Qed.

(** A failure before step 6 is a failure of the [try] block, and what it
    leaves behind. *)
Lemma fails_before_finalizing_raises (e : Exn) (w : World) :
  fails_before_finalizing e w ->
  exists w1, reverse_sync w = (Exc e, w1)
             /\ ((forall message, e <> TimeoutExpired (git_commit message)) ->
                 forall b, b <> "master" ->
                   branch_head b (branches w1) = branch_head b (branches w)).
Proof.
  destruct (changed_files_output_branches w) as (_ & O).
  intros [(w1 & H) | [(output & w1 & w2 & H & Hmd & Hc)
                      | (output & w1 & w2 & H & Hmd & Hc)]];
    rewrite H in O; cbn [snd] in O.
  - exists w1. split; [ | intros _; exact O ].
    unfold reverse_sync, bind. now rewrite H.
  - exists w2. split; [ now rewrite (reverse_sync_nothing w w1 output H Hmd) | ].
    intros _ b Hb. rewrite <- (O b Hb).
    pose proof (nothing_to_process_branches w1) as N. rewrite Hc in N.
    unfold keeps in N. simpl in N. now rewrite N.
  - exists w2. split.
    + unfold reverse_sync, bind. rewrite H.
      destruct (String.eqb output "") eqn:Q.
      * apply String.eqb_eq in Q. subst output. now rewrite md_files_in_empty in Hmd.
      * destruct (md_files_in output w1) as [|f rest] eqn:M; [ congruence | ].
        unfold bind in Hc. now rewrite Hc.
    + intros Hne b Hb. rewrite <- (O b Hb).
      now rewrite (convert_and_commit_exc _ _ _ _ Hc Hne).
Qed.

(** C6 (amended).  When a version-control operation fails or times out
    while the pass is Syncing or Committing, in particular after files were
    converted and before the commit, the run ends with a non-zero status
    and the state file keeps the prior baseline; and unless it is the
    commit itself that ran past its timeout, no commit of the pass exists:
    every branch but the published one, which the pull may have moved, is
    where it was. *)
Theorem transport_failure_aborts (w w0 : World) (original_branch : string) (e : Exn) :
  begin_pass w = (Val (Some original_branch), w0) ->
  fails_before_finalizing e w0 ->
  exit_status (fst (sync_from_wiki w)) <> 0
  /\ sync_state_file (snd (sync_from_wiki w)) = sync_state_file w
  /\ ((forall message, e <> TimeoutExpired (git_commit message)) ->
      forall b, b <> "master" ->
        branch_head b (branches (snd (sync_from_wiki w))) = branch_head b (branches w)).
Proof.
  intros Hb Hf.
  assert (Hs : sync_from_wiki w = guarded_sync original_branch w0).
  { rewrite sync_from_wiki_begin. unfold bind. now rewrite Hb. }
  rewrite Hs.
  destruct (fails_before_finalizing_raises e w0 Hf) as (w1 & Hr & Ho).
  destruct (guarded_sync_abort original_branch w0 w1 e Hr) as (Hx & Rb & Rs & _).
  pose proof (begin_pass_read_only w) as U0. rewrite Hb in U0.
  destruct U0 as (_ & Bb & _ & Bs & _). unfold keeps in *. simpl in Bb, Bs.
  split; [ exact Hx | ]. split.
  - rewrite Rs, (reverse_sync_exc_state w0 w1 e Hr). exact Bs.
  - intros Hne b Hm. rewrite Rb, (Ho Hne b Hm). now rewrite Bb.
Qed.

Lemma transport_failure_aborts_witness :
  exit_status (fst (sync_from_wiki Sample.commit_refused)) <> 0
  /\ sync_state_file (snd (sync_from_wiki Sample.commit_refused))
     = sync_state_file Sample.commit_refused
  /\ branch_head "obsidian" (branches (snd (sync_from_wiki Sample.commit_refused)))
     = branch_head "obsidian" (branches Sample.commit_refused).
Proof.
  destruct (transport_failure_aborts Sample.commit_refused
              (snd (begin_pass Sample.commit_refused)) "obsidian"
              (CalledProcessError (git_commit "Sync from GitHub Wiki: converted 1 files")))
    as (H1 & H2 & H3).
  - vm_compute. reflexivity.
  - right. right.
    exists "Home.md",
      (snd (changed_files_output (snd (begin_pass Sample.commit_refused)))).
    exists (snd (convert_and_commit ["Home.md"]
                   (snd (changed_files_output (snd (begin_pass Sample.commit_refused)))))).
    split; [ vm_compute; reflexivity | ].
    split; [ vm_compute; discriminate | vm_compute; reflexivity ].
  - split; [ exact H1 | ]. split; [ exact H2 | ].
    apply H3; discriminate.
Defined.

(** A commit that is written and then runs past its timeout: the run ends
    with status 1 and the state file keeps the prior baseline, yet the vault
    branch carries the commit of the pass. *)
Lemma transport_failure_leaves_commit :
  begin_pass Sample.commit_hangs_late
  = (Val (Some "obsidian"), snd (begin_pass Sample.commit_hangs_late))
  /\ fst (convert_and_commit ["Home.md"]
            (snd (changed_files_output (snd (begin_pass Sample.commit_hangs_late)))))
     = Exc (TimeoutExpired (git_commit "Sync from GitHub Wiki: converted 1 files"))
  /\ exit_status (fst (sync_from_wiki Sample.commit_hangs_late)) = 1
  /\ sync_state_file (snd (sync_from_wiki Sample.commit_hangs_late))
     = sync_state_file Sample.commit_hangs_late
  /\ branch_head "obsidian" (branches Sample.commit_hangs_late) = Some Sample.v1
  /\ branch_head "obsidian" (branches (snd (sync_from_wiki Sample.commit_hangs_late)))
     = Some (Next Sample.v1
               [("Home.md", "see [[Setup Guide|Setup]] and ![[diagram.png]]");
                ("pic.png", "PNG")]
               "Sync from GitHub Wiki: converted 1 files").
Proof. vm_compute. repeat split. Qed.


(** ** Reading the list of changed files *)

Lemma unlines_cons (l : string) (ls : list string) :
  Effect.unlines (l :: ls) = l ++ String Str.newline (Effect.unlines ls).
Proof.
  unfold Effect.unlines. cbn [map String.concat].
  destruct ls as [|l2 ls]; cbn [map]; [ reflexivity | ].
  cbn [append]. rewrite app_assoc. reflexivity.
Qed.

Lemma length_lstrip (s : string) : length (Str.lstrip s) <= length s.
Proof.
  induction s as [|c s IH]; cbn [Str.lstrip length]; [ lia | ].
  destruct (Str.is_space c); cbn [length]; lia.
Qed.

Lemma lstrip_fixed (n : string) :
  n <> "" -> Str.lstrip n = n -> exists c s, n = String c s /\ Str.is_space c = false.
Proof.
  intros Hn H. destruct n as [|c s]; [ congruence | ].
  exists c, s. split; [ reflexivity | ].
  destruct (Str.is_space c) eqn:E; [ | reflexivity ].
  cbn [Str.lstrip] in H. rewrite E in H.
  pose proof (length_lstrip s) as L. rewrite H in L. cbn [length] in L. lia.
Qed.

Lemma rstrip_blank (v : string) : Str.all Str.is_space v = true -> Str.rstrip v = "".
Proof.
  induction v as [|c v IH]; cbn [Str.all Str.rstrip]; [ reflexivity | ].
  intros H. apply andb_true_iff in H as [Hc Hv]. now rewrite (IH Hv), Hc.
Qed.

Lemma rstrip_app_blank (u v : string) :
  Str.all Str.is_space v = true -> Str.rstrip (u ++ v) = Str.rstrip u.
Proof.
  intros Hv. induction u as [|c u IH]; cbn [append Str.rstrip].
  - now apply rstrip_blank.
  - now rewrite IH.
Qed.

Lemma rstrip_app_nonblank (u v : string) :
  Str.rstrip v <> "" -> Str.rstrip (u ++ v) = u ++ Str.rstrip v.
Proof.
  intros Hv. induction u as [|c u IH]; cbn [append Str.rstrip]; [ reflexivity | ].
  rewrite IH. destruct (u ++ Str.rstrip v) eqn:E; [ | reflexivity ].
  destruct u; [ cbn in E; congruence | discriminate ].
Qed.

Lemma join_lines_nonempty (l : string) (ls : list string) :
  l <> "" -> join_lines (l :: ls) <> "".
Proof.
  intros Hl. cbn [join_lines]. destruct ls; [ exact Hl | ].
  destruct l; [ congruence | discriminate ].
Qed.

Lemma rstrip_unlines (names : list string) :
  Forall path_like names -> Str.rstrip (Effect.unlines names) = join_lines names.
Proof.
  induction 1 as [|n ns (Hn & _ & _ & Hr) Hns IH]; [ reflexivity | ].
  rewrite unlines_cons. destruct ns as [|n2 ns].
  - change (Effect.unlines []) with "". cbn [join_lines].
    rewrite rstrip_app_blank by reflexivity. exact Hr.
  - change (n ++ String Str.newline (Effect.unlines (n2 :: ns)))
      with (n ++ String Str.newline "" ++ Effect.unlines (n2 :: ns)).
    rewrite <- app_assoc.
    assert (N : Str.rstrip (Effect.unlines (n2 :: ns)) <> "").
    { rewrite IH. apply join_lines_nonempty. inversion Hns as [|? ? (H2 & _) _]. exact H2. }
    rewrite rstrip_app_nonblank by exact N. rewrite IH, app_assoc. reflexivity.
Qed.

Lemma strip_unlines (names : list string) :
  Forall path_like names -> Str.strip (Effect.unlines names) = join_lines names.
Proof.
  intros H. unfold Str.strip. destruct names as [|n ns]; [ reflexivity | ].
  inversion H as [|? ? (Hn & _ & Hl & _) _]. subst.
  destruct (lstrip_fixed n Hn Hl) as (c & s & -> & Hc).
  rewrite unlines_cons at 1. cbn [append Str.lstrip]. rewrite Hc.
  change (String c (s ++ String Str.newline (Effect.unlines ns)))
    with (String c s ++ String Str.newline (Effect.unlines ns)).
  rewrite <- unlines_cons. now apply rstrip_unlines.
Qed.

Lemma split_line (n : string) :
  Str.mem Str.newline n = false -> Str.split Str.newline n = [n].
Proof.
  induction n as [|c n IH]; cbn [Str.mem Str.split]; [ reflexivity | ].
  intros H. apply orb_false_iff in H as [Hc Hn].
  rewrite Ascii.eqb_sym, Hc, (IH Hn). reflexivity.
Qed.

Lemma split_lines (n rest : string) :
  Str.mem Str.newline n = false ->
  Str.split Str.newline (n ++ String Str.newline rest) = n :: Str.split Str.newline rest.
Proof.
  induction n as [|c n IH]; cbn [Str.mem append]; intros H.
  - cbn [Str.split]. now rewrite Ascii.eqb_refl.
  - apply orb_false_iff in H as [Hc Hn]. cbn [Str.split].
    rewrite Ascii.eqb_sym, Hc, (IH Hn). reflexivity.
Qed.

Lemma split_join_lines (n : string) (ns : list string) :
  Forall path_like (n :: ns) -> Str.split Str.newline (join_lines (n :: ns)) = n :: ns.
Proof.
  revert n. induction ns as [|n2 ns IH]; intros n H;
    inversion H as [|? ? (_ & Hm & _) Hns]; subst.
  - now apply split_line.
  - change (join_lines (n :: n2 :: ns)) with (n ++ String Str.newline (join_lines (n2 :: ns))).
    rewrite split_lines by exact Hm. now rewrite IH.
Qed.

Lemma filter_path_like (names : list string) :
  Forall path_like names ->
  filter (fun f => negb (String.eqb (Str.strip f) "")) names = names.
Proof.
  induction 1 as [|n ns (Hn & _ & Hl & Hr) _ IH]; [ reflexivity | ].
  cbn [filter]. unfold Str.strip at 1. rewrite Hl, Hr.
  apply String.eqb_neq in Hn. now rewrite Hn, IH.
Qed.

(** X21.  The list of changed files is read back correctly from a
    listing: when every name is non-empty, has no line break inside and no
    blank at either end, stripping the listing, splitting it at the line
    breaks and dropping the blank lines yields the names in order, each
    without a leading [./]. *)
Theorem changed_files_of_listing (names : list string) :
  Forall path_like names ->
  changed_files (Str.strip (Effect.unlines names)) = map Path.of_string names.
Proof.
  intros H. unfold changed_files. rewrite strip_unlines by exact H.
  destruct names as [|n ns]; [ reflexivity | ].
  now rewrite split_join_lines, filter_path_like.
Qed.

Lemma changed_files_of_listing_witness :
  changed_files (Str.strip (Effect.unlines ["./Home.md"; "Setup Guide.md"]))
  = map Path.of_string ["./Home.md"; "Setup Guide.md"].
Proof.
  apply (changed_files_of_listing ["./Home.md"; "Setup Guide.md"]).
  repeat constructor; try discriminate.
Defined.


(* ================================================================= *)
(** * The setup script *)

Lemma startswith_app (p v : string) : Str.startswith p (p ++ v) = true.
Proof.
  induction p as [|c p IH]; [ reflexivity | ].
  cbn [append Str.startswith]. now rewrite Ascii.eqb_refl, IH.
Qed.

Lemma startswith_app_r (p s v : string) :
  Str.startswith p s = true -> Str.startswith p (s ++ v) = true.
Proof.
  revert s. induction p as [|c p IH]; intros s; [ reflexivity | ].
  destruct s as [|d s]; [ discriminate | ]. cbn [append Str.startswith].
  intros H. apply andb_true_iff in H as [-> H]. now rewrite IH.
Qed.

Lemma contains_app_l (p s v : string) :
  Str.contains p s = true -> Str.contains p (s ++ v) = true.
Proof.
  induction s as [|c s IH]; intros H.
  - cbn [Str.contains] in H. rewrite orb_false_r in H.
    destruct p; [ now destruct v | discriminate ].
  - cbn [Str.contains] in H. apply orb_true_iff in H as [H | H].
    + change (String c s ++ v) with (String c (s ++ v)) in *.
      cbn [Str.contains]. change (String c (s ++ v)) with (String c s ++ v).
      now rewrite (startswith_app_r _ _ v H).
    + cbn [append Str.contains]. rewrite (IH H). apply orb_true_r.
Qed.

Lemma contains_app_r (p u s : string) :
  Str.contains p s = true -> Str.contains p (u ++ s) = true.
Proof.
  intros H. induction u as [|c u IH]; [ exact H | ].
  cbn [append Str.contains]. rewrite IH. apply orb_true_r.
Qed.

Lemma needs_update_false (existing_content : string) :
  Setup.needs_update existing_content = false <->
  forall entry, In entry (tl Setup.gitignore_entries) ->
                Str.contains entry existing_content = true.
Proof.
  unfold Setup.needs_update. split.
  - intros H entry Hin.
    destruct (Str.contains entry existing_content) eqn:E; [ reflexivity | ].
    assert (X : existsb (fun entry => negb (Str.contains entry existing_content))
                        (tl Setup.gitignore_entries) = true).
    { apply existsb_exists. exists entry. now rewrite E. }
    congruence.
  - intros H. destruct (existsb _ _) eqn:E; [ | reflexivity ].
    apply existsb_exists in E as (entry & Hin & Hn). now rewrite (H entry Hin) in Hn.
Qed.

Lemma appended_has_entries (u entry : string) :
  In entry (tl Setup.gitignore_entries) ->
  Str.contains entry (u ++ Setup.appended) = true.
Proof.
  intros Hin. apply contains_app_r.
  cbn in Hin. destruct Hin as [<- | [<- | [<- | []]]]; vm_compute; reflexivity.
Qed.

(** X19.  [create_gitignore] only ever appends: the text the file had is
    a prefix of the text it has afterwards.  When it reports success every
    entry but the comment line occurs in the file, and calling it again
    leaves the file as it is; when it reports failure the file is
    untouched. *)
Theorem create_gitignore_appends_once (fault again : Setup.IOFault)
        (gitignore : option string) :
  let result := Setup.create_gitignore fault gitignore in
  (exists suffix,
      Setup.content_of (snd result) = Setup.content_of gitignore ++ suffix)
  /\ (fst result = true ->
      (forall entry, In entry (tl Setup.gitignore_entries) ->
                     Str.contains entry (Setup.content_of (snd result)) = true)
      /\ snd (Setup.create_gitignore again (snd result)) = snd result)
  /\ (fst result = false -> snd result = gitignore /\ fault <> Setup.IONoFault).
Proof.
  cbv zeta.
  assert (Present : fst (Setup.create_gitignore fault gitignore) = true ->
                    forall entry, In entry (tl Setup.gitignore_entries) ->
                    Str.contains entry
                      (Setup.content_of (snd (Setup.create_gitignore fault gitignore)))
                    = true).
  { unfold Setup.create_gitignore.
    destruct gitignore as [c|], fault; cbn [fst snd Setup.content_of];
      try discriminate;
      match goal with
      | |- context [Setup.needs_update ?x] => destruct (Setup.needs_update x) eqn:N
      end; cbn [fst snd Setup.content_of]; try discriminate; intros _ entry Hin;
        first [ now apply appended_has_entries
              | now apply (proj1 (needs_update_false _) N) ]. }
  split; [ | split ].
  - unfold Setup.create_gitignore.
    destruct gitignore as [c|], fault; cbn [fst snd Setup.content_of];
      try (exists ""; now rewrite app_empty_r);
      match goal with
      | |- context [Setup.needs_update ?x] => destruct (Setup.needs_update x)
      end; cbn [fst snd Setup.content_of];
        first [ exists ""; now rewrite ?app_empty_r | eexists; reflexivity ].
  - intros Hok. split; [ now apply Present | ].
    pose proof (proj2 (needs_update_false _) (Present Hok)) as N.
    unfold Setup.create_gitignore at 1.
    destruct (snd (Setup.create_gitignore fault gitignore)) as [c|];
      cbn [Setup.content_of] in N; rewrite N; now destruct again.
  - unfold Setup.create_gitignore.
    destruct gitignore as [c|], fault; cbn [fst snd];
      try (intros _; split; [ reflexivity | discriminate ]);
      match goal with
      | |- context [Setup.needs_update ?x] => destruct (Setup.needs_update x)
      end; cbn [fst snd]; try discriminate;
        intros _; split; try reflexivity; discriminate.
Qed.

Lemma create_gitignore_appends_once_witness :
  snd (Setup.create_gitignore Setup.IONoFault
         (snd (Setup.create_gitignore Setup.IONoFault (Some "node_modules"))))
  = snd (Setup.create_gitignore Setup.IONoFault (Some "node_modules")).
Proof.
  assert (H : fst (Setup.create_gitignore Setup.IONoFault (Some "node_modules")) = true)
    by (vm_compute; reflexivity).
  exact (proj2 (proj1 (proj2 (create_gitignore_appends_once Setup.IONoFault
                                Setup.IONoFault (Some "node_modules"))) H)).
Defined.

